(** * Lennard-Jones molecular dynamics of argon

    A shallow embedding of [moleculardynamics::Ar_moleculardynamics<T>]
    (Ar_moleculardynamics.h): the OpenCL kernels [init_force], [force],
    [move_atoms1] and [move_atoms], the member functions [Calc_Forces],
    [Move_Atoms], [MD_initPos] and [MD_initVel] and the constructor.

    Conventions of the embedding.
    - The scalar type [T] of the class template and the [float] of the
      kernels are both read as the real numbers [R]: every statement below
      is a statement of exact arithmetic, without rounding.  A sum of
      floating-point numbers depends on the order of its terms, and the
      order of the additions to [Up_] is decided by the run time: the
      theorems that compare two executions of the same calls on the same
      object under different schedules leave [Up_] and [Utot_] out of the
      comparison.
    - The division of [R] is total, with [x / 0 = 0], where the code
      returns an infinity or a NaN.  The code divides by the distance of a
      pair in the force kernel and in the energy loop, by the number of
      atoms and by the temperature [Tc_] in [Move_Atoms], and by the norm
      of the drawn direction in [MD_initVel]; a theorem about a result of
      one of these divisions carries the hypothesis that the divisor is
      not zero ([no_coincidence], [0 < NumAtom_ s], [0 < Tc], a drawn
      direction that is not three zeros).
    - [std::int32_t] loop counters and atom indices are [nat], image offsets
      (which are negative) and the step counter [MD_iter_] are [Z]; the
      increment of the counter wraps around at [2^31] ([int32_wrap]), and a
      theorem that states the counter after a call carries the hypothesis
      that it is below [2147483647] before the call.
    - [std::vector] and [boost::compute::vector] are lists, read with
      [l !!! n] and written with [<[n:=v]> l].
    - A parallel region ([enqueue_1d_range_kernel], [tbb::parallel_for])
      receives a [schedule], the order in which the run time executes the
      indices of the range; [tbb::combinable] receives the worker thread of
      every index. *)

From Stdlib Require Import Reals Lra Lia ZArith List Permutation.
From stdpp Require Import list.

Local Open Scope R_scope.

(** ** Vector4 / float4 *)

Record Vector4 : Type := mkV4 { vx : R; vy : R; vz : R; vw : R }.

(** [(float4)(c)] *)
Definition splat (c : R) : Vector4 := mkV4 c c c c.

Definition vadd (a b : Vector4) : Vector4 :=
  mkV4 (vx a + vx b) (vy a + vy b) (vz a + vz b) (vw a + vw b).
Definition vsub (a b : Vector4) : Vector4 :=
  mkV4 (vx a - vx b) (vy a - vy b) (vz a - vz b) (vw a - vw b).
Definition vmul (a b : Vector4) : Vector4 :=
  mkV4 (vx a * vx b) (vy a * vy b) (vz a * vz b) (vw a * vw b).
Definition vdiv (a b : Vector4) : Vector4 :=
  mkV4 (vx a / vx b) (vy a / vy b) (vz a / vz b) (vw a / vw b).

Declare Scope v4_scope.
Delimit Scope v4_scope with v4.
Bind Scope v4_scope with Vector4.
Infix "+" := vadd : v4_scope.
Infix "-" := vsub : v4_scope.
Infix "*" := vmul : v4_scope.
Infix "/" := vdiv : v4_scope.

(** [v.data[i]] on the host side. *)
Definition data (v : Vector4) (i : nat) : R :=
  match i with
  | O => vx v
  | 1%nat => vy v
  | 2%nat => vz v
  | _ => vw v
  end.

(** [v.data[i] = c] *)
Definition set_data (v : Vector4) (i : nat) (c : R) : Vector4 :=
  match i with
  | O => mkV4 c (vy v) (vz v) (vw v)
  | 1%nat => mkV4 (vx v) c (vz v) (vw v)
  | 2%nat => mkV4 (vx v) (vy v) c (vw v)
  | _ => mkV4 (vx v) (vy v) (vz v) c
  end.

(** Modelled from the spec: vector4.h is not part of the sources; the
    three-argument constructor [Vector4<T>(x, y, z)] fills the three used
    components, the fourth one ("w unused") is taken to be zero, as is a
    value-initialised [Vector4<T>]. *)
Definition Vector4_xyz (x y z : R) : Vector4 := mkV4 x y z 0.

#[global] Instance Vector4_inhabited : Inhabited Vector4 := populate (splat 0).

Definition norm2 (x y z : R) : R := x * x + y * y + z * z.

(** ** Constants of the class *)

Definition FIRSTNC : nat := 4.
Definition FIRSTSCALE : R := 1.0.
Definition FIRSTTEMP : R := 50.0.
Definition ALPHA : R := 0.2.
Definition DT : R := 0.001.
Definition KB : R := 1.3806488E-23.
Definition YPSILON : R := 1.6540172624E-21.
Definition dt2 : R := DT * DT.
Definition ncp_ : Z := 3.
Definition rc_ : R := 2.5.
Definition rc2_ : R := rc_ * rc_.
(** [std::pow(rc_, -6.0)] and [std::pow(rc_, -12.0)] *)
Definition rcm6_ : R := / rc_ ^ 6.
Definition rcm12_ : R := / rc_ ^ 12.
Definition Vrc_ : R := 4.0 * (rcm12_ - rcm6_).

(** ** Loops and parallel regions *)

(** [for (a : l) s = body a s] *)
Definition for_loop {S A : Type} (l : list A) (body : A -> S -> S) (s : S)
    : S :=
  fold_left (fun s a => body a s) l s.

(** The values taken by [i] in [for (i = lo; i <= hi; i++)]. *)
Definition zrange (lo hi : Z) : list Z :=
  map (fun t => (lo + Z.of_nat t)%Z) (seq 0 (Z.to_nat (hi - lo + 1))).

(** The order in which a parallel region executes a range of indices. *)
Definition schedule : Type := list nat -> list nat.

Definition fair (sigma : schedule) : Prop :=
  forall l, Permutation (sigma l) l.

Definition in_order : schedule := fun l => l.

(** [queue_.enqueue_1d_range_kernel(kernel, 0, global_size, 16)] followed
    by [wait()]: one work-item per global id. *)
Definition enqueue_1d_range_kernel {B : Type} (sigma : schedule)
    (kernel : nat -> B -> B) (global_size : nat) (buf : B) : B :=
  for_loop (sigma (seq 0 global_size)) kernel buf.

(** [tbb::parallel_for(first, last, 1, body, tbb::auto_partitioner())] *)
Definition parallel_for {S : Type} (sigma : schedule) (first last : nat)
    (body : nat -> S -> S) (s : S) : S :=
  for_loop (sigma (seq first (last - first))) body s.

(** [tbb::combinable<T>]: one accumulator per worker thread, each starting
    from [T()]; [local() += x] on thread [tid], and [combine(std::plus)].
    The accumulators are added here in the order of the threads; over [R]
    the sum does not depend on that order, in floating point it does. *)
#[global] Instance R_inhabited : Inhabited R := populate 0.
Abbreviation combinable := (list R) (only parsing).
Definition combinable_new (workers : nat) : combinable := replicate workers 0.
Definition local_add (tid : nat) (x : R) (c : combinable) : combinable :=
  <[tid := c !!! tid + x]> c.
Definition combine_plus (c : combinable) : R := fold_right Rplus 0 c.

(** [boost::compute::copy(src.begin(), src.end(), dst.begin(), queue)] *)
Definition copy (src dst : list Vector4) : list Vector4 :=
  src ++ drop (length src) dst.

(** ** The OpenCL kernels *)

(** [kernel void init_force(__global float4 f[])] *)
Definition init_force (i : nat) (f : list Vector4) : list Vector4 :=
  <[i := splat 0.0]> f.

(** The test [n != m || i != 0 || j != 0 || k != 0]. *)
Definition not_self (n m : nat) (i j k : Z) : bool :=
  negb (n =? m)%nat || negb (i =? 0)%Z || negb (j =? 0)%Z || negb (k =? 0)%Z.

(** The image shift [s] of the cell [(i, j, k)]. *)
Definition image_shift (periodiclen : R) (i j k : Z) : Vector4 :=
  mkV4 (IZR i * periodiclen) (IZR j * periodiclen) (IZR k * periodiclen) 0.0.

(** [d = r[n] - (r[m] + s)] *)
Definition displacement (r : list Vector4) (periodiclen : R)
    (n m : nat) (i j k : Z) : Vector4 :=
  (r !!! n - (r !!! m + image_shift periodiclen i j k))%v4.

Definition dist2 (d : Vector4) : R := vx d * vx d + vy d * vy d + vz d * vz d.

(** [Fr = 48.0 * rm13 - 24.0 * rm7] as computed from [r2].  For [r2 = 0]
    the code divides by zero; the value of the definition is then of no
    use, and the theorems assume [0 < r2]. *)
Definition Fr_of (r2 : R) : R :=
  let r := sqrt r2 in
  let rm6 := 1.0 / (r2 * r2 * r2) in
  let rm7 := rm6 / r in
  let rm12 := rm6 * rm6 in
  let rm13 := rm12 / r in
  48.0 * rm13 - 24.0 * rm7.

(** The vector added to [f[n]]: [d / r * (float4)(Fr)], with the same
    proviso for [r = 0]. *)
Definition pair_force (d : Vector4) : Vector4 :=
  (d / splat (sqrt (dist2 d)) * splat (Fr_of (dist2 d)))%v4.

(** [kernel void force(f, r, ncp, numatom, periodiclen, rc2)], work-item [n];
    [r] is read-only, [f] is the buffer written. *)
Definition force (r : list Vector4) (ncp : Z) (numatom : nat)
    (periodiclen rc2 : R) (n : nat) (f : list Vector4) : list Vector4 :=
  for_loop (seq 0 numatom) (fun m f =>
    for_loop (zrange (- ncp) ncp) (fun i f =>
      for_loop (zrange (- ncp) ncp) (fun j f =>
        for_loop (zrange (- ncp) ncp) (fun k f =>
          if not_self n m i j k then
            let d := displacement r periodiclen n m i j k in
            let r2 := dist2 d in
            if Rle_dec r2 rc2 then
              <[n := (f !!! n + pair_force d)%v4]> f
            else f
          else f) f) f) f) f.

(** The three buffers written by the integrator kernels. *)
Abbreviation rr1V := (list Vector4 * list Vector4 * list Vector4)%type
  (only parsing).

(** [kernel void move_atoms1(r, r1, V, f, deltat, s)], work-item [n]. *)
Definition move_atoms1 (f : list Vector4) (deltat s : R) (n : nat)
    (b : rr1V) : rr1V :=
  let '(r, r1, V) := b in
  let dt := splat deltat in
  let dt2 := (dt * dt)%v4 in
  let r1 := <[n := r !!! n]> r1 in
  let V := <[n := (V !!! n * splat s)%v4]> V in
  let r :=
    <[n := (r !!! n + (dt * V !!! n + splat 0.5 * f !!! n * dt2))%v4]> r in
  let V := <[n := (V !!! n + dt * f !!! n)%v4]> V in
  (r, r1, V).

(** [kernel void move_atoms(r, r1, V, f, deltat)], work-item [n]. *)
Definition move_atoms (f : list Vector4) (deltat : R) (n : nat)
    (b : rr1V) : rr1V :=
  let '(r, r1, V) := b in
  let dt := splat deltat in
  let dt2 := (dt * dt)%v4 in
  let rtmp := r !!! n in
  let r := <[n := (splat 2.0 * r !!! n - r1 !!! n + f !!! n * dt2)%v4]> r in
  let V := <[n := (splat 0.5 * (r !!! n - r1 !!! n) / dt)%v4]> V in
  let r1 := <[n := rtmp]> r1 in
  (r, r1, V).

(** ** The object state

    The data members of [Ar_moleculardynamics<T>] that are not constants;
    the [_dev_] members are the device-side mirrors. *)

Record MD : Type := mkMD {
  lat_ : R;
  Nc_ : nat;
  F_ : list Vector4;
  F_dev_ : list Vector4;
  MD_iter_ : Z;
  NumAtom_ : nat;
  periodiclen_ : R;
  scale_ : R;
  t_ : R;
  Tc_ : R;
  Tg_ : R;
  Uk_ : R;
  Up_ : R;
  Utot_ : R;
  V_ : list Vector4;
  V_dev_ : list Vector4;
  r_ : list Vector4;
  r_dev_ : list Vector4;
  r1_ : list Vector4;
  r1_dev_ : list Vector4
}.

(** Assignment to one member. *)
Definition set_lat (v : R) (s : MD) : MD :=
  mkMD v (Nc_ s) (F_ s) (F_dev_ s) (MD_iter_ s) (NumAtom_ s)
    (periodiclen_ s) (scale_ s) (t_ s) (Tc_ s) (Tg_ s) (Uk_ s) (Up_ s)
    (Utot_ s) (V_ s) (V_dev_ s) (r_ s) (r_dev_ s) (r1_ s) (r1_dev_ s).
Definition set_F (v : list Vector4) (s : MD) : MD :=
  mkMD (lat_ s) (Nc_ s) v (F_dev_ s) (MD_iter_ s) (NumAtom_ s)
    (periodiclen_ s) (scale_ s) (t_ s) (Tc_ s) (Tg_ s) (Uk_ s) (Up_ s)
    (Utot_ s) (V_ s) (V_dev_ s) (r_ s) (r_dev_ s) (r1_ s) (r1_dev_ s).
Definition set_F_dev (v : list Vector4) (s : MD) : MD :=
  mkMD (lat_ s) (Nc_ s) (F_ s) v (MD_iter_ s) (NumAtom_ s) (periodiclen_ s)
    (scale_ s) (t_ s) (Tc_ s) (Tg_ s) (Uk_ s) (Up_ s) (Utot_ s) (V_ s)
    (V_dev_ s) (r_ s) (r_dev_ s) (r1_ s) (r1_dev_ s).
Definition set_MD_iter (v : Z) (s : MD) : MD :=
  mkMD (lat_ s) (Nc_ s) (F_ s) (F_dev_ s) v (NumAtom_ s) (periodiclen_ s)
    (scale_ s) (t_ s) (Tc_ s) (Tg_ s) (Uk_ s) (Up_ s) (Utot_ s) (V_ s)
    (V_dev_ s) (r_ s) (r_dev_ s) (r1_ s) (r1_dev_ s).
Definition set_NumAtom (v : nat) (s : MD) : MD :=
  mkMD (lat_ s) (Nc_ s) (F_ s) (F_dev_ s) (MD_iter_ s) v (periodiclen_ s)
    (scale_ s) (t_ s) (Tc_ s) (Tg_ s) (Uk_ s) (Up_ s) (Utot_ s) (V_ s)
    (V_dev_ s) (r_ s) (r_dev_ s) (r1_ s) (r1_dev_ s).
Definition set_periodiclen (v : R) (s : MD) : MD :=
  mkMD (lat_ s) (Nc_ s) (F_ s) (F_dev_ s) (MD_iter_ s) (NumAtom_ s) v
    (scale_ s) (t_ s) (Tc_ s) (Tg_ s) (Uk_ s) (Up_ s) (Utot_ s) (V_ s)
    (V_dev_ s) (r_ s) (r_dev_ s) (r1_ s) (r1_dev_ s).
Definition set_t (v : R) (s : MD) : MD :=
  mkMD (lat_ s) (Nc_ s) (F_ s) (F_dev_ s) (MD_iter_ s) (NumAtom_ s)
    (periodiclen_ s) (scale_ s) v (Tc_ s) (Tg_ s) (Uk_ s) (Up_ s) (Utot_ s)
    (V_ s) (V_dev_ s) (r_ s) (r_dev_ s) (r1_ s) (r1_dev_ s).
Definition set_Tc (v : R) (s : MD) : MD :=
  mkMD (lat_ s) (Nc_ s) (F_ s) (F_dev_ s) (MD_iter_ s) (NumAtom_ s)
    (periodiclen_ s) (scale_ s) (t_ s) v (Tg_ s) (Uk_ s) (Up_ s) (Utot_ s)
    (V_ s) (V_dev_ s) (r_ s) (r_dev_ s) (r1_ s) (r1_dev_ s).
Definition set_Tg (v : R) (s : MD) : MD :=
  mkMD (lat_ s) (Nc_ s) (F_ s) (F_dev_ s) (MD_iter_ s) (NumAtom_ s)
    (periodiclen_ s) (scale_ s) (t_ s) (Tc_ s) v (Uk_ s) (Up_ s) (Utot_ s)
    (V_ s) (V_dev_ s) (r_ s) (r_dev_ s) (r1_ s) (r1_dev_ s).
Definition set_Uk (v : R) (s : MD) : MD :=
  mkMD (lat_ s) (Nc_ s) (F_ s) (F_dev_ s) (MD_iter_ s) (NumAtom_ s)
    (periodiclen_ s) (scale_ s) (t_ s) (Tc_ s) (Tg_ s) v (Up_ s) (Utot_ s)
    (V_ s) (V_dev_ s) (r_ s) (r_dev_ s) (r1_ s) (r1_dev_ s).
Definition set_Up (v : R) (s : MD) : MD :=
  mkMD (lat_ s) (Nc_ s) (F_ s) (F_dev_ s) (MD_iter_ s) (NumAtom_ s)
    (periodiclen_ s) (scale_ s) (t_ s) (Tc_ s) (Tg_ s) (Uk_ s) v (Utot_ s)
    (V_ s) (V_dev_ s) (r_ s) (r_dev_ s) (r1_ s) (r1_dev_ s).
Definition set_Utot (v : R) (s : MD) : MD :=
  mkMD (lat_ s) (Nc_ s) (F_ s) (F_dev_ s) (MD_iter_ s) (NumAtom_ s)
    (periodiclen_ s) (scale_ s) (t_ s) (Tc_ s) (Tg_ s) (Uk_ s) (Up_ s) v
    (V_ s) (V_dev_ s) (r_ s) (r_dev_ s) (r1_ s) (r1_dev_ s).
Definition set_V (v : list Vector4) (s : MD) : MD :=
  mkMD (lat_ s) (Nc_ s) (F_ s) (F_dev_ s) (MD_iter_ s) (NumAtom_ s)
    (periodiclen_ s) (scale_ s) (t_ s) (Tc_ s) (Tg_ s) (Uk_ s) (Up_ s)
    (Utot_ s) v (V_dev_ s) (r_ s) (r_dev_ s) (r1_ s) (r1_dev_ s).
Definition set_V_dev (v : list Vector4) (s : MD) : MD :=
  mkMD (lat_ s) (Nc_ s) (F_ s) (F_dev_ s) (MD_iter_ s) (NumAtom_ s)
    (periodiclen_ s) (scale_ s) (t_ s) (Tc_ s) (Tg_ s) (Uk_ s) (Up_ s)
    (Utot_ s) (V_ s) v (r_ s) (r_dev_ s) (r1_ s) (r1_dev_ s).
Definition set_r (v : list Vector4) (s : MD) : MD :=
  mkMD (lat_ s) (Nc_ s) (F_ s) (F_dev_ s) (MD_iter_ s) (NumAtom_ s)
    (periodiclen_ s) (scale_ s) (t_ s) (Tc_ s) (Tg_ s) (Uk_ s) (Up_ s)
    (Utot_ s) (V_ s) (V_dev_ s) v (r_dev_ s) (r1_ s) (r1_dev_ s).
Definition set_r_dev (v : list Vector4) (s : MD) : MD :=
  mkMD (lat_ s) (Nc_ s) (F_ s) (F_dev_ s) (MD_iter_ s) (NumAtom_ s)
    (periodiclen_ s) (scale_ s) (t_ s) (Tc_ s) (Tg_ s) (Uk_ s) (Up_ s)
    (Utot_ s) (V_ s) (V_dev_ s) (r_ s) v (r1_ s) (r1_dev_ s).
Definition set_r1 (v : list Vector4) (s : MD) : MD :=
  mkMD (lat_ s) (Nc_ s) (F_ s) (F_dev_ s) (MD_iter_ s) (NumAtom_ s)
    (periodiclen_ s) (scale_ s) (t_ s) (Tc_ s) (Tg_ s) (Uk_ s) (Up_ s)
    (Utot_ s) (V_ s) (V_dev_ s) (r_ s) (r_dev_ s) v (r1_dev_ s).
Definition set_r1_dev (v : list Vector4) (s : MD) : MD :=
  mkMD (lat_ s) (Nc_ s) (F_ s) (F_dev_ s) (MD_iter_ s) (NumAtom_ s)
    (periodiclen_ s) (scale_ s) (t_ s) (Tc_ s) (Tg_ s) (Uk_ s) (Up_ s)
    (Utot_ s) (V_ s) (V_dev_ s) (r_ s) (r_dev_ s) (r1_ s) v.

(** ** The run time

    What the OpenCL queue and the TBB scheduler decide in one call: the
    order of the work-items of each kernel launch, the order of the
    iterations of each [parallel_for], and the worker thread that executes
    iteration [n] of the potential-energy loop. *)

Record runtime : Type := mkRuntime {
  order_init_force : schedule;
  order_force : schedule;
  order_energy : schedule;
  order_move : schedule;
  order_wrap : schedule;
  worker_of : nat -> nat;
  workers : nat
}.

Definition fair_runtime (rt : runtime) : Prop :=
  fair (order_init_force rt) /\ fair (order_force rt) /\
  fair (order_energy rt) /\ fair (order_move rt) /\ fair (order_wrap rt) /\
  forall n, (worker_of rt n < workers rt)%nat.

Definition sequential : runtime :=
  mkRuntime in_order in_order in_order in_order in_order (fun _ => O) 1.

(** ** Calc_Forces *)

Definition upload_F (s : MD) : MD := set_F_dev (copy (F_ s) (F_dev_ s)) s.
Definition upload_r (s : MD) : MD := set_r_dev (copy (r_ s) (r_dev_ s)) s.
Definition upload_r1 (s : MD) : MD := set_r1_dev (copy (r1_ s) (r1_dev_ s)) s.
Definition upload_V (s : MD) : MD := set_V_dev (copy (V_ s) (V_dev_ s)) s.
Definition download_F (s : MD) : MD := set_F (copy (F_dev_ s) (F_ s)) s.
Definition download_r (s : MD) : MD := set_r (copy (r_dev_ s) (r_ s)) s.
Definition download_r1 (s : MD) : MD := set_r1 (copy (r1_dev_ s) (r1_ s)) s.
Definition download_V (s : MD) : MD := set_V (copy (V_dev_ s) (V_ s)) s.

(** [kernel_initForce_], bound to [F_dev_]. *)
Definition run_init_force (rt : runtime) (s : MD) : MD :=
  set_F_dev
    (enqueue_1d_range_kernel (order_init_force rt) init_force (NumAtom_ s)
       (F_dev_ s)) s.

(** [kernel_force_], bound to [F_dev_, r_dev_, ncp_, NumAtom_,
    periodiclen_, rc2_]. *)
Definition run_force (rt : runtime) (s : MD) : MD :=
  set_F_dev
    (enqueue_1d_range_kernel (order_force rt)
       (force (r_dev_ s) ncp_ (NumAtom_ s) (periodiclen_ s) rc2_)
       (NumAtom_ s) (F_dev_ s)) s.

(** The term added to [Up.local()] for a pair at squared distance [r2],
    with the same proviso for [r2 = 0] as [Fr_of]. *)
Definition pair_energy (r2 : R) : R :=
  let r := sqrt r2 in
  let rm6 := 1.0 / (r2 * r2 * r2) in
  let rm7 := rm6 / r in
  let rm12 := rm6 * rm6 in
  let rm13 := rm12 / r in
  let Fr := 48.0 * rm13 - 24.0 * rm7 in
  0.5 * (4.0 * (rm12 - rm6) - Vrc_).

(** [r2] of the host loop, from the three used components. *)
Definition host_r2 (r : list Vector4) (periodiclen : R)
    (n m : nat) (i j k : Z) : R :=
  let sx := IZR i * periodiclen in
  let sy := IZR j * periodiclen in
  let sz := IZR k * periodiclen in
  let dx := data (r !!! n) 0 - (data (r !!! m) 0 + sx) in
  let dy := data (r !!! n) 1 - (data (r !!! m) 1 + sy) in
  let dz := data (r !!! n) 2 - (data (r !!! m) 2 + sz) in
  norm2 dx dy dz.

(** The body of the [parallel_for] of [Calc_Forces] for the index [n],
    executed by the worker thread [tid]; the three assignments to [F_[n]]
    are commented out in the source. *)
Definition energy_body (r : list Vector4) (numatom : nat) (periodiclen : R)
    (tid : nat -> nat) (n : nat) (Up : combinable) : combinable :=
  for_loop (seq 0 numatom) (fun m Up =>
    for_loop (zrange (- ncp_) ncp_) (fun i Up =>
      for_loop (zrange (- ncp_) ncp_) (fun j Up =>
        for_loop (zrange (- ncp_) ncp_) (fun k Up =>
          if not_self n m i j k then
            let r2 := host_r2 r periodiclen n m i j k in
            if Rle_dec r2 rc2_ then
              local_add (tid n) (pair_energy r2) Up
            else Up
          else Up) Up) Up) Up) Up.

(** The host part of [Calc_Forces]: [Up_ = 0.0], the [parallel_for] over
    the atoms and [Up_ = Up.combine(std::plus<T>())]. *)
Definition host_energy (rt : runtime) (s : MD) : MD :=
  let s := set_Up 0.0 s in
  let Up :=
    parallel_for (order_energy rt) 0 (NumAtom_ s)
      (energy_body (r_ s) (NumAtom_ s) (periodiclen_ s) (worker_of rt))
      (combinable_new (workers rt)) in
  set_Up (combine_plus Up) s.

Definition Calc_Forces (rt : runtime) (s : MD) : MD :=
  let s := upload_F s in
  let s := upload_r s in
  let s := run_init_force rt s in
  let s := run_force rt s in
  let s := host_energy rt s in
  download_F s.

(** ** Move_Atoms *)

(** [Uk_], [Utot_] and [Tc_] from the velocities of the call's entry. *)
Definition kinetic (s : MD) : MD :=
  let Uk := 0.0 in
  let Uk :=
    for_loop (seq 0 (NumAtom_ s)) (fun n Uk =>
      Uk + norm2 (data (V_ s !!! n) 0) (data (V_ s !!! n) 1)
                 (data (V_ s !!! n) 2)) Uk in
  let Uk := Uk * 0.5 in
  let s := set_Uk Uk s in
  let s := set_Utot (Uk_ s + Up_ s) s in
  set_Tc (Uk_ s / (1.5 * INR (NumAtom_ s))) s.

(** The scale factor [s] of the first step.  For [Tc = 0] the code
    divides by zero; the theorems about the first step assume [0 < Tc]. *)
Definition woodcock (Tg Tc : R) : R := sqrt ((Tg + ALPHA * (Tc - Tg)) / Tc).

(** [switch (MD_iter_)]: [case 1] launches [move_atoms1], [default]
    launches [move_atoms]. *)
Definition advance (rt : runtime) (s : MD) : MD :=
  let '(r, r1, V) :=
    if (MD_iter_ s =? 1)%Z then
      let sc := woodcock (Tg_ s) (Tc_ s) in
      enqueue_1d_range_kernel (order_move rt)
        (move_atoms1 (F_dev_ s) DT sc) (NumAtom_ s)
        (r_dev_ s, r1_dev_ s, V_dev_ s)
    else
      enqueue_1d_range_kernel (order_move rt)
        (move_atoms (F_dev_ s) DT) (NumAtom_ s)
        (r_dev_ s, r1_dev_ s, V_dev_ s) in
  set_V_dev V (set_r1_dev r1 (set_r_dev r s)).

(** One component of the periodic boundary treatment of atom [n]. *)
Definition wrap_axis (periodiclen : R) (n i : nat)
    (b : list Vector4 * list Vector4) : list Vector4 * list Vector4 :=
  let '(r, r1) := b in
  if Rgt_dec (data (r !!! n) i) periodiclen then
    let r := <[n := set_data (r !!! n) i (data (r !!! n) i - periodiclen)]> r in
    let r1 :=
      <[n := set_data (r1 !!! n) i (data (r1 !!! n) i - periodiclen)]> r1 in
    (r, r1)
  else if Rlt_dec (data (r !!! n) i) 0.0 then
    let r := <[n := set_data (r !!! n) i (data (r !!! n) i + periodiclen)]> r in
    let r1 :=
      <[n := set_data (r1 !!! n) i (data (r1 !!! n) i + periodiclen)]> r1 in
    (r, r1)
  else (r, r1).

Definition wrap_body (periodiclen : R) (n : nat)
    (b : list Vector4 * list Vector4) : list Vector4 * list Vector4 :=
  for_loop (seq 0 3) (wrap_axis periodiclen n) b.

Definition wrap (rt : runtime) (s : MD) : MD :=
  let '(r, r1) :=
    parallel_for (order_wrap rt) 0 (NumAtom_ s)
      (wrap_body (periodiclen_ s)) (r_ s, r1_ s) in
  set_r1 r1 (set_r r s).

(** The value held by a [std::int32_t] after an arithmetic result [z]: the
    representative of [z] in [-2^31, 2^31).  The overflow of a signed
    integer is undefined in C++: the theorems about the counter assume that
    it does not overflow and never use the value after the wrap-around. *)
Definition int32_wrap (z : Z) : Z :=
  ((z + 2147483648) mod 4294967296 - 2147483648)%Z.

(** [t_ = static_cast<T>(MD_iter_) * DT; MD_iter_++;] *)
Definition tick (s : MD) : MD :=
  let s := set_t (IZR (MD_iter_ s) * DT) s in
  set_MD_iter (int32_wrap (MD_iter_ s + 1)) s.

Definition Move_Atoms (rt : runtime) (s : MD) : MD :=
  let s := upload_F s in
  let s := upload_r s in
  let s := upload_r1 s in
  let s := upload_V s in
  let s := kinetic s in
  let s := advance rt s in
  let s := download_r s in
  let s := download_r1 s in
  let s := download_V s in
  let s := wrap rt s in
  tick s.

(** ** MD_initPos *)

(** [r[n].data[0] = x; r[n].data[1] = y; r[n].data[2] = z;] *)
Definition assign3 (n : nat) (x y z : R) (r : list Vector4) : list Vector4 :=
  <[n := set_data (set_data (set_data (r !!! n) 0 x) 1 y) 2 z]> r.

(** The body of the innermost loop: the four atoms of the unit cell
    [(i, j, k)], written at [n], [n+1], [n+2], [n+3]. *)
Definition place_cell (lat : R) (i j k : nat)
    (b : list Vector4 * nat) : list Vector4 * nat :=
  let '(r, n) := b in
  let sx := INR i * lat in
  let sy := INR j * lat in
  let sz := INR k * lat in
  let r := assign3 n sx sy sz r in
  let n := S n in
  let r := assign3 n (0.5 * lat + sx) (0.5 * lat + sy) sz r in
  let n := S n in
  let r := assign3 n sx (0.5 * lat + sy) (0.5 * lat + sz) r in
  let n := S n in
  let r := assign3 n (0.5 * lat + sx) sy (0.5 * lat + sz) r in
  let n := S n in
  (r, n).

(** The loop [sx += a[n].data[0]; sy += a[n].data[1]; sz += a[n].data[2]]. *)
Definition sum3 (numatom : nat) (a : list Vector4) : R * R * R :=
  for_loop (seq 0 numatom) (fun n '(sx, sy, sz) =>
    (sx + data (a !!! n) 0, sy + data (a !!! n) 1, sz + data (a !!! n) 2))
    (0.0, 0.0, 0.0).

(** The loop [a[n].data[0] -= sx; a[n].data[1] -= sy; a[n].data[2] -= sz]. *)
Definition shift3 (numatom : nat) (sx sy sz : R) (a : list Vector4)
    : list Vector4 :=
  for_loop (seq 0 numatom) (fun n a =>
    assign3 n (data (a !!! n) 0 - sx) (data (a !!! n) 1 - sy)
      (data (a !!! n) 2 - sz) a) a.

Definition MD_initPos (s : MD) : MD :=
  let '(r, n) :=
    for_loop (seq 0 (Nc_ s)) (fun i =>
      for_loop (seq 0 (Nc_ s)) (fun j =>
        for_loop (seq 0 (Nc_ s)) (fun k => place_cell (lat_ s) i j k)))
      (r_ s, O) in
  let s := set_r r s in
  let s := set_NumAtom n s in
  let '(sx, sy, sz) := sum3 (NumAtom_ s) (r_ s) in
  let sx := sx / INR (NumAtom_ s) in
  let sy := sy / INR (NumAtom_ s) in
  let sz := sz / INR (NumAtom_ s) in
  set_r (shift3 (NumAtom_ s) sx sy sz (r_ s)) s.

(** ** MD_initVel *)

(** Modelled from the spec: myrand.h is not part of the sources;
    [myrandom::MyRand mr(-1.0, 1.0)] is the capability "produce a uniform
    random scalar in [-1,1]".  The source is the sequence of the scalars it
    will produce and the number of scalars drawn so far. *)
Record MyRand : Type := mkRand { samples : nat -> R; drawn : nat }.

Definition myrand (mr : MyRand) : R * MyRand :=
  (samples mr (drawn mr), mkRand (samples mr) (S (drawn mr))).

(** The lambda [generator4].  When the three scalars drawn are all zero
    the code divides by zero; the theorems about the velocities assume
    that no atom draws three zeros. *)
Definition generator4 (v : R) (mr : MyRand) : Vector4 * MyRand :=
  let '(rndX, mr) := myrand mr in
  let '(rndY, mr) := myrand mr in
  let '(rndZ, mr) := myrand mr in
  let tmp := 1.0 / sqrt (norm2 rndX rndY rndZ) in
  let rndX := rndX * tmp in
  let rndY := rndY * tmp in
  let rndZ := rndZ * tmp in
  (Vector4_xyz (v * rndX) (v * rndY) (v * rndZ), mr).

(** [boost::generate(range, gen)]: every element of the range, in order,
    is assigned the next value of [gen]. *)
Fixpoint generate {A G : Type} (range : list A) (gen : G -> A * G) (g : G)
    : list A * G :=
  match range with
  | [] => ([], g)
  | _ :: rest =>
      let '(a, g) := gen g in
      let '(rest, g) := generate rest gen g in
      (a :: rest, g)
  end.

Definition MD_initVel (mr : MyRand) (s : MD) : MD :=
  let v := sqrt (3.0 * Tg_ s) in
  let '(V, mr) := generate (V_ s) (generator4 v) mr in
  let s := set_V V s in
  let '(sx, sy, sz) := sum3 (NumAtom_ s) (V_ s) in
  let sx := sx / INR (NumAtom_ s) in
  let sy := sy / INR (NumAtom_ s) in
  let sz := sz / INR (NumAtom_ s) in
  set_V (shift3 (NumAtom_ s) sx sy sz (V_ s)) s.

(** ** The constructor *)

(** What the constructor does not initialise: the contents of the device
    buffers and the four diagnostics. *)
Record Uninitialised : Type := mkUninit {
  dev_junk : nat -> Vector4;
  Tc_junk : R;
  Uk_junk : R;
  Up_junk : R;
  Utot_junk : R
}.

Definition device_vector (u : Uninitialised) (size : nat) : list Vector4 :=
  map (dev_junk u) (seq 0 size).

(** [std::vector<Vector4<T>>(size)] *)
Definition host_vector (size : nat) : list Vector4 :=
  replicate size (Vector4_xyz 0 0 0).

(** The constructor for [Nc_ = nc] and [scale_ = scale], up to the call of
    [MD_initPos]: the member initialisers and the assignments to [lat_],
    [t_] and [MD_iter_]. *)
Definition members_initialised (nc : nat) (scale : R) (u : Uninitialised)
    : MD :=
  let size := (nc * nc * nc * 4)%nat in
  let s :=
    mkMD 0 nc (host_vector size) (device_vector u size) 0 0 0 scale 0
      (Tc_junk u) (FIRSTTEMP * KB / YPSILON) (Uk_junk u) (Up_junk u)
      (Utot_junk u) (host_vector size) (device_vector u size)
      (host_vector size) (device_vector u size) (host_vector size)
      (device_vector u size) in
  let s := set_lat (Rpower 2.0 (2.0 / 3.0) * scale_ s) s in
  let s := set_t 0.0 s in
  set_MD_iter 1 s.

(** The constructor; the kernels it compiles are the definitions above. *)
Definition construct (nc : nat) (scale : R) (u : Uninitialised) (mr : MyRand)
    : MD :=
  let s := members_initialised nc scale u in
  let s := MD_initPos s in
  let s := MD_initVel mr s in
  set_periodiclen (lat_ s * INR (Nc_ s)) s.

(** [Nc_ = FIRSTNC], [scale_ = FIRSTSCALE]. *)
Definition Ar_moleculardynamics : Uninitialised -> MyRand -> MD :=
  construct FIRSTNC FIRSTSCALE.

(** A run: the calls made on the object after its construction. *)
Inductive call : Type := CalcForces | MoveAtoms.

Definition do_call (rt : runtime) (c : call) (s : MD) : MD :=
  match c with
  | CalcForces => Calc_Forces rt s
  | MoveAtoms => Move_Atoms rt s
  end.

Definition run (rt : runtime) (calls : list call) (s : MD) : MD :=
  for_loop calls (do_call rt) s.

(** ** The pairs visited by the force and energy loops *)

(** The image offsets [(i, j, k)], in the order of the three inner loops. *)
Definition cube (ncp : Z) : list (Z * Z * Z) :=
  flat_map (fun i =>
    flat_map (fun j =>
      map (fun k => (i, j, k)) (zrange (- ncp) ncp))
      (zrange (- ncp) ncp))
    (zrange (- ncp) ncp).

(** The pairs [(m, (i, j, k))], in the order of the four loops. *)
Definition images (numatom : nat) (ncp : Z) : list (nat * (Z * Z * Z)) :=
  flat_map (fun m => map (pair m) (cube ncp)) (seq 0 numatom).

Definition in_cutoff (r2 rc2 : R) : bool :=
  if Rle_dec r2 rc2 then true else false.

(** The pairs of atom [n] that pass both tests of the force kernel. *)
Definition force_pairs (r : list Vector4) (ncp : Z) (numatom : nat)
    (periodiclen rc2 : R) (n : nat) : list (nat * (Z * Z * Z)) :=
  List.filter (fun '(m, (i, j, k)) =>
    not_self n m i j k &&
    in_cutoff (dist2 (displacement r periodiclen n m i j k)) rc2)
    (images numatom ncp).

(** The sum, from zero, of the vectors of a list, in the order of the list. *)
Definition vsum (l : list Vector4) : Vector4 := fold_left vadd l (splat 0.0).

Definition net_force (r : list Vector4) (ncp : Z) (numatom : nat)
    (periodiclen rc2 : R) (n : nat) : Vector4 :=
  vsum (map (fun '(m, (i, j, k)) =>
              pair_force (displacement r periodiclen n m i j k))
         (force_pairs r ncp numatom periodiclen rc2 n)).

(** The four per-atom arrays of the host and their four mirrors have the
    length [NumAtom_]. *)
Definition sized (s : MD) : Prop :=
  length (F_ s) = NumAtom_ s /\ length (V_ s) = NumAtom_ s /\
  length (r_ s) = NumAtom_ s /\ length (r1_ s) = NumAtom_ s /\
  length (F_dev_ s) = NumAtom_ s /\ length (V_dev_ s) = NumAtom_ s /\
  length (r_dev_ s) = NumAtom_ s /\ length (r1_dev_ s) = NumAtom_ s.

(** One iteration of the innermost loop of the force kernel. *)
Definition force_step (r : list Vector4) (periodiclen rc2 : R) (n : nat)
    (p : nat * (Z * Z * Z)) (f : list Vector4) : list Vector4 :=
  let '(m, (i, j, k)) := p in
  if not_self n m i j k then
    let d := displacement r periodiclen n m i j k in
    if Rle_dec (dist2 d) rc2 then <[n := (f !!! n + pair_force d)%v4]> f
    else f
  else f.

(** A state of four atoms ([Nc_ = 1]) whose host arrays and device mirrors
    agree, for the examples. *)
Definition four_atoms (r r1 V F : list Vector4) (iter : Z) (L Up : R) : MD :=
  mkMD L 1 F F iter 4 L 1.0 0 0 (FIRSTTEMP * KB / YPSILON) 0 Up 0
    V V r r r1 r1.

Definition at_rest : list Vector4 := replicate 4 (splat 0).

(** ** What the integrator does to one atom *)

(** The position, prior position and velocity of one atom after
    [move_atoms], from its force [fn] and its position [r], prior position
    [r1] and velocity before the kernel. *)
Definition verlet_atom (deltat : R) (fn : Vector4)
    (a : Vector4 * Vector4 * Vector4) : Vector4 * Vector4 * Vector4 :=
  let '(r, r1, V) := a in
  let new_r :=
    (splat 2.0 * r - r1 + fn * (splat deltat * splat deltat))%v4 in
  let new_V := (splat 0.5 * (new_r - r1) / splat deltat)%v4 in
  (new_r, r, new_V).

(** The same after [move_atoms1] with the scale factor [sc]. *)
Definition euler_atom (deltat sc : R) (fn : Vector4)
    (a : Vector4 * Vector4 * Vector4) : Vector4 * Vector4 * Vector4 :=
  let '(r, r1, V) := a in
  let scaled := (V * splat sc)%v4 in
  let new_r :=
    (r + (splat deltat * scaled
          + splat 0.5 * fn * (splat deltat * splat deltat)))%v4 in
  let new_V := (scaled + splat deltat * fn)%v4 in
  (new_r, r, new_V).

(** The periodic boundary treatment of one component [x] of a position
    and of the same component [p] of the prior position. *)
Definition wrap_scalar (periodiclen x p : R) : R * R :=
  if Rgt_dec x periodiclen then (x - periodiclen, p - periodiclen)
  else if Rlt_dec x 0.0 then (x + periodiclen, p + periodiclen)
  else (x, p).

Definition wrap_atom_axis (periodiclen : R) (i : nat)
    (a : Vector4 * Vector4) : Vector4 * Vector4 :=
  let '(r, r1) := a in
  let '(x, p) := wrap_scalar periodiclen (data r i) (data r1 i) in
  (set_data r i x, set_data r1 i p).

Definition wrap_atom (periodiclen : R) (a : Vector4 * Vector4)
    : Vector4 * Vector4 :=
  for_loop (seq 0 3) (wrap_atom_axis periodiclen) a.

(** [Move_Atoms] up to the copies back to the host, before the periodic
    boundary treatment. *)
Definition before_wrap (rt : runtime) (s : MD) : MD :=
  let s := upload_F s in
  let s := upload_r s in
  let s := upload_r1 s in
  let s := upload_V s in
  let s := kinetic s in
  let s := advance rt s in
  let s := download_r s in
  let s := download_r1 s in
  download_V s.

(** The sum of the reals of a list. *)
Definition Rsum (l : list R) : R := fold_right Rplus 0 l.

(** [|V[n]|^2] from the three used components. *)
Definition speed2 (v : Vector4) : R := norm2 (data v 0) (data v 1) (data v 2).

(** The kinetic energy [0.5 * sum |V[n]|^2] of the first [numatom] atoms. *)
Definition kinetic_energy (numatom : nat) (V : list Vector4) : R :=
  0.5 * Rsum (map (fun n => speed2 (V !!! n)) (seq 0 numatom)).

(** The entries of atom [n] in the three buffers of the integrator
    kernels, and buffers of [N] atoms. *)
Definition slot3 (n : nat) (b : rr1V) : Vector4 * Vector4 * Vector4 :=
  let '(r, r1, V) := b in (r !!! n, r1 !!! n, V !!! n).

Definition sized3 (N : nat) (b : rr1V) : Prop :=
  let '(r, r1, V) := b in length r = N /\ length r1 = N /\ length V = N.

(** The entries of atom [n] in the two arrays of the periodic boundary
    treatment. *)
Definition slot2 (n : nat) (b : list Vector4 * list Vector4)
    : Vector4 * Vector4 :=
  let '(r, r1) := b in (r !!! n, r1 !!! n).

Definition sized2 (N : nat) (b : list Vector4 * list Vector4) : Prop :=
  let '(r, r1) := b in length r = N /\ length r1 = N.

(** The four positions of one face-centred cubic cell of edge 4 and the
    same with the second atom two units back along x. *)
Definition fcc4 : list Vector4 :=
  [mkV4 0 0 0 0; mkV4 2 2 0 0; mkV4 0 2 2 0; mkV4 2 0 2 0].
Definition fcc4_prior : list Vector4 :=
  [mkV4 0 0 0 0; mkV4 0 2 0 0; mkV4 0 2 2 0; mkV4 2 0 2 0].

(** The first atom moving along x, the others at rest. *)
Definition one_moving : list Vector4 :=
  [mkV4 1 0 0 0; splat 0; splat 0; splat 0].

(** ** The potential energy as a sum over pairs *)

(** One iteration of the innermost loop of the energy loop of atom [n],
    run by the worker thread [tid]. *)
Definition energy_step (r : list Vector4) (periodiclen : R) (tid n : nat)
    (p : nat * (Z * Z * Z)) (Up : combinable) : combinable :=
  let '(m, (i, j, k)) := p in
  if not_self n m i j k then
    let r2 := host_r2 r periodiclen n m i j k in
    if Rle_dec r2 rc2_ then local_add tid (pair_energy r2) Up else Up
  else Up.

(** What the iteration [n] of the energy loop adds in total. *)
Definition atom_energy (r : list Vector4) (numatom : nat) (periodiclen : R)
    (n : nat) : R :=
  Rsum (map (fun '(m, (i, j, k)) =>
              pair_energy (dist2 (displacement r periodiclen n m i j k)))
         (force_pairs r ncp_ numatom periodiclen rc2_ n)).

(** An atom [n] of the box together with the image [(i, j, k)] of an atom
    [m]: the ordered pairs visited by the loops over [n], [m], [i], [j]
    and [k]. *)
Abbreviation opair := (nat * (nat * (Z * Z * Z)))%type (only parsing).

Definition all_pairs (numatom : nat) (ncp : Z) : list opair :=
  flat_map (fun n => map (pair n) (images numatom ncp)) (seq 0 numatom).

Definition pair_r2 (r : list Vector4) (periodiclen : R) (p : opair) : R :=
  let '(n, (m, (i, j, k))) := p in
  dist2 (displacement r periodiclen n m i j k).

(** The pair that passes both tests of the loops. *)
Definition interacting (r : list Vector4) (periodiclen rc2 : R) (p : opair)
    : bool :=
  let '(n, (m, (i, j, k))) := p in
  not_self n m i j k && in_cutoff (pair_r2 r periodiclen p) rc2.

(** The same two atoms seen from the other one: [m] in the box and the
    image [(-i, -j, -k)] of [n]. *)
Definition mirror (p : opair) : opair :=
  let '(n, (m, (i, j, k))) := p in (m, (n, ((- i)%Z, (- j)%Z, (- k)%Z))).

(** [(i, j, k)] is after [(0, 0, 0)] in the lexicographic order. *)
Definition lex_pos (i j k : Z) : bool :=
  (0 <? i)%Z || ((i =? 0)%Z && ((0 <? j)%Z || ((j =? 0)%Z && (0 <? k)%Z))).

(** One representative of [p] and [mirror p]. *)
Definition representative (p : opair) : bool :=
  let '(n, (m, (i, j, k))) := p in
  (n <? m)%nat || ((n =? m)%nat && lex_pos i j k).

(** The unordered pairs within the cutoff, each by its representative. *)
Definition unordered_pairs (r : list Vector4) (numatom : nat)
    (periodiclen : R) : list opair :=
  List.filter (fun p => representative p && interacting r periodiclen rc2_ p)
    (all_pairs numatom ncp_).

(** The shifted pair potential [4 (r^-12 - r^-6) - Vrc] as the loop
    computes it from [r2]. *)
Definition pair_potential (r2 : R) : R :=
  let rm6 := 1.0 / (r2 * r2 * r2) in
  let rm12 := rm6 * rm6 in
  4.0 * (rm12 - rm6) - Vrc_.

(** The accumulators of the workers after the energy loop of
    [Calc_Forces], before they are combined. *)
Definition energy_accumulators (rt : runtime) (s : MD) : combinable :=
  parallel_for (order_energy rt) 0 (NumAtom_ s)
    (energy_body (r_ s) (NumAtom_ s) (periodiclen_ s) (worker_of rt))
    (combinable_new (workers rt)).

(** ** The CPU force accumulation of the specification

    [Calc_Forces] keeps, commented out, the host loop that sets
    [F_[n].data[0..2]] to zero and the three assignments
    [F_[n].data[c] += d_c / r * Fr] of the energy loop.  The definitions
    below follow the specification's wording of that CPU backend ("parallel
    reduction over atom index n; inner loops over m and images are
    sequential", "forces must be zero-initialized before accumulation"),
    to be compared with the device kernel. *)

Definition spec_cpu_accumulate (r : list Vector4) (periodiclen : R)
    (n : nat) (p : nat * (Z * Z * Z)) (acc : Vector4) : Vector4 :=
  let '(m, (i, j, k)) := p in
  let sx := IZR i * periodiclen in
  let sy := IZR j * periodiclen in
  let sz := IZR k * periodiclen in
  let dx := data (r !!! n) 0 - (data (r !!! m) 0 + sx) in
  let dy := data (r !!! n) 1 - (data (r !!! m) 1 + sy) in
  let dz := data (r !!! n) 2 - (data (r !!! m) 2 + sz) in
  let r2 := norm2 dx dy dz in
  let rr := sqrt r2 in
  let Fr := Fr_of r2 in
  set_data
    (set_data (set_data acc 0 (data acc 0 + dx / rr * Fr))
       1 (data acc 1 + dy / rr * Fr))
    2 (data acc 2 + dz / rr * Fr).

Definition spec_cpu_force_step (r : list Vector4) (periodiclen : R)
    (n : nat) (p : nat * (Z * Z * Z)) (F : list Vector4) : list Vector4 :=
  let '(m, (i, j, k)) := p in
  if not_self n m i j k then
    if Rle_dec (host_r2 r periodiclen n m i j k) rc2_ then
      <[n := spec_cpu_accumulate r periodiclen n p (F !!! n)]> F
    else F
  else F.

Definition spec_cpu_force_body (r : list Vector4) (numatom : nat)
    (periodiclen : R) (n : nat) (F : list Vector4) : list Vector4 :=
  for_loop (seq 0 numatom) (fun m =>
    for_loop (zrange (- ncp_) ncp_) (fun i =>
      for_loop (zrange (- ncp_) ncp_) (fun j =>
        for_loop (zrange (- ncp_) ncp_) (fun k =>
          spec_cpu_force_step r periodiclen n (m, (i, j, k)))))) F.

Definition spec_cpu_forces (sigma : schedule) (s : MD) : list Vector4 :=
  let F :=
    for_loop (seq 0 (NumAtom_ s)) (fun n F => assign3 n 0.0 0.0 0.0 F)
      (F_ s) in
  parallel_for sigma 0 (NumAtom_ s)
    (spec_cpu_force_body (r_ s) (NumAtom_ s) (periodiclen_ s)) F.

(** Four atoms in a box of edge 100: the second one at distance 1 from the
    first, the others far from both. *)
Definition apart : list Vector4 :=
  [mkV4 0 0 0 0; mkV4 1 0 0 0; mkV4 0 50 0 0; mkV4 0 0 50 0].

(** ** The face-centred cubic lattice *)

(** The four sites written for the unit cell [(i, j, k)], in the order of
    the four assignments. *)
Definition fcc_cell (lat : R) (i j k : nat) : list (R * R * R) :=
  let sx := INR i * lat in
  let sy := INR j * lat in
  let sz := INR k * lat in
  [ (sx, sy, sz);
    (0.5 * lat + sx, 0.5 * lat + sy, sz);
    (sx, 0.5 * lat + sy, 0.5 * lat + sz);
    (0.5 * lat + sx, sy, 0.5 * lat + sz) ].

(** The sites of all the cells, in the order of the three loops. *)
Definition fcc_lattice (lat : R) (Nc : nat) : list (R * R * R) :=
  flat_map (fun i =>
    flat_map (fun j =>
      flat_map (fun k => fcc_cell lat i j k) (seq 0 Nc)) (seq 0 Nc))
    (seq 0 Nc).

(** The offsets of the four atoms of a cell, in units of the lattice
    constant. *)
Definition fcc_basis : list (R * R * R) :=
  [ (0, 0, 0); (1 / 2, 1 / 2, 0); (0, 1 / 2, 1 / 2); (1 / 2, 0, 1 / 2) ].

Definition coord (c : nat) (p : R * R * R) : R :=
  match c with
  | O => fst (fst p)
  | 1%nat => snd (fst p)
  | _ => snd p
  end.

(** [r[n] = site; n++] *)
Definition write_site (p : R * R * R) (b : list Vector4 * nat)
    : list Vector4 * nat :=
  let '(r, n) := b in
  (assign3 n (coord 0 p) (coord 1 p) (coord 2 p) r, S n).

(** The sum of the component [c] of the first [numatom] entries. *)
Definition total (c numatom : nat) (a : list Vector4) : R :=
  Rsum (map (fun n => data (a !!! n) c) (seq 0 numatom)).

(** ** The random directions *)

(** The three scalars drawn for atom [n]. *)
Definition draw (mr : MyRand) (n : nat) : R * R * R :=
  (samples mr (drawn mr + 3 * n), samples mr (drawn mr + 3 * n + 1),
   samples mr (drawn mr + 3 * n + 2))%nat.

(** The velocities before the correction of the centre of mass. *)
Definition drawn_velocities (mr : MyRand) (s : MD) : list Vector4 :=
  fst (generate (V_ s) (generator4 (sqrt (3.0 * Tg_ s))) mr).

(** The velocity that [generator4] builds from the three scalars [p]. *)
Definition direction_velocity (v : R) (p : R * R * R) : Vector4 :=
  let tmp := 1.0 / sqrt (norm2 (coord 0 p) (coord 1 p) (coord 2 p)) in
  Vector4_xyz (v * (coord 0 p * tmp)) (v * (coord 1 p * tmp))
    (v * (coord 2 p * tmp)).

(** ** Quantities followed along a run *)

(** The displacement [d] of the pair [p], as the loops compute it. *)
Definition pair_displacement (r : list Vector4) (periodiclen : R) (p : opair)
    : Vector4 :=
  let '(n, (m, (i, j, k))) := p in displacement r periodiclen n m i j k.

(** The sum over the atoms of the component [c] of [r_[n] - r1_[n]], the
    displacement of the last step. *)
Definition drift (c : nat) (s : MD) : R :=
  total c (NumAtom_ s) (r_ s) - total c (NumAtom_ s) (r1_ s).

(** The number of calls of [Move_Atoms] in a run. *)
Definition moves (calls : list call) : nat :=
  length (List.filter (fun c => match c with MoveAtoms => true | _ => false end)
            calls).

(** The buffers [r] and [r1] exchanged: the trajectory read backwards. *)
Definition time_reversed (b : rr1V) : rr1V :=
  let '(r, r1, V) := b in (r1, r, V).

(** A run time that executes every range from its last index to its first
    and alternates between two worker threads. *)
Definition backwards : runtime :=
  mkRuntime (@rev nat) (@rev nat) (@rev nat) (@rev nat) (@rev nat)
    (fun n => n mod 2)%nat 2.

(** What every state of a run from the constructor satisfies, for the
    component [c]: the forces and the velocities add up to zero, and so do
    the displacements of the last step once the first step is over. *)
Definition balanced (c : nat) (s : MD) : Prop :=
  sized s /\
  total c (NumAtom_ s) (F_ s) = 0 /\
  total c (NumAtom_ s) (V_ s) = 0 /\
  (MD_iter_ s <> 1%Z -> drift c s = 0).

(** The positions [r] all moved by the same vector [t]. *)
Definition translate (t : Vector4) (r : list Vector4) : list Vector4 :=
  map (fun v => (v + t)%v4) r.


(** ** Where the divisions of the code are defined *)

(** No atom coincides with another atom or with an image visited by the
    loops: for every pair that passes the first test of the loops, the
    squared distance, written out in components, is positive.  The force
    kernel and the energy loop divide by it. *)
Definition no_coincidence (r : list Vector4) (numatom : nat)
    (periodiclen : R) : Prop :=
  forall n m i j k,
    (n < numatom)%nat -> (m < numatom)%nat ->
    (-3 <= i <= 3)%Z -> (-3 <= j <= 3)%Z -> (-3 <= k <= 3)%Z ->
    ~ (n = m /\ i = 0%Z /\ j = 0%Z /\ k = 0%Z) ->
    0 < (data (r !!! n) 0 - (data (r !!! m) 0 + IZR i * periodiclen))
        * (data (r !!! n) 0 - (data (r !!! m) 0 + IZR i * periodiclen))
      + (data (r !!! n) 1 - (data (r !!! m) 1 + IZR j * periodiclen))
        * (data (r !!! n) 1 - (data (r !!! m) 1 + IZR j * periodiclen))
      + (data (r !!! n) 2 - (data (r !!! m) 2 + IZR k * periodiclen))
        * (data (r !!! n) 2 - (data (r !!! m) 2 + IZR k * periodiclen)).

(** The divisors of one call are not zero: [Calc_Forces] divides by the
    distances of the pairs, [Move_Atoms] by the number of atoms and, when
    the step counter is 1, by the temperature of the entry. *)
Definition call_defined (c : call) (s : MD) : Prop :=
  match c with
  | CalcForces => no_coincidence (r_ s) (NumAtom_ s) (periodiclen_ s)
  | MoveAtoms =>
      (0 < NumAtom_ s)%nat /\
      (MD_iter_ s = 1%Z -> 0 < kinetic_energy (NumAtom_ s) (V_ s))
  end.

(** The same for every call of a run, each in the state it is made in. *)
Fixpoint run_defined (rt : runtime) (calls : list call) (s : MD) : Prop :=
  match calls with
  | [] => True
  | c :: rest => call_defined c s /\ run_defined rt rest (do_call rt c s)
  end.

(** A random source that returns 1, 0, 0, 0, 1, 0, 0, 0, 1, 1, 0, 0 and
    then zeros: the first three atoms draw the three axes, the fourth one
    the first axis again. *)
Definition axes : MyRand :=
  mkRand (fun k => match k with
                   | 0%nat | 4%nat | 8%nat | 9%nat => 1
                   | _ => 0
                   end) 0.

(** What the constructor finds in the memory it does not initialise, for
    the examples. *)
Definition junk : Uninitialised := mkUninit (fun _ => splat 1) 1 1 1 1.

(** The state without the two energies that depend on the order in which
    the energy loop adds its terms: [Up_], and [Utot_], which [Move_Atoms]
    computes from it. *)
Definition but_energy (s : MD) : MD := set_Utot 0 (set_Up 0 s).


(* ================================================================== *)
(** * Proofs *)

(** ** The definitions on small inputs *)

Example zrange_ncp : zrange (- ncp_) ncp_ = [-3; -2; -1; 0; 1; 2; 3]%Z.
Proof. reflexivity. Qed.

Example cube_size : length (cube ncp_) = 343%nat.
Proof. reflexivity. Qed.

Example images_size : length (images 4 ncp_) = 1372%nat.
Proof. reflexivity. Qed.

Example images_first : hd_error (images 4 ncp_) = Some (0%nat, (-3, -3, -3)%Z).
Proof. reflexivity. Qed.

Example self_pair_skipped : not_self 2 2 0 0 0 = false.
Proof. reflexivity. Qed.

Example own_image_kept : not_self 2 2 0 0 1 = true.
Proof. reflexivity. Qed.

Example other_atom_kept : not_self 2 3 0 0 0 = true.
Proof. reflexivity. Qed.

Example wrap_scalar_above : wrap_scalar 4 4.5 1 = (0.5, -3).
Proof.
  unfold wrap_scalar. destruct (Rgt_dec 4.5 4); [f_equal; lra|lra].
Qed.

Example wrap_scalar_below : wrap_scalar 4 (-0.5) 1 = (3.5, 5).
Proof.
  unfold wrap_scalar. destruct (Rgt_dec (-0.5) 4); [lra|].
  destruct (Rlt_dec (-0.5) 0.0); [f_equal; lra|lra].
Qed.

Example wrap_scalar_at_edge : wrap_scalar 4 4 1 = (4, 1).
Proof.
  unfold wrap_scalar. destruct (Rgt_dec 4 4); [lra|].
  destruct (Rlt_dec 4 0.0); [lra|reflexivity].
Qed.

Example copy_into_longer a b c : copy [a] [b; c] = [a; c].
Proof. reflexivity. Qed.

Example mirror_example : mirror (0%nat, (1%nat, (1, 0, -2)%Z))
                         = (1%nat, (0%nat, (-1, 0, 2)%Z)).
Proof. reflexivity. Qed.

Example representative_example :
  representative (0%nat, (1%nat, (1, 0, -2)%Z)) = true /\
  representative (1%nat, (0%nat, (-1, 0, 2)%Z)) = false /\
  representative (1%nat, (1%nat, (0, 0, 1)%Z)) = true /\
  representative (1%nat, (1%nat, (0, 0, -1)%Z)) = false.
Proof. repeat split; reflexivity. Qed.

Example fcc_lattice_size : length (fcc_lattice 1 2) = 32%nat.
Proof. reflexivity. Qed.

(** ** Loops *)

Lemma for_loop_nil {S A : Type} (body : A -> S -> S) s :
  for_loop [] body s = s.
Proof. reflexivity. Qed.

Lemma for_loop_cons {S A : Type} (body : A -> S -> S) a l s :
  for_loop (a :: l) body s = for_loop l body (body a s).
Proof. reflexivity. Qed.

Lemma for_loop_app {S A : Type} (body : A -> S -> S) l1 l2 s :
  for_loop (l1 ++ l2) body s = for_loop l2 body (for_loop l1 body s).
Proof. unfold for_loop. apply fold_left_app. Qed.

Lemma for_loop_flat_map {S A B : Type} (h : A -> list B) (body : B -> S -> S)
    l s :
  for_loop (flat_map h l) body s = for_loop l (fun a => for_loop (h a) body) s.
Proof.
  revert s. induction l as [|a l IH]; intros s; [reflexivity|].
  cbn [flat_map]. rewrite for_loop_app, for_loop_cons, IH. reflexivity.
Qed.

Lemma for_loop_map {S A B : Type} (h : A -> B) (body : B -> S -> S) l s :
  for_loop (map h l) body s = for_loop l (fun a => body (h a)) s.
Proof.
  revert s. induction l as [|a l IH]; intros s; [reflexivity|].
  cbn [map]. rewrite !for_loop_cons. apply IH.
Qed.

Lemma for_loop_ext {S A : Type} (b1 b2 : A -> S -> S) l s :
  (forall a s, b1 a s = b2 a s) -> for_loop l b1 s = for_loop l b2 s.
Proof.
  intros E. revert s. induction l as [|a l IH]; intros s; [reflexivity|].
  rewrite !for_loop_cons, E. apply IH.
Qed.

(** ** Schedules *)

Lemma in_order_fair : fair in_order.
Proof. intros l. reflexivity. Qed.

Lemma sequential_fair : fair_runtime sequential.
Proof.
  unfold fair_runtime, sequential; simpl.
  repeat split; try apply in_order_fair. intros _. lia.
Qed.

Lemma fair_NoDup sigma a N : fair sigma -> NoDup (sigma (seq a N)).
Proof. intros F. rewrite (F (seq a N)). apply NoDup_seq. Qed.

Lemma fair_elem sigma a N n :
  fair sigma -> n ∈ sigma (seq a N) <-> (a <= n < a + N)%nat.
Proof. intros F. rewrite (F (seq a N)). apply elem_of_seq. Qed.

(** A loop whose iteration [n] rewrites the slot [n] of the state from the
    slot [n] alone: after the loop every visited slot has been rewritten
    once, whatever the order. *)
Section Pointwise.
Context {S X : Type}.
Variables (slot : nat -> S -> X) (g : nat -> X -> X).
Variables (body : nat -> S -> S) (I : S -> Prop) (N : nat).
Hypothesis body_own :
  forall n s, I s -> (n < N)%nat -> slot n (body n s) = g n (slot n s).
Hypothesis body_other :
  forall n m s, I s -> (n < N)%nat -> n <> m ->
    slot m (body n s) = slot m s.
Hypothesis body_inv : forall n s, I s -> (n < N)%nat -> I (body n s).

Lemma for_loop_inv o s :
  I s -> (forall n, n ∈ o -> (n < N)%nat) -> I (for_loop o body s).
Proof.
  revert s. induction o as [|a o IH]; intros s Is Ho; [exact Is|].
  rewrite for_loop_cons. apply IH.
  - apply body_inv; [exact Is|]. apply Ho. left.
  - intros n Hn. apply Ho. right. exact Hn.
Qed.

Lemma for_loop_pointwise o s n :
  I s -> NoDup o -> (forall n, n ∈ o -> (n < N)%nat) ->
  slot n (for_loop o body s) =
    if decide (n ∈ o) then g n (slot n s) else slot n s.
Proof.
  revert s. induction o as [|a o IH]; intros s Is Nd Ho.
  - rewrite for_loop_nil. destruct (decide (n ∈ [])) as [H|_]; [|reflexivity].
    inversion H.
  - apply NoDup_cons in Nd as [Ha Nd].
    assert (aN : (a < N)%nat) by (apply Ho; left).
    rewrite for_loop_cons, IH;
      [|apply body_inv; assumption|assumption
       |intros k Hk; apply Ho; right; exact Hk].
    destruct (decide (n = a)) as [->|Hne].
    + destruct (decide (a ∈ o)) as [H|_]; [contradiction|].
      destruct (decide (a ∈ a :: o)) as [_|H]; [|exfalso; apply H; left].
      apply body_own; assumption.
    + rewrite (body_other a n s Is aN) by congruence.
      destruct (decide (n ∈ o)) as [H|H];
        destruct (decide (n ∈ a :: o)) as [H'|H']; try reflexivity.
      * exfalso. apply H'. right. exact H.
      * exfalso. apply elem_of_cons in H' as [?|?]; contradiction.
Qed.

Lemma region_pointwise sigma s n :
  fair sigma -> I s -> (n < N)%nat ->
  slot n (for_loop (sigma (seq 0 N)) body s) = g n (slot n s).
Proof.
  intros F Is Hn.
  rewrite for_loop_pointwise;
    [|exact Is|apply fair_NoDup, F
     |intros k Hk; apply (fair_elem _ _ _ _ F) in Hk; lia].
  destruct (decide (n ∈ sigma (seq 0 N))) as [_|H]; [reflexivity|].
  exfalso. apply H. apply (fair_elem _ _ _ _ F). lia.
Qed.

Lemma region_inv sigma s :
  fair sigma -> I s -> I (for_loop (sigma (seq 0 N)) body s).
Proof.
  intros F Is. apply for_loop_inv; [exact Is|].
  intros k Hk. apply (fair_elem _ _ _ _ F) in Hk. lia.
Qed.
End Pointwise.

(** ** Transfers *)

Lemma copy_same_length src dst : length src = length dst -> copy src dst = src.
Proof.
  intros E. unfold copy. rewrite E, drop_all. apply app_nil_r.
Qed.

(** ** The force kernel *)

Lemma nest4 {S : Type} (body : nat -> Z -> Z -> Z -> S -> S) N ncp s :
  for_loop (seq 0 N) (fun m =>
    for_loop (zrange (- ncp) ncp) (fun i =>
      for_loop (zrange (- ncp) ncp) (fun j =>
        for_loop (zrange (- ncp) ncp) (fun k => body m i j k)))) s =
  for_loop (images N ncp) (fun '(m, (i, j, k)) => body m i j k) s.
Proof.
  unfold images. rewrite for_loop_flat_map. apply for_loop_ext.
  intros m s'. rewrite for_loop_map. unfold cube.
  rewrite for_loop_flat_map. apply for_loop_ext. intros i s''.
  rewrite for_loop_flat_map. apply for_loop_ext. intros j s'''.
  rewrite for_loop_map. reflexivity.
Qed.

Lemma force_unroll r ncp N L rc2 n f :
  force r ncp N L rc2 n f = for_loop (images N ncp) (force_step r L rc2 n) f.
Proof.
  unfold force.
  rewrite (nest4 (fun m i j k f =>
    if not_self n m i j k then
      let d := displacement r L n m i j k in
      let r2 := dist2 d in
      if Rle_dec r2 rc2 then <[n := (f !!! n + pair_force d)%v4]> f else f
    else f)).
  apply for_loop_ext. intros [m [[i j] k]] f'. reflexivity.
Qed.

Lemma insert_same (f : list Vector4) n :
  (n < length f)%nat -> <[n := f !!! n]> f = f.
Proof.
  intros H. apply list_insert_id. apply list_lookup_lookup_total_lt, H.
Qed.

Lemma force_steps r L rc2 n (ps : list (nat * (Z * Z * Z))) f :
  (n < length f)%nat ->
  for_loop ps (force_step r L rc2 n) f =
  <[n := fold_left vadd
           (map (fun '(m, (i, j, k)) => pair_force (displacement r L n m i j k))
              (List.filter (fun '(m, (i, j, k)) =>
                 not_self n m i j k &&
                 in_cutoff (dist2 (displacement r L n m i j k)) rc2) ps))
           (f !!! n)]> f.
Proof.
  revert f. induction ps as [|[m [[i j] k]] ps IH]; intros f Hn.
  - rewrite for_loop_nil. symmetry. apply insert_same, Hn.
  - rewrite for_loop_cons. cbn [List.filter]. unfold force_step at 2.
    unfold in_cutoff. cbv zeta.
    destruct (not_self n m i j k); cbn [andb]; [|apply IH, Hn].
    destruct (Rle_dec _ rc2); [|apply IH, Hn].
    rewrite IH by (rewrite length_insert; exact Hn).
    rewrite list_lookup_total_insert_eq by exact Hn.
    rewrite list_insert_insert_eq. reflexivity.
Qed.

Lemma force_own r ncp N L rc2 n f :
  (n < length f)%nat ->
  force r ncp N L rc2 n f !!! n =
  fold_left vadd
    (map (fun '(m, (i, j, k)) => pair_force (displacement r L n m i j k))
       (force_pairs r ncp N L rc2 n)) (f !!! n).
Proof.
  intros Hn. rewrite force_unroll, force_steps by exact Hn.
  rewrite list_lookup_total_insert_eq by exact Hn. reflexivity.
Qed.

Lemma force_other r ncp N L rc2 n m f :
  (n < length f)%nat -> n <> m ->
  force r ncp N L rc2 n f !!! m = f !!! m.
Proof.
  intros Hn Hne. rewrite force_unroll, force_steps by exact Hn.
  apply list_lookup_total_insert_ne, Hne.
Qed.

Lemma force_length r ncp N L rc2 n f :
  (n < length f)%nat -> length (force r ncp N L rc2 n f) = length f.
Proof.
  intros Hn. rewrite force_unroll, force_steps by exact Hn.
  apply length_insert.
Qed.

(** The launch of [init_force] followed by the launch of [force]. *)
Lemma init_force_launch sigma N f n :
  fair sigma -> length f = N -> (n < N)%nat ->
  enqueue_1d_range_kernel sigma init_force N f !!! n = splat 0.0 /\
  length (enqueue_1d_range_kernel sigma init_force N f) = N.
Proof.
  intros F Hl Hn. unfold enqueue_1d_range_kernel. split.
  - apply (region_pointwise (fun n (f : list Vector4) => f !!! n)
             (fun _ _ => splat 0.0) init_force
             (fun f => length f = N) N); try assumption.
    + intros k g Hg Hk. unfold init_force.
      apply list_lookup_total_insert_eq. lia.
    + intros k m g Hg Hk Hne. unfold init_force.
      apply list_lookup_total_insert_ne, Hne.
    + intros k g Hg Hk. unfold init_force. rewrite length_insert. exact Hg.
  - apply (region_inv init_force (fun f => length f = N) N); try assumption.
    intros k g Hg Hk. unfold init_force. rewrite length_insert. exact Hg.
Qed.

Lemma force_launch sigma r ncp N L rc2 f n :
  fair sigma -> length f = N -> (n < N)%nat ->
  enqueue_1d_range_kernel sigma (force r ncp N L rc2) N f !!! n =
    fold_left vadd
      (map (fun '(m, (i, j, k)) => pair_force (displacement r L n m i j k))
         (force_pairs r ncp N L rc2 n)) (f !!! n) /\
  length (enqueue_1d_range_kernel sigma (force r ncp N L rc2) N f) = N.
Proof.
  intros F Hl Hn. unfold enqueue_1d_range_kernel.
  assert (own : forall k g, length g = N -> (k < N)%nat ->
            force r ncp N L rc2 k g !!! k =
            (fun k x => fold_left vadd
               (map (fun '(m, (i, j, k')) =>
                       pair_force (displacement r L k m i j k'))
                  (force_pairs r ncp N L rc2 k)) x) k (g !!! k)).
  { intros k g Hg Hk. apply force_own. lia. }
  assert (other : forall k m g, length g = N -> (k < N)%nat -> k <> m ->
            force r ncp N L rc2 k g !!! m = g !!! m).
  { intros k m g Hg Hk Hne. apply force_other; [lia|exact Hne]. }
  assert (inv : forall k g, length g = N -> (k < N)%nat ->
            length (force r ncp N L rc2 k g) = N).
  { intros k g Hg Hk. rewrite force_length; [exact Hg|lia]. }
  split.
  - apply (region_pointwise (fun n (f : list Vector4) => f !!! n) _ _
             (fun f => length f = N) N own other inv); assumption.
  - apply (region_inv _ (fun f => length f = N) N inv); assumption.
Qed.

(** ** The enumeration of the pairs *)

Lemma in_zrange lo hi z : In z (zrange lo hi) <-> (lo <= z <= hi)%Z.
Proof.
  unfold zrange. rewrite in_map_iff. split.
  - intros [t [<- Ht]]. apply in_seq in Ht. lia.
  - intros H. exists (Z.to_nat (z - lo)). split; [lia|].
    apply in_seq. lia.
Qed.

Lemma NoDup_zrange lo hi : NoDup (zrange lo hi).
Proof.
  unfold zrange. apply NoDup_fmap_2; [|apply NoDup_seq].
  intros a b H. lia.
Qed.

Lemma NoDup_flat_map {A B : Type} (h : A -> list B) (l : list A) :
  NoDup l -> (forall a, In a l -> NoDup (h a)) ->
  (forall a b x, In a l -> In b l -> In x (h a) -> In x (h b) -> a = b) ->
  NoDup (flat_map h l).
Proof.
  induction l as [|a l IH]; intros Nd Hh Hdis; [constructor|].
  apply NoDup_cons in Nd as [Ha Nd]. cbn [flat_map].
  apply NoDup_app. split; [apply Hh; left; reflexivity|]. split.
  - intros x Hx Hx'. apply list_elem_of_In in Hx, Hx'.
    apply in_flat_map in Hx' as [b [Hb Hxb]].
    assert (a = b) by (apply (Hdis a b x); simpl; auto).
    subst b. apply Ha. apply list_elem_of_In, Hb.
  - apply IH; [exact Nd| |].
    + intros b Hb. apply Hh. right. exact Hb.
    + intros b c x Hb Hc. apply Hdis; right; assumption.
Qed.

Lemma in_cube ncp i j k :
  In (i, j, k) (cube ncp) <->
  (- ncp <= i <= ncp)%Z /\ (- ncp <= j <= ncp)%Z /\ (- ncp <= k <= ncp)%Z.
Proof.
  unfold cube. rewrite in_flat_map. split.
  - intros [i' [Hi H]]. apply in_flat_map in H as [j' [Hj H]].
    apply in_map_iff in H as [k' [E Hk]]. inversion E; subst.
    rewrite in_zrange in Hi, Hj, Hk. auto.
  - intros (Hi & Hj & Hk). exists i. split; [apply in_zrange, Hi|].
    apply in_flat_map. exists j. split; [apply in_zrange, Hj|].
    apply in_map_iff. exists k. split; [reflexivity|apply in_zrange, Hk].
Qed.

Lemma NoDup_cube ncp : NoDup (cube ncp).
Proof.
  unfold cube. apply NoDup_flat_map; [apply NoDup_zrange| |].
  - intros i _. apply NoDup_flat_map; [apply NoDup_zrange| |].
    + intros j _. apply NoDup_fmap_2; [|apply NoDup_zrange].
      intros a b E. inversion E. reflexivity.
    + intros a b [[x y] z] _ _ Ha Hb.
      apply in_map_iff in Ha as [? [Ea _]], Hb as [? [Eb _]]. congruence.
  - intros a b [[x y] z] _ _ Ha Hb.
    apply in_flat_map in Ha as [? [_ Ha]], Hb as [? [_ Hb]].
    apply in_map_iff in Ha as [? [Ea _]], Hb as [? [Eb _]]. congruence.
Qed.

Lemma in_images N ncp m i j k :
  In (m, (i, j, k)) (images N ncp) <->
  (m < N)%nat /\
  (- ncp <= i <= ncp)%Z /\ (- ncp <= j <= ncp)%Z /\ (- ncp <= k <= ncp)%Z.
Proof.
  unfold images. rewrite in_flat_map. split.
  - intros [m' [Hm H]]. apply in_map_iff in H as [v [E Hv]].
    inversion E; subst. apply in_seq in Hm. apply in_cube in Hv.
    split; [lia|exact Hv].
  - intros [Hm Hv]. exists m. split; [apply in_seq; lia|].
    apply in_map_iff. exists (i, j, k). split; [reflexivity|].
    apply in_cube, Hv.
Qed.

Lemma NoDup_images N ncp : NoDup (images N ncp).
Proof.
  unfold images. apply NoDup_flat_map; [apply NoDup_seq| |].
  - intros m _. apply NoDup_fmap_2; [|apply NoDup_cube].
    intros a b E. inversion E. reflexivity.
  - intros a b [m v] _ _ Ha Hb.
    apply in_map_iff in Ha as [? [Ea _]], Hb as [? [Eb _]]. congruence.
Qed.

Lemma not_self_false n m i j k :
  not_self n m i j k = false <-> n = m /\ i = 0%Z /\ j = 0%Z /\ k = 0%Z.
Proof.
  unfold not_self. rewrite !orb_false_iff, !negb_false_iff.
  rewrite Nat.eqb_eq, !Z.eqb_eq. tauto.
Qed.

Lemma in_cutoff_true r2 rc2 : in_cutoff r2 rc2 = true <-> r2 <= rc2.
Proof.
  unfold in_cutoff. destruct (Rle_dec r2 rc2); split; intros; try easy.
Qed.

(** ** The inverse powers *)

Lemma sqrt_pow6 r2 : 0 <= r2 -> sqrt r2 ^ 6 = r2 * r2 * r2.
Proof.
  intros H. replace (sqrt r2 ^ 6) with
    ((sqrt r2 * sqrt r2) * (sqrt r2 * sqrt r2) * (sqrt r2 * sqrt r2)) by ring.
  rewrite sqrt_sqrt by exact H. reflexivity.
Qed.

Lemma rm6_pow r2 : 0 <= r2 -> 1.0 / (r2 * r2 * r2) = / sqrt r2 ^ 6.
Proof. intros H. rewrite sqrt_pow6 by exact H. lra. Qed.

Lemma Fr_of_powers r2 :
  0 < r2 -> Fr_of r2 = 48.0 * / sqrt r2 ^ 13 - 24.0 * / sqrt r2 ^ 7.
Proof.
  intros H. unfold Fr_of. cbv zeta. rewrite rm6_pow by lra.
  assert (0 < sqrt r2) by (apply sqrt_lt_R0, H).
  field. lra.
Qed.

Lemma pair_energy_powers r2 :
  0 < r2 ->
  pair_energy r2 = 0.5 * (4.0 * (/ sqrt r2 ^ 12 - / sqrt r2 ^ 6) - Vrc_).
Proof.
  intros H. unfold pair_energy. cbv zeta. rewrite rm6_pow by lra.
  assert (0 < sqrt r2) by (apply sqrt_lt_R0, H).
  field. lra.
Qed.

Lemma dist2_nonneg d : 0 <= dist2 d.
Proof. unfold dist2. nra. Qed.

(** ** Calc_Forces *)

Ltac md_proj :=
  cbn [lat_ Nc_ F_ F_dev_ MD_iter_ NumAtom_ periodiclen_ scale_ t_ Tc_ Tg_
       Uk_ Up_ Utot_ V_ V_dev_ r_ r_dev_ r1_ r1_dev_
       set_lat set_F set_F_dev set_MD_iter set_NumAtom set_periodiclen
       set_t set_Tc set_Tg set_Uk set_Up set_Utot set_V set_V_dev set_r
       set_r_dev set_r1 set_r1_dev
       upload_F upload_r upload_r1 upload_V download_F download_r
       download_r1 download_V run_init_force run_force host_energy
       tick] in *.

(** Case analysis on the object: the members become variables. *)
Ltac md_open s :=
  destruct s as [lat Nc F Fd iter N L scale t Tc Tg Uk Up Utot V Vd r rd
                 r1 r1d]; md_proj.

Ltac calc_forces_unfold := unfold Calc_Forces; md_proj.

(** The device buffer after the two launches of [Calc_Forces]. *)
Lemma Calc_Forces_F_dev rt s n :
  fair_runtime rt -> sized s -> (n < NumAtom_ s)%nat ->
  F_dev_ (Calc_Forces rt s) !!! n =
    net_force (r_ s) ncp_ (NumAtom_ s) (periodiclen_ s) rc2_ n /\
  length (F_dev_ (Calc_Forces rt s)) = NumAtom_ s.
Proof.
  intros (Fi & Ff & _) (HF & HV & Hr & Hr1 & HFd & HVd & Hrd & Hr1d) Hn.
  calc_forces_unfold.
  rewrite !copy_same_length by congruence.
  destruct (init_force_launch (order_init_force rt) (NumAtom_ s) (F_ s) n
              Fi HF Hn) as [Z0 L0].
  destruct (force_launch (order_force rt) (r_ s) ncp_ (NumAtom_ s)
              (periodiclen_ s) rc2_ _ n Ff L0 Hn) as [Z1 L1].
  split; [|exact L1]. rewrite Z1, Z0. reflexivity.
Qed.

Lemma Calc_Forces_F rt s n :
  fair_runtime rt -> sized s -> (n < NumAtom_ s)%nat ->
  F_ (Calc_Forces rt s) !!! n =
    net_force (r_ s) ncp_ (NumAtom_ s) (periodiclen_ s) rc2_ n.
Proof.
  intros Hrt Hs Hn.
  destruct (Calc_Forces_F_dev rt s n Hrt Hs Hn) as [E L].
  rewrite <- E. destruct Hs as (HF & _).
  revert E L. calc_forces_unfold. intros E L.
  rewrite (copy_same_length _ (F_ s)) by congruence. reflexivity.
Qed.

Lemma not_self_true n m i j k :
  not_self n m i j k = true <->
  ~ (n = m /\ i = 0%Z /\ j = 0%Z /\ k = 0%Z).
Proof.
  rewrite <- not_self_false. destruct (not_self n m i j k); split; intros;
    easy.
Qed.

Lemma in_force_pairs r ncp N L rc2 n m i j k :
  In (m, (i, j, k)) (force_pairs r ncp N L rc2 n) <->
  ((m < N)%nat /\
   (- ncp <= i <= ncp)%Z /\ (- ncp <= j <= ncp)%Z /\ (- ncp <= k <= ncp)%Z) /\
  ~ (n = m /\ i = 0%Z /\ j = 0%Z /\ k = 0%Z) /\
  dist2 (displacement r L n m i j k) <= rc2.
Proof.
  unfold force_pairs. rewrite filter_In, andb_true_iff, in_images.
  rewrite not_self_true, in_cutoff_true. tauto.
Qed.

Lemma NoDup_force_pairs r ncp N L rc2 n :
  NoDup (force_pairs r ncp N L rc2 n).
Proof.
  unfold force_pairs. apply NoDup_ListNoDup, List.NoDup_filter.
  apply NoDup_ListNoDup, NoDup_images.
Qed.

Lemma pair_force_powers d :
  0 < dist2 d ->
  pair_force d =
  (d / splat (sqrt (dist2 d)) *
   splat (48.0 * / sqrt (dist2 d) ^ 13 - 24.0 * / sqrt (dist2 d) ^ 7))%v4.
Proof.
  intros H. unfold pair_force. rewrite Fr_of_powers by exact H. reflexivity.
Qed.

Lemma sized_four_atoms r r1 V F iter L Up :
  length r = 4%nat -> length r1 = 4%nat -> length V = 4%nat ->
  length F = 4%nat -> sized (four_atoms r r1 V F iter L Up).
Proof. intros. unfold sized, four_atoms. simpl. tauto. Qed.

(** ** The integrator kernels *)

Lemma move_atoms_own f deltat N n b :
  sized3 N b -> (n < N)%nat ->
  slot3 n (move_atoms f deltat n b) = verlet_atom deltat (f !!! n) (slot3 n b).
Proof.
  destruct b as [[r r1] V]. intros (Hr & Hr1 & HV) Hn.
  unfold move_atoms, slot3, verlet_atom.
  rewrite !list_lookup_total_insert_eq by lia. reflexivity.
Qed.

Lemma move_atoms_other f deltat N n m b :
  sized3 N b -> (n < N)%nat -> n <> m ->
  slot3 m (move_atoms f deltat n b) = slot3 m b.
Proof.
  destruct b as [[r r1] V]. intros _ _ Hne. unfold move_atoms, slot3.
  rewrite !list_lookup_total_insert_ne by exact Hne. reflexivity.
Qed.

Lemma move_atoms_sized f deltat N n b :
  sized3 N b -> (n < N)%nat -> sized3 N (move_atoms f deltat n b).
Proof.
  destruct b as [[r r1] V]. intros (Hr & Hr1 & HV) _.
  unfold move_atoms, sized3. rewrite !length_insert. auto.
Qed.

Lemma move_atoms1_own f deltat sc N n b :
  sized3 N b -> (n < N)%nat ->
  slot3 n (move_atoms1 f deltat sc n b) =
  euler_atom deltat sc (f !!! n) (slot3 n b).
Proof.
  destruct b as [[r r1] V]. intros (Hr & Hr1 & HV) Hn.
  unfold move_atoms1, slot3, euler_atom.
  rewrite !list_lookup_total_insert_eq by (rewrite ?length_insert; lia).
  reflexivity.
Qed.

Lemma move_atoms1_other f deltat sc N n m b :
  sized3 N b -> (n < N)%nat -> n <> m ->
  slot3 m (move_atoms1 f deltat sc n b) = slot3 m b.
Proof.
  destruct b as [[r r1] V]. intros _ _ Hne. unfold move_atoms1, slot3.
  rewrite !list_lookup_total_insert_ne by exact Hne. reflexivity.
Qed.

Lemma move_atoms1_sized f deltat sc N n b :
  sized3 N b -> (n < N)%nat -> sized3 N (move_atoms1 f deltat sc n b).
Proof.
  destruct b as [[r r1] V]. intros (Hr & Hr1 & HV) _.
  unfold move_atoms1, sized3. rewrite !length_insert. auto.
Qed.

Lemma move_atoms_launch sigma f deltat N b n :
  fair sigma -> sized3 N b -> (n < N)%nat ->
  slot3 n (enqueue_1d_range_kernel sigma (move_atoms f deltat) N b) =
    verlet_atom deltat (f !!! n) (slot3 n b) /\
  sized3 N (enqueue_1d_range_kernel sigma (move_atoms f deltat) N b).
Proof.
  intros F Hb Hn. unfold enqueue_1d_range_kernel. split.
  - apply (region_pointwise slot3 (fun n => verlet_atom deltat (f !!! n))
             (move_atoms f deltat) (sized3 N) N); try assumption.
    + intros; apply (move_atoms_own _ _ N); assumption.
    + intros; apply (move_atoms_other _ _ N); assumption.
    + intros; apply move_atoms_sized; assumption.
  - apply (region_inv (move_atoms f deltat) (sized3 N) N); try assumption.
    intros; apply move_atoms_sized; assumption.
Qed.

Lemma move_atoms1_launch sigma f deltat sc N b n :
  fair sigma -> sized3 N b -> (n < N)%nat ->
  slot3 n (enqueue_1d_range_kernel sigma (move_atoms1 f deltat sc) N b) =
    euler_atom deltat sc (f !!! n) (slot3 n b) /\
  sized3 N (enqueue_1d_range_kernel sigma (move_atoms1 f deltat sc) N b).
Proof.
  intros F Hb Hn. unfold enqueue_1d_range_kernel. split.
  - apply (region_pointwise slot3 (fun n => euler_atom deltat sc (f !!! n))
             (move_atoms1 f deltat sc) (sized3 N) N); try assumption.
    + intros; apply (move_atoms1_own _ _ _ N); assumption.
    + intros; apply (move_atoms1_other _ _ _ N); assumption.
    + intros; apply move_atoms1_sized; assumption.
  - apply (region_inv (move_atoms1 f deltat sc) (sized3 N) N); try assumption.
    intros; apply move_atoms1_sized; assumption.
Qed.

(** ** Move_Atoms before the periodic boundary treatment *)

Ltac md_proj_k :=
  cbn [lat_ Nc_ F_ F_dev_ MD_iter_ NumAtom_ periodiclen_ scale_ t_ Tc_ Tg_
       Uk_ Up_ Utot_ V_ V_dev_ r_ r_dev_ r1_ r1_dev_
       set_Tc set_Uk set_Utot set_V set_V_dev set_r set_r_dev set_r1
       set_r1_dev set_F_dev
       upload_F upload_r upload_r1 upload_V download_r download_r1
       download_V kinetic].

Ltac before_wrap_unfold := unfold before_wrap, advance; md_proj_k.

Lemma Move_Atoms_split rt s :
  Move_Atoms rt s = tick (wrap rt (before_wrap rt s)).
Proof. reflexivity. Qed.

Lemma kinetic_Tc s :
  Tc_ (kinetic s) =
  for_loop (seq 0 (NumAtom_ s)) (fun n Uk => Uk + speed2 (V_ s !!! n)) 0.0
  * 0.5 / (1.5 * INR (NumAtom_ s)).
Proof. reflexivity. Qed.

Lemma before_wrap_frame rt s :
  NumAtom_ (before_wrap rt s) = NumAtom_ s /\
  periodiclen_ (before_wrap rt s) = periodiclen_ s /\
  MD_iter_ (before_wrap rt s) = MD_iter_ s /\
  Up_ (before_wrap rt s) = Up_ s /\
  F_ (before_wrap rt s) = F_ s /\
  Uk_ (before_wrap rt s) = Uk_ (kinetic s) /\
  Utot_ (before_wrap rt s) = Utot_ (kinetic s) /\
  Tc_ (before_wrap rt s) = Tc_ (kinetic s) /\
  t_ (before_wrap rt s) = t_ s.
Proof.
  md_open s. repeat split; before_wrap_unfold;
  destruct (iter =? 1)%Z;
    match goal with
    | |- context [enqueue_1d_range_kernel ?a ?b ?c ?d] =>
        destruct (enqueue_1d_range_kernel a b c d) as [[r' r1'] V']
    end; md_proj_k; reflexivity.
Qed.

Lemma before_wrap_steady rt s n :
  fair_runtime rt -> sized s -> (n < NumAtom_ s)%nat ->
  MD_iter_ s <> 1%Z ->
  (r_ (before_wrap rt s) !!! n, r1_ (before_wrap rt s) !!! n,
   V_ (before_wrap rt s) !!! n) =
    verlet_atom DT (F_ s !!! n) (r_ s !!! n, r1_ s !!! n, V_ s !!! n) /\
  sized (before_wrap rt s).
Proof.
  intros (_ & _ & _ & Fm & _) Hs Hn Hiter. unfold sized in Hs. md_open s.
  destruct Hs as (HF & HV & Hr & Hr1 & HFd & HVd & Hrd & Hr1d).
  assert (E : (iter =? 1)%Z = false) by (apply Z.eqb_neq, Hiter).
  before_wrap_unfold. rewrite E.
  rewrite (copy_same_length F Fd), (copy_same_length r rd),
    (copy_same_length r1 r1d), (copy_same_length V Vd) by congruence.
  destruct (move_atoms_launch (order_move rt) F DT N
              (r, r1, V) n Fm (conj Hr (conj Hr1 HV)) Hn)
    as [Hslot Hsz].
  destruct (enqueue_1d_range_kernel _ _ _ _) as [[r' r1'] V'].
  md_proj_k. destruct Hsz as (Lr & Lr1 & LV). unfold sized. md_proj_k.
  rewrite !copy_same_length by congruence.
  split; [exact Hslot|]. repeat split; congruence.
Qed.

Lemma before_wrap_first rt s n :
  fair_runtime rt -> sized s -> (n < NumAtom_ s)%nat ->
  MD_iter_ s = 1%Z ->
  (r_ (before_wrap rt s) !!! n, r1_ (before_wrap rt s) !!! n,
   V_ (before_wrap rt s) !!! n) =
    euler_atom DT (woodcock (Tg_ s) (Tc_ (kinetic s))) (F_ s !!! n)
      (r_ s !!! n, r1_ s !!! n, V_ s !!! n) /\
  sized (before_wrap rt s).
Proof.
  intros (_ & _ & _ & Fm & _) Hs Hn Hiter. unfold sized in Hs. md_open s.
  destruct Hs as (HF & HV & Hr & Hr1 & HFd & HVd & Hrd & Hr1d).
  assert (E : (iter =? 1)%Z = true) by (apply Z.eqb_eq, Hiter).
  before_wrap_unfold. rewrite E.
  rewrite (copy_same_length F Fd), (copy_same_length r rd),
    (copy_same_length r1 r1d), (copy_same_length V Vd) by congruence.
  destruct (move_atoms1_launch (order_move rt) F DT
              (woodcock Tg
                 (Tc_ (kinetic (mkMD lat Nc F Fd iter N L scale t Tc Tg Uk
                                  Up Utot V Vd r rd r1 r1d))))
              N (r, r1, V) n Fm (conj Hr (conj Hr1 HV)) Hn)
    as [Hslot Hsz].
  unfold kinetic in Hslot, Hsz. md_proj.
  destruct (enqueue_1d_range_kernel _ _ _ _) as [[r' r1'] V'].
  md_proj_k. destruct Hsz as (Lr & Lr1 & LV). unfold sized. md_proj_k.
  rewrite !copy_same_length by congruence.
  split; [exact Hslot|]. repeat split; congruence.
Qed.

(** ** The periodic boundary treatment *)

Lemma set_data_same v i : set_data v i (data v i) = v.
Proof. destruct v, i as [|[|[|i]]]; reflexivity. Qed.

Lemma data_set_data v i j c :
  (i < 3)%nat -> (j < 3)%nat ->
  data (set_data v j c) i = if decide (i = j) then c else data v i.
Proof.
  intros Hi Hj.
  destruct i as [|[|[|i]]]; destruct j as [|[|[|j]]]; try lia; reflexivity.
Qed.

Lemma vw_set_data v j c : (j < 3)%nat -> vw (set_data v j c) = vw v.
Proof. intros Hj. destruct j as [|[|[|j]]]; try lia; reflexivity. Qed.

Lemma wrap_axis_slot L n i r r1 :
  (n < length r)%nat -> (n < length r1)%nat ->
  wrap_axis L n i (r, r1) =
  (<[n := fst (wrap_atom_axis L i (r !!! n, r1 !!! n))]> r,
   <[n := snd (wrap_atom_axis L i (r !!! n, r1 !!! n))]> r1).
Proof.
  intros Hr Hr1. unfold wrap_axis, wrap_atom_axis, wrap_scalar.
  destruct (Rgt_dec _ L); [reflexivity|].
  destruct (Rlt_dec _ 0.0); [reflexivity|].
  cbn [fst snd]. rewrite !set_data_same, !insert_same by assumption.
  reflexivity.
Qed.

Lemma wrap_axes_slot L n (axes : list nat) r r1 :
  (n < length r)%nat -> (n < length r1)%nat ->
  for_loop axes (wrap_axis L n) (r, r1) =
  (<[n := fst (for_loop axes (wrap_atom_axis L) (r !!! n, r1 !!! n))]> r,
   <[n := snd (for_loop axes (wrap_atom_axis L) (r !!! n, r1 !!! n))]> r1).
Proof.
  revert r r1. induction axes as [|i axes IH]; intros r r1 Hr Hr1.
  - rewrite !for_loop_nil. cbn [fst snd].
    rewrite !insert_same by assumption. reflexivity.
  - rewrite !for_loop_cons, wrap_axis_slot by assumption.
    rewrite IH by (rewrite length_insert; assumption).
    rewrite !list_lookup_total_insert_eq by assumption.
    rewrite !list_insert_insert_eq.
    destruct (wrap_atom_axis L i (r !!! n, r1 !!! n)); reflexivity.
Qed.

Lemma wrap_body_own L N n b :
  sized2 N b -> (n < N)%nat ->
  slot2 n (wrap_body L n b) = wrap_atom L (slot2 n b).
Proof.
  destruct b as [r r1]. intros [Hr Hr1] Hn. unfold wrap_body, wrap_atom.
  rewrite wrap_axes_slot by lia. unfold slot2.
  rewrite !list_lookup_total_insert_eq by lia.
  destruct (for_loop _ _ _); reflexivity.
Qed.

Lemma wrap_body_other L N n m b :
  sized2 N b -> (n < N)%nat -> n <> m ->
  slot2 m (wrap_body L n b) = slot2 m b.
Proof.
  destruct b as [r r1]. intros [Hr Hr1] Hn Hne. unfold wrap_body.
  rewrite wrap_axes_slot by lia. unfold slot2.
  rewrite !list_lookup_total_insert_ne by exact Hne. reflexivity.
Qed.

Lemma wrap_body_sized L N n b :
  sized2 N b -> (n < N)%nat -> sized2 N (wrap_body L n b).
Proof.
  destruct b as [r r1]. intros [Hr Hr1] Hn. unfold wrap_body.
  rewrite wrap_axes_slot by lia. unfold sized2.
  rewrite !length_insert. auto.
Qed.

Lemma wrap_region sigma L N b n :
  fair sigma -> sized2 N b -> (n < N)%nat ->
  slot2 n (parallel_for sigma 0 N (wrap_body L) b) = wrap_atom L (slot2 n b) /\
  sized2 N (parallel_for sigma 0 N (wrap_body L) b).
Proof.
  intros F Hb Hn. unfold parallel_for. rewrite Nat.sub_0_r. split.
  - apply (region_pointwise slot2 (fun _ => wrap_atom L) (wrap_body L)
             (sized2 N) N); try assumption.
    + intros; apply (wrap_body_own _ N); assumption.
    + intros; apply (wrap_body_other _ N); assumption.
    + intros; apply wrap_body_sized; assumption.
  - apply (region_inv (wrap_body L) (sized2 N) N); try assumption.
    intros; apply wrap_body_sized; assumption.
Qed.

(** One component after the treatment of the three axes. *)
Lemma wrap_atom_component L a b i :
  (i < 3)%nat ->
  (data (fst (wrap_atom L (a, b))) i, data (snd (wrap_atom L (a, b))) i) =
  wrap_scalar L (data a i) (data b i).
Proof.
  intros Hi. unfold wrap_atom. cbn [seq].
  rewrite !for_loop_cons, for_loop_nil. unfold wrap_atom_axis.
  destruct (wrap_scalar L (data a 0) (data b 0)) as [x0 p0] eqn:E0.
  rewrite !(data_set_data _ 1 0) by lia.
  destruct (wrap_scalar L _ _) as [x1 p1] eqn:E1 in |- *.
  rewrite !(data_set_data _ 2 1), !(data_set_data _ 2 0) by lia.
  destruct (wrap_scalar L _ _) as [x2 p2] eqn:E2 in |- *.
  cbn [fst snd]. rewrite !data_set_data by lia.
  destruct i as [|[|[|i]]]; try lia; simpl in *; congruence.
Qed.

Lemma wrap_atom_w L a b :
  vw (fst (wrap_atom L (a, b))) = vw a /\ vw (snd (wrap_atom L (a, b))) = vw b.
Proof.
  unfold wrap_atom. cbn [seq]. rewrite !for_loop_cons, for_loop_nil.
  unfold wrap_atom_axis.
  repeat (destruct (wrap_scalar _ _ _)). cbn [fst snd].
  rewrite !vw_set_data by lia. auto.
Qed.

(** ** Move_Atoms *)

Lemma wrap_frame rt s :
  NumAtom_ (wrap rt s) = NumAtom_ s /\
  periodiclen_ (wrap rt s) = periodiclen_ s /\
  MD_iter_ (wrap rt s) = MD_iter_ s /\
  Up_ (wrap rt s) = Up_ s /\ F_ (wrap rt s) = F_ s /\
  Uk_ (wrap rt s) = Uk_ s /\ Utot_ (wrap rt s) = Utot_ s /\
  Tc_ (wrap rt s) = Tc_ s /\ t_ (wrap rt s) = t_ s /\
  V_ (wrap rt s) = V_ s /\ F_dev_ (wrap rt s) = F_dev_ s /\
  V_dev_ (wrap rt s) = V_dev_ s /\ r_dev_ (wrap rt s) = r_dev_ s /\
  r1_dev_ (wrap rt s) = r1_dev_ s.
Proof.
  unfold wrap. destruct (parallel_for _ _ _ _ _) as [r' r1']. md_proj.
  repeat split; reflexivity.
Qed.

Lemma wrap_atoms rt s n :
  fair_runtime rt -> sized s -> (n < NumAtom_ s)%nat ->
  (r_ (wrap rt s) !!! n, r1_ (wrap rt s) !!! n) =
    wrap_atom (periodiclen_ s) (r_ s !!! n, r1_ s !!! n) /\
  sized (wrap rt s).
Proof.
  intros (_ & _ & _ & _ & Fw & _)
    (HF & HV & Hr & Hr1 & HFd & HVd & Hrd & Hr1d) Hn.
  destruct (wrap_region (order_wrap rt) (periodiclen_ s) (NumAtom_ s)
              (r_ s, r1_ s) n Fw (conj Hr Hr1) Hn) as [Hslot Hsz].
  unfold wrap. destruct (parallel_for _ _ _ _ _) as [r' r1']. md_proj.
  split; [exact Hslot|]. destruct Hsz as [Lr Lr1].
  unfold sized. md_proj. repeat split; assumption.
Qed.

Lemma Move_Atoms_frame rt s :
  NumAtom_ (Move_Atoms rt s) = NumAtom_ s /\
  periodiclen_ (Move_Atoms rt s) = periodiclen_ s /\
  MD_iter_ (Move_Atoms rt s) = int32_wrap (MD_iter_ s + 1) /\
  t_ (Move_Atoms rt s) = IZR (MD_iter_ s) * DT /\
  Up_ (Move_Atoms rt s) = Up_ s /\
  F_ (Move_Atoms rt s) = F_ s /\
  Uk_ (Move_Atoms rt s) = Uk_ (kinetic s) /\
  Utot_ (Move_Atoms rt s) = Utot_ (kinetic s) /\
  Tc_ (Move_Atoms rt s) = Tc_ (kinetic s) /\
  V_ (Move_Atoms rt s) = V_ (before_wrap rt s).
Proof.
  rewrite Move_Atoms_split. unfold tick. md_proj.
  destruct (wrap_frame rt (before_wrap rt s))
    as (E1 & E2 & E3 & E4 & E5 & E6 & E7 & E8 & E9 & E10 & _).
  destruct (before_wrap_frame rt s)
    as (B1 & B2 & B3 & B4 & B5 & B6 & B7 & B8 & B9).
  repeat split; congruence.
Qed.

Lemma Move_Atoms_atoms rt s n :
  fair_runtime rt -> sized (before_wrap rt s) -> (n < NumAtom_ s)%nat ->
  (r_ (Move_Atoms rt s) !!! n, r1_ (Move_Atoms rt s) !!! n) =
    wrap_atom (periodiclen_ s)
      (r_ (before_wrap rt s) !!! n, r1_ (before_wrap rt s) !!! n) /\
  sized (Move_Atoms rt s).
Proof.
  intros Hrt Hs Hn. rewrite Move_Atoms_split.
  destruct (before_wrap_frame rt s) as (B1 & B2 & _).
  destruct (wrap_atoms rt (before_wrap rt s) n Hrt Hs) as [E Hsz];
    [rewrite B1; exact Hn|].
  rewrite B2 in E. unfold tick. md_proj. split; [exact E|].
  exact Hsz.
Qed.

(** ** Components and sums *)

Lemma data_vadd a b i : data (a + b)%v4 i = data a i + data b i.
Proof. destruct i as [|[|[|i]]]; reflexivity. Qed.

Lemma data_vsub a b i : data (a - b)%v4 i = data a i - data b i.
Proof. destruct i as [|[|[|i]]]; reflexivity. Qed.

Lemma data_vmul a b i : data (a * b)%v4 i = data a i * data b i.
Proof. destruct i as [|[|[|i]]]; reflexivity. Qed.

Lemma data_vdiv a b i : data (a / b)%v4 i = data a i / data b i.
Proof. destruct i as [|[|[|i]]]; reflexivity. Qed.

Lemma data_splat c i : data (splat c) i = c.
Proof. destruct i as [|[|[|i]]]; reflexivity. Qed.

Lemma Vector4_eq a b : (forall i, data a i = data b i) -> a = b.
Proof.
  intros H. destruct a as [ax ay az aw], b as [bx by' bz bw].
  pose proof (H 0%nat) as H0. pose proof (H 1%nat) as H1.
  pose proof (H 2%nat) as H2. pose proof (H 3%nat) as H3.
  simpl in *. congruence.
Qed.

Lemma triple_eq {A B C : Type} (a x : A) (b y : B) (c z : C) :
  (a, b, c) = (x, y, z) -> a = x /\ b = y /\ c = z.
Proof. intros E. inversion E. auto. Qed.

Lemma pair_eq {A B : Type} (a x : A) (b y : B) :
  (a, b) = (x, y) -> a = x /\ b = y.
Proof. intros E. inversion E. auto. Qed.

Lemma pair_proj {A B : Type} (a : A) (b : B) (w : A * B) :
  (a, b) = w -> a = fst w /\ b = snd w.
Proof. intros <-. auto. Qed.

Ltac data_norm :=
  repeat first
    [ rewrite data_vadd | rewrite data_vsub | rewrite data_vmul
    | rewrite data_vdiv | rewrite data_splat ].

Lemma for_loop_Rsum {A : Type} (f : A -> R) (l : list A) (a : R) :
  for_loop l (fun n acc => acc + f n) a = a + Rsum (map f l).
Proof.
  revert a. induction l as [|x l IH]; intros a.
  - rewrite for_loop_nil. unfold Rsum. cbn [map fold_right]. lra.
  - rewrite for_loop_cons, IH. unfold Rsum. cbn [map fold_right]. lra.
Qed.

Lemma kinetic_Uk s : Uk_ (kinetic s) = kinetic_energy (NumAtom_ s) (V_ s).
Proof.
  unfold kinetic, kinetic_energy, speed2. md_proj.
  rewrite for_loop_Rsum. lra.
Qed.

Lemma kinetic_Utot s :
  Utot_ (kinetic s) = kinetic_energy (NumAtom_ s) (V_ s) + Up_ s.
Proof. rewrite <- kinetic_Uk. reflexivity. Qed.

Lemma kinetic_Tc_energy s :
  Tc_ (kinetic s) =
  kinetic_energy (NumAtom_ s) (V_ s) / (1.5 * INR (NumAtom_ s)).
Proof. rewrite <- kinetic_Uk. reflexivity. Qed.

(** C2. On a call of [Move_Atoms] with step counter at least 2, the kernel
    gives every atom the position [2 r - prior_r + dt^2 F], the velocity
    [0.5 (new_r - prior_r) / dt] with the prior position of the entry, and
    the prior position [r] of the entry; the call returns that velocity
    and the periodic boundary treatment of that position and prior
    position. *)
Theorem C2_verlet_step rt s n :
  fair_runtime rt -> sized s -> (n < NumAtom_ s)%nat -> (2 <= MD_iter_ s)%Z ->
  let r := r_ s !!! n in
  let prior_r := r1_ s !!! n in
  let F := F_ s !!! n in
  let new_r := r_ (before_wrap rt s) !!! n in
  let new_V := V_ (before_wrap rt s) !!! n in
  (forall i, data new_r i =
     2.0 * data r i - data prior_r i + data F i * (DT * DT)) /\
  (forall i, data new_V i = 0.5 * (data new_r i - data prior_r i) / DT) /\
  r1_ (before_wrap rt s) !!! n = r /\
  V_ (Move_Atoms rt s) !!! n = new_V /\
  (r_ (Move_Atoms rt s) !!! n, r1_ (Move_Atoms rt s) !!! n) =
    wrap_atom (periodiclen_ s) (new_r, r).
Proof.
  intros Hrt Hs Hn Hiter r prior_r F new_r new_V.
  destruct (before_wrap_steady rt s n Hrt Hs Hn) as [E Hsz]; [lia|].
  unfold verlet_atom in E. apply triple_eq in E as (Er & Er1 & EV).
  fold r prior_r F in Er, Er1, EV. fold new_r in Er. fold new_V in EV.
  split; [|split; [|split; [|split]]].
  - intros i. rewrite Er. data_norm. reflexivity.
  - intros i. rewrite EV, Er. data_norm. reflexivity.
  - exact Er1.
  - destruct (Move_Atoms_frame rt s)
      as (_ & _ & _ & _ & _ & _ & _ & _ & _ & EVm).
    rewrite EVm. reflexivity.
  - destruct (Move_Atoms_atoms rt s n Hrt Hsz Hn) as [Ew _].
    rewrite Ew, Er1. reflexivity.
Qed.

Lemma C2_verlet_step_witness :
  let s := four_atoms at_rest at_rest at_rest at_rest 2 4 0 in
  r1_ (before_wrap sequential s) !!! 0%nat = r_ s !!! 0%nat.
Proof.
  intros s.
  refine (proj1 (proj2 (proj2
    (C2_verlet_step sequential s 0%nat sequential_fair _ _ _)))).
  - apply sized_four_atoms; reflexivity.
  - simpl. lia.
  - simpl. lia.
Defined.

(** ** What the calls leave unchanged *)

Lemma Calc_Forces_frame rt s :
  r_ (Calc_Forces rt s) = r_ s /\ r1_ (Calc_Forces rt s) = r1_ s /\
  V_ (Calc_Forces rt s) = V_ s /\
  MD_iter_ (Calc_Forces rt s) = MD_iter_ s /\
  t_ (Calc_Forces rt s) = t_ s /\ Uk_ (Calc_Forces rt s) = Uk_ s /\
  NumAtom_ (Calc_Forces rt s) = NumAtom_ s /\
  Utot_ (Calc_Forces rt s) = Utot_ s /\ Tc_ (Calc_Forces rt s) = Tc_ s /\
  Tg_ (Calc_Forces rt s) = Tg_ s /\ lat_ (Calc_Forces rt s) = lat_ s /\
  Nc_ (Calc_Forces rt s) = Nc_ s /\ scale_ (Calc_Forces rt s) = scale_ s /\
  periodiclen_ (Calc_Forces rt s) = periodiclen_ s /\
  V_dev_ (Calc_Forces rt s) = V_dev_ s /\
  r1_dev_ (Calc_Forces rt s) = r1_dev_ s.
Proof. md_open s. repeat split; reflexivity. Qed.

Lemma MD_initPos_frame s :
  MD_iter_ (MD_initPos s) = MD_iter_ s /\ V_ (MD_initPos s) = V_ s /\
  Tg_ (MD_initPos s) = Tg_ s /\ lat_ (MD_initPos s) = lat_ s /\
  Nc_ (MD_initPos s) = Nc_ s.
Proof.
  unfold MD_initPos. destruct (for_loop _ _ _) as [r n]. md_proj.
  destruct (sum3 n r) as [[sx sy] sz]. md_proj. repeat split; reflexivity.
Qed.

Lemma MD_initVel_frame mr s :
  MD_iter_ (MD_initVel mr s) = MD_iter_ s /\ r_ (MD_initVel mr s) = r_ s /\
  NumAtom_ (MD_initVel mr s) = NumAtom_ s /\ lat_ (MD_initVel mr s) = lat_ s /\
  Nc_ (MD_initVel mr s) = Nc_ s.
Proof.
  unfold MD_initVel. destruct (generate _ _ _) as [V mr']. md_proj.
  destruct (sum3 _ V) as [[sx sy] sz]. md_proj. repeat split; reflexivity.
Qed.

Lemma set_periodiclen_frame v s :
  MD_iter_ (set_periodiclen v s) = MD_iter_ s /\
  NumAtom_ (set_periodiclen v s) = NumAtom_ s /\
  F_ (set_periodiclen v s) = F_ s /\ V_ (set_periodiclen v s) = V_ s /\
  r_ (set_periodiclen v s) = r_ s /\ r1_ (set_periodiclen v s) = r1_ s /\
  F_dev_ (set_periodiclen v s) = F_dev_ s /\
  V_dev_ (set_periodiclen v s) = V_dev_ s /\
  r_dev_ (set_periodiclen v s) = r_dev_ s /\
  r1_dev_ (set_periodiclen v s) = r1_dev_ s.
Proof. destruct s. repeat split; reflexivity. Qed.

Lemma construct_unfold nc scale u mr :
  construct nc scale u mr =
  set_periodiclen
    (lat_ (MD_initVel mr (MD_initPos (members_initialised nc scale u)))
     * INR (Nc_ (MD_initVel mr (MD_initPos (members_initialised nc scale u)))))
    (MD_initVel mr (MD_initPos (members_initialised nc scale u))).
Proof. reflexivity. Qed.

Lemma members_initialised_fields nc scale u :
  let s := members_initialised nc scale u in
  MD_iter_ s = 1%Z /\ Nc_ s = nc /\
  length (F_ s) = (4 * nc ^ 3)%nat /\ length (V_ s) = (4 * nc ^ 3)%nat /\
  length (r_ s) = (4 * nc ^ 3)%nat /\ length (r1_ s) = (4 * nc ^ 3)%nat /\
  length (F_dev_ s) = (4 * nc ^ 3)%nat /\
  length (V_dev_ s) = (4 * nc ^ 3)%nat /\
  length (r_dev_ s) = (4 * nc ^ 3)%nat /\
  length (r1_dev_ s) = (4 * nc ^ 3)%nat.
Proof.
  assert (size : (nc * nc * nc * 4 = 4 * nc ^ 3)%nat)
    by (cbn [Nat.pow]; lia).
  unfold members_initialised. md_proj. unfold host_vector, device_vector.
  rewrite !length_replicate, !length_map, !length_seq.
  repeat split; (reflexivity || exact size).
Qed.

Lemma construct_iter nc scale u mr : MD_iter_ (construct nc scale u mr) = 1%Z.
Proof.
  rewrite construct_unfold, (proj1 (set_periodiclen_frame _ _)).
  rewrite (proj1 (MD_initVel_frame mr _)), (proj1 (MD_initPos_frame _)).
  apply members_initialised_fields.
Qed.

(** C10. [Calc_Forces] changes, on the host, only the force array and the
    potential energy: positions, prior positions, velocities, step
    counter, simulated time, kinetic energy and atom count are those of
    the entry (as are the total energy, both temperatures and the
    geometry). *)
Theorem C10_Calc_Forces_frame rt s :
  r_ (Calc_Forces rt s) = r_ s /\ r1_ (Calc_Forces rt s) = r1_ s /\
  V_ (Calc_Forces rt s) = V_ s /\
  MD_iter_ (Calc_Forces rt s) = MD_iter_ s /\
  t_ (Calc_Forces rt s) = t_ s /\ Uk_ (Calc_Forces rt s) = Uk_ s /\
  NumAtom_ (Calc_Forces rt s) = NumAtom_ s /\
  Utot_ (Calc_Forces rt s) = Utot_ s /\ Tc_ (Calc_Forces rt s) = Tc_ s /\
  Tg_ (Calc_Forces rt s) = Tg_ s /\ lat_ (Calc_Forces rt s) = lat_ s /\
  Nc_ (Calc_Forces rt s) = Nc_ s /\ scale_ (Calc_Forces rt s) = scale_ s /\
  periodiclen_ (Calc_Forces rt s) = periodiclen_ s.
Proof.
  destruct (Calc_Forces_frame rt s)
    as (E1 & E2 & E3 & E4 & E5 & E6 & E7 & E8 & E9 & E10 & E11 & E12 & E13
        & E14 & _).
  repeat split; assumption.
Qed.

Lemma before_wrap_sized rt s n :
  fair_runtime rt -> sized s -> (n < NumAtom_ s)%nat ->
  sized (before_wrap rt s).
Proof.
  intros Hrt Hs Hn. destruct (Z.eq_dec (MD_iter_ s) 1%Z) as [E|E].
  - apply (before_wrap_first rt s n Hrt Hs Hn E).
  - apply (before_wrap_steady rt s n Hrt Hs Hn E).
Qed.

(** ** The diagnostics *)

Lemma four_atoms_steady_V r r1 V F L Up n :
  length r = 4%nat -> length r1 = 4%nat -> length V = 4%nat ->
  length F = 4%nat -> (n < 4)%nat ->
  V_ (Move_Atoms sequential (four_atoms r r1 V F 2 L Up)) !!! n =
  (splat 0.5 *
   (splat 2.0 * r !!! n - r1 !!! n + F !!! n * (splat DT * splat DT)
    - r1 !!! n) / splat DT)%v4.
Proof.
  intros Hr Hr1 HV HF Hn.
  destruct (Move_Atoms_frame sequential (four_atoms r r1 V F 2 L Up))
    as (_ & _ & _ & _ & _ & _ & _ & _ & _ & EVm).
  rewrite EVm.
  destruct (before_wrap_steady sequential (four_atoms r r1 V F 2 L Up) n
              sequential_fair) as [E _];
    [apply sized_four_atoms; assumption|exact Hn|discriminate|].
  apply triple_eq in E as (_ & _ & EV). exact EV.
Qed.

(** The kinetic energy reported by a call is not that of the velocities
    the call has written. *)
Lemma C7_counterexample :
  let s' := Move_Atoms sequential
              (four_atoms fcc4 fcc4 one_moving at_rest 2 4 0) in
  Uk_ s' <> 0.5 * Rsum (map (fun n => speed2 (V_ s' !!! n))
                          (seq 0 (NumAtom_ s'))).
Proof.
  intros s'. subst s'.
  destruct (Move_Atoms_frame sequential
              (four_atoms fcc4 fcc4 one_moving at_rest 2 4 0))
    as (EN & _ & _ & _ & _ & _ & EUk & _).
  rewrite EUk, EN, kinetic_Uk.
  change (NumAtom_ (four_atoms fcc4 fcc4 one_moving at_rest 2 4 0))
    with 4%nat.
  unfold kinetic_energy. cbn [seq map Rsum fold_right].
  rewrite !four_atoms_steady_V by (reflexivity || lia).
  change (V_ (four_atoms fcc4 fcc4 one_moving at_rest 2 4 0))
    with one_moving.
  change (one_moving !!! 0%nat) with (mkV4 1 0 0 0).
  change (one_moving !!! 1%nat) with (splat 0).
  change (one_moving !!! 2%nat) with (splat 0).
  change (one_moving !!! 3%nat) with (splat 0).
  change (fcc4 !!! 0%nat) with (mkV4 0 0 0 0).
  change (fcc4 !!! 1%nat) with (mkV4 2 2 0 0).
  change (fcc4 !!! 2%nat) with (mkV4 0 2 2 0).
  change (fcc4 !!! 3%nat) with (mkV4 2 0 2 0).
  change (at_rest !!! 0%nat) with (splat 0).
  change (at_rest !!! 1%nat) with (splat 0).
  change (at_rest !!! 2%nat) with (splat 0).
  change (at_rest !!! 3%nat) with (splat 0).
  unfold speed2, norm2. data_norm. cbn [data vx vy vz vw]. unfold DT.
  lra.
Qed.

(** ** The periodic box *)

Lemma wrap_scalar_cases L x p :
  let '(x', p') := wrap_scalar L x p in
  (0 <= x <= L -> x' = x /\ p' = p) /\
  (L < x -> x' = x - L /\ p' = p - L) /\
  (x <= L -> x < 0 -> x' = x + L /\ p' = p + L) /\
  x' - x = p' - p /\
  (- L <= x <= 2 * L -> 0 <= x' <= L).
Proof.
  unfold wrap_scalar.
  destruct (Rgt_dec x L) as [H|H]; [|destruct (Rlt_dec x 0.0) as [H0|H0]];
    repeat split; intros; lra.
Qed.

(** C4, as amended. The periodic boundary treatment that ends every call of
    [Move_Atoms] leaves a position component in [0, L] unchanged ([L]
    itself included), maps [L + eps] to [eps] and, the box length being
    non-negative, [- eps] to [L - eps],
    changes the same component of the prior position by the same amount,
    and brings every component that the kernel left in [- L, 2 L] into
    [0, L]. *)
Theorem C4_periodic_wrap rt s n i :
  fair_runtime rt -> sized s -> (n < NumAtom_ s)%nat -> (i < 3)%nat ->
  let L := periodiclen_ s in
  let x := data (r_ (before_wrap rt s) !!! n) i in
  let p := data (r1_ (before_wrap rt s) !!! n) i in
  let x' := data (r_ (Move_Atoms rt s) !!! n) i in
  let p' := data (r1_ (Move_Atoms rt s) !!! n) i in
  (0 <= x <= L -> x' = x /\ p' = p) /\
  (forall eps, 0 < eps -> x = L + eps -> x' = eps /\ p' = p - L) /\
  (forall eps, 0 < eps -> 0 <= L -> x = - eps ->
     x' = L - eps /\ p' = p + L) /\
  x' - x = p' - p /\
  (- L <= x <= 2 * L -> 0 <= x' <= L).
Proof.
  intros Hrt Hs Hn Hi L x p x' p'.
  pose proof (before_wrap_sized rt s n Hrt Hs Hn) as Hsz.
  destruct (Move_Atoms_atoms rt s n Hrt Hsz Hn) as [Ew _].
  apply pair_proj in Ew as [Er Er1].
  pose proof (wrap_atom_component L (r_ (before_wrap rt s) !!! n)
                (r1_ (before_wrap rt s) !!! n) i Hi) as Ec.
  fold L in Er, Er1. rewrite <- Er, <- Er1 in Ec.
  fold x p x' p' in Ec.
  pose proof (wrap_scalar_cases L x p) as Hc. rewrite <- Ec in Hc.
  destruct Hc as (H1 & H2 & H3 & H4 & H5).
  split; [exact H1|]. split; [|split; [|split; [exact H4|exact H5]]].
  - intros eps He Hx. destruct H2 as [A B]; [lra|]. split; lra.
  - intros eps He HL Hx. destruct H3 as [A B]; [lra|lra|]. split; lra.
Qed.

Lemma C4_periodic_wrap_witness :
  let s := four_atoms fcc4 fcc4_prior at_rest at_rest 2 4 0 in
  data (r_ (Move_Atoms sequential s) !!! 1%nat) 0
  - data (r_ (before_wrap sequential s) !!! 1%nat) 0 =
  data (r1_ (Move_Atoms sequential s) !!! 1%nat) 0
  - data (r1_ (before_wrap sequential s) !!! 1%nat) 0.
Proof.
  intros s.
  refine (proj1 (proj2 (proj2 (proj2
    (C4_periodic_wrap sequential s 1%nat 0%nat sequential_fair _ _ _))))).
  - apply sized_four_atoms; reflexivity.
  - cbn. lia.
  - lia.
Defined.

(** From positions inside the box, a call can return a position component
    equal to the box length. *)
Lemma C4_counterexample :
  let s := four_atoms fcc4 fcc4_prior at_rest at_rest 2 4 0 in
  (forall n i, (n < 4)%nat -> (i < 3)%nat ->
     0 <= data (r_ s !!! n) i < periodiclen_ s) /\
  ~ (0 <= data (r_ (Move_Atoms sequential s) !!! 1%nat) 0 < periodiclen_ s).
Proof.
  intros s. split.
  - intros n i Hn Hi. change (periodiclen_ s) with 4. change (r_ s) with fcc4.
    destruct n as [|[|[|[|n]]]]; try lia;
      destruct i as [|[|[|i]]]; try lia;
      cbn [fcc4 lookup_total list_lookup_total data vx vy vz]; lra.
  - assert (Hs : sized s) by (apply sized_four_atoms; reflexivity).
    assert (Hn : (1 < NumAtom_ s)%nat) by (cbn; lia).
    destruct (before_wrap_steady sequential s 1%nat sequential_fair Hs Hn)
      as [E Hsz]; [discriminate|].
    apply triple_eq in E as (Er & Er1 & _).
    destruct (Move_Atoms_atoms sequential s 1%nat sequential_fair Hsz Hn)
      as [Ew _].
    apply pair_proj in Ew as [Ex _].
    pose proof (wrap_atom_component (periodiclen_ s)
                  (r_ (before_wrap sequential s) !!! 1%nat)
                  (r1_ (before_wrap sequential s) !!! 1%nat) 0%nat
                  ltac:(lia)) as Ec.
    rewrite <- Ex in Ec. apply pair_proj in Ec as [Ec _].
    rewrite Ec, Er.
    change (periodiclen_ s) with 4. change (r_ s !!! 1%nat) with (mkV4 2 2 0 0).
    change (r1_ s !!! 1%nat) with (mkV4 0 2 0 0).
    change (F_ s !!! 1%nat) with (splat 0).
    data_norm. cbn [data vx vy vz vw].
    unfold wrap_scalar.
    destruct (Rgt_dec _ 4) as [H|H]; [unfold DT in H; lra|].
    destruct (Rlt_dec _ 0.0) as [H0|H0]; [unfold DT in H0; lra|].
    cbn [fst]. unfold DT. lra.
Qed.

(** ** The potential energy *)

Lemma host_r2_dist2 r L n m i j k :
  host_r2 r L n m i j k = dist2 (displacement r L n m i j k).
Proof. reflexivity. Qed.

Lemma energy_body_unroll r N L tid n Up :
  energy_body r N L tid n Up =
  for_loop (images N ncp_) (energy_step r L (tid n) n) Up.
Proof.
  unfold energy_body.
  rewrite (nest4 (fun m i j k Up =>
    if not_self n m i j k then
      let r2 := host_r2 r L n m i j k in
      if Rle_dec r2 rc2_ then local_add (tid n) (pair_energy r2) Up else Up
    else Up)).
  apply for_loop_ext. intros [m [[i j] k]] c. reflexivity.
Qed.

Lemma combine_local_add tid x (c : list R) :
  (tid < length c)%nat ->
  combine_plus (local_add tid x c) = combine_plus c + x.
Proof.
  unfold local_add, combine_plus. revert tid.
  induction c as [|a c IH]; intros tid H; [cbn in H; lia|].
  destruct tid as [|tid].
  - change (a + x + fold_right Rplus 0 c = a + fold_right Rplus 0 c + x). lra.
  - change (a + fold_right Rplus 0 (<[tid := c !!! tid + x]> c) =
            a + fold_right Rplus 0 c + x).
    cbn [length] in H. rewrite IH by lia. lra.
Qed.

Lemma length_local_add tid x (c : list R) :
  length (local_add tid x c) = length c.
Proof. apply length_insert. Qed.

Lemma energy_steps r L tid n (ps : list (nat * (Z * Z * Z))) (c : list R) :
  (tid < length c)%nat ->
  combine_plus (for_loop ps (energy_step r L tid n) c) =
    combine_plus c +
    Rsum (map (fun '(m, (i, j, k)) =>
                 pair_energy (dist2 (displacement r L n m i j k)))
            (List.filter (fun '(m, (i, j, k)) =>
               not_self n m i j k &&
               in_cutoff (dist2 (displacement r L n m i j k)) rc2_) ps)) /\
  length (for_loop ps (energy_step r L tid n) c) = length c.
Proof.
  revert c. induction ps as [|[m [[i j] k]] ps IH]; intros c H.
  - rewrite for_loop_nil. unfold Rsum. cbn [List.filter map fold_right].
    split; [lra|reflexivity].
  - rewrite for_loop_cons. cbn [List.filter]. unfold energy_step at 2 4.
    rewrite host_r2_dist2. unfold in_cutoff. cbv zeta.
    destruct (not_self n m i j k); cbn [andb]; [|apply IH, H].
    destruct (Rle_dec _ rc2_); [|apply IH, H].
    destruct (IH (local_add tid
                    (pair_energy (dist2 (displacement r L n m i j k))) c))
      as [E Len]; [rewrite length_local_add; exact H|].
    rewrite E, Len, combine_local_add, length_local_add by exact H.
    unfold Rsum. cbn [map fold_right]. split; [apply Rplus_assoc|reflexivity].
Qed.

Lemma energy_body_sum r N L tid n (c : list R) :
  (tid n < length c)%nat ->
  combine_plus (energy_body r N L tid n c) =
    combine_plus c + atom_energy r N L n /\
  length (energy_body r N L tid n c) = length c.
Proof.
  intros H. rewrite energy_body_unroll. apply energy_steps, H.
Qed.

Lemma Rsum_app l1 l2 : Rsum (l1 ++ l2) = Rsum l1 + Rsum l2.
Proof.
  unfold Rsum. induction l1 as [|a l1 IH]; cbn [app fold_right]; lra.
Qed.

Lemma Rsum_Permutation l1 l2 : Permutation l1 l2 -> Rsum l1 = Rsum l2.
Proof.
  unfold Rsum. induction 1; cbn [fold_right]; lra.
Qed.

Lemma energy_region r N L tid (o : list nat) (c : list R) :
  (forall n, (tid n < length c)%nat) ->
  combine_plus (for_loop o (energy_body r N L tid) c) =
    combine_plus c + Rsum (map (atom_energy r N L) o) /\
  length (for_loop o (energy_body r N L tid) c) = length c.
Proof.
  intros H. revert c H. induction o as [|n o IH]; intros c H.
  - rewrite for_loop_nil. unfold Rsum. cbn [map fold_right].
    split; [lra|reflexivity].
  - rewrite for_loop_cons.
    destruct (energy_body_sum r N L tid n c (H n)) as [E Len].
    destruct (IH (energy_body r N L tid n c)) as [E' Len'].
    { intros k. rewrite Len. apply H. }
    rewrite E', Len', E, Len. unfold Rsum. cbn [map fold_right].
    split; [lra|reflexivity].
Qed.

Lemma combine_new workers : combine_plus (combinable_new workers) = 0.
Proof.
  unfold combine_plus, combinable_new.
  induction workers as [|w IH]; cbn [replicate fold_right]; lra.
Qed.

(** The potential energy left by [Calc_Forces], for every schedule and
    every assignment of the iterations to the workers. *)
Lemma Calc_Forces_Up rt s :
  fair_runtime rt ->
  Up_ (Calc_Forces rt s) =
  Rsum (map (atom_energy (r_ s) (NumAtom_ s) (periodiclen_ s))
          (seq 0 (NumAtom_ s))).
Proof.
  intros (_ & _ & Fe & _ & _ & Hw). md_open s. calc_forces_unfold.
  unfold parallel_for. rewrite Nat.sub_0_r.
  destruct (energy_region r N L (worker_of rt) (order_energy rt (seq 0 N))
              (combinable_new (workers rt))) as [E _].
  { intros n. unfold combinable_new. rewrite length_replicate. apply Hw. }
  rewrite E, combine_new, Rplus_0_l.
  apply Rsum_Permutation, Permutation_map, Fe.
Qed.

(** ** Ordered and unordered pairs *)

Lemma Rsum_flat_map {A B : Type} (g : B -> R) (h : A -> list B) (l : list A) :
  Rsum (map g (flat_map h l)) = Rsum (map (fun a => Rsum (map g (h a))) l).
Proof.
  induction l as [|a l IH]; [reflexivity|].
  cbn [flat_map map]. rewrite map_app, Rsum_app, IH. reflexivity.
Qed.

Lemma filter_flat_map {A B : Type} (P : B -> bool) (h : A -> list B) l :
  List.filter P (flat_map h l) = flat_map (fun a => List.filter P (h a)) l.
Proof.
  induction l as [|a l IH]; [reflexivity|].
  cbn [flat_map]. rewrite List.filter_app, IH. reflexivity.
Qed.

Lemma filter_map_comm {A B : Type} (P : B -> bool) (h : A -> B) l :
  List.filter P (map h l) = map h (List.filter (fun a => P (h a)) l).
Proof.
  induction l as [|a l IH]; [reflexivity|].
  cbn [map List.filter]. rewrite IH. destruct (P (h a)); reflexivity.
Qed.

Lemma Rsum_filter_split {A : Type} (g : A -> R) (P : A -> bool) l :
  Rsum (map g l) =
  Rsum (map g (List.filter P l)) +
  Rsum (map g (List.filter (fun a => negb (P a)) l)).
Proof.
  unfold Rsum. induction l as [|a l IH]; cbn [map List.filter fold_right].
  - lra.
  - destruct (P a); cbn [negb map fold_right]; lra.
Qed.

Lemma Rsum_map_ext {A : Type} (g h : A -> R) l :
  (forall a, In a l -> g a = h a) -> Rsum (map g l) = Rsum (map h l).
Proof.
  intros E. f_equal. apply map_ext_in, E.
Qed.

Lemma Rsum_scale {A : Type} (g : A -> R) (c : R) l :
  Rsum (map (fun a => c * g a) l) = c * Rsum (map g l).
Proof.
  unfold Rsum. induction l as [|a l IH]; cbn [map fold_right]; [lra|].
  rewrite IH. lra.
Qed.

(** The sum over the atoms of their energies is the sum over the ordered
    pairs that pass the two tests. *)
Lemma atom_energy_pairs r N L :
  Rsum (map (atom_energy r N L) (seq 0 N)) =
  Rsum (map (fun p => pair_energy (pair_r2 r L p))
          (List.filter (interacting r L rc2_) (all_pairs N ncp_))).
Proof.
  unfold all_pairs. rewrite filter_flat_map, Rsum_flat_map.
  apply Rsum_map_ext. intros n _. unfold atom_energy, force_pairs.
  rewrite filter_map_comm, map_map. f_equal.
  erewrite List.filter_ext; [apply map_ext|].
  - intros [m [[i j] k]]. reflexivity.
  - intros [m [[i j] k]]. reflexivity.
Qed.

Lemma in_all_pairs N ncp n m i j k :
  In (n, (m, (i, j, k))) (all_pairs N ncp) <->
  (n < N)%nat /\ (m < N)%nat /\
  (- ncp <= i <= ncp)%Z /\ (- ncp <= j <= ncp)%Z /\ (- ncp <= k <= ncp)%Z.
Proof.
  unfold all_pairs. rewrite in_flat_map. split.
  - intros [n' [Hn H]]. apply in_map_iff in H as [q [E Hq]].
    inversion E; subst. apply in_seq in Hn. apply in_images in Hq.
    split; [lia|exact Hq].
  - intros [Hn Hq]. exists n. split; [apply in_seq; lia|].
    apply in_map_iff. exists (m, (i, j, k)). split; [reflexivity|].
    apply in_images, Hq.
Qed.

Lemma NoDup_all_pairs N ncp : NoDup (all_pairs N ncp).
Proof.
  unfold all_pairs. apply NoDup_flat_map; [apply NoDup_seq| |].
  - intros n _. apply NoDup_fmap_2; [|apply NoDup_images].
    intros a b E. inversion E. reflexivity.
  - intros a b [n q] _ _ Ha Hb.
    apply in_map_iff in Ha as [? [Ea _]], Hb as [? [Eb _]]. congruence.
Qed.

Lemma mirror_mirror p : mirror (mirror p) = p.
Proof.
  destruct p as [n [m [[i j] k]]]. unfold mirror.
  rewrite !Z.opp_involutive. reflexivity.
Qed.

Lemma mirror_r2 r L p : pair_r2 r L (mirror p) = pair_r2 r L p.
Proof.
  destruct p as [n [m [[i j] k]]].
  unfold mirror, pair_r2, displacement, image_shift, dist2.
  destruct (r !!! n) as [nx ny nz nw], (r !!! m) as [mx my mz mw].
  cbn [vsub vadd vx vy vz vw]. rewrite !opp_IZR. ring.
Qed.

Lemma mirror_not_self n m i j k :
  not_self m n (- i) (- j) (- k) = not_self n m i j k.
Proof.
  destruct (not_self n m i j k) eqn:E.
  - apply not_self_true. apply not_self_true in E. intros H. apply E. lia.
  - apply not_self_false. apply not_self_false in E. lia.
Qed.

Lemma mirror_interacting r L rc2 p :
  interacting r L rc2 (mirror p) = interacting r L rc2 p.
Proof.
  unfold interacting. rewrite <- (mirror_r2 r L p).
  destruct p as [n [m [[i j] k]]]. cbn [mirror].
  rewrite mirror_not_self. reflexivity.
Qed.

Lemma mirror_in_all_pairs N ncp p :
  In p (all_pairs N ncp) -> In (mirror p) (all_pairs N ncp).
Proof.
  destruct p as [n [m [[i j] k]]]. cbn [mirror].
  rewrite !in_all_pairs. lia.
Qed.

Lemma lex_pos_opp i j k :
  (i, j, k) <> (0, 0, 0)%Z -> lex_pos (- i) (- j) (- k) = negb (lex_pos i j k).
Proof.
  intros H. unfold lex_pos.
  destruct (Z.ltb_spec 0 i), (Z.ltb_spec 0 (- i)), (Z.eqb_spec i 0),
    (Z.eqb_spec (- i) 0), (Z.ltb_spec 0 j), (Z.ltb_spec 0 (- j)),
    (Z.eqb_spec j 0), (Z.eqb_spec (- j) 0), (Z.ltb_spec 0 k),
    (Z.ltb_spec 0 (- k)); cbn [orb andb negb]; try reflexivity; try lia.
  exfalso. apply H. f_equal; [f_equal|]; lia.
Qed.

Lemma representative_mirror n m i j k :
  not_self n m i j k = true ->
  representative (mirror (n, (m, (i, j, k)))) =
  negb (representative (n, (m, (i, j, k)))).
Proof.
  intros H. apply not_self_true in H. cbn [mirror representative].
  destruct (Nat.ltb_spec n m), (Nat.ltb_spec m n), (Nat.eqb_spec n m),
    (Nat.eqb_spec m n); cbn [orb andb negb]; try reflexivity; try lia.
  apply lex_pos_opp. intros E. inversion E. apply H. auto.
Qed.

Lemma interacting_not_self r L rc2 n m i j k :
  interacting r L rc2 (n, (m, (i, j, k))) = true ->
  not_self n m i j k = true.
Proof.
  unfold interacting. intros H. apply andb_true_iff in H as [H _]. exact H.
Qed.

Lemma filter_filter_and {A : Type} (P Q : A -> bool) l :
  List.filter P (List.filter Q l) = List.filter (fun a => P a && Q a) l.
Proof.
  induction l as [|a l IH]; [reflexivity|]. cbn [List.filter].
  destruct (Q a); cbn [List.filter]; rewrite IH;
    destruct (P a); reflexivity.
Qed.

Lemma NoDup_bfilter {A : Type} (P : A -> bool) l :
  NoDup l -> NoDup (List.filter P l).
Proof.
  intros H. apply NoDup_ListNoDup, List.NoDup_filter, NoDup_ListNoDup, H.
Qed.

Lemma mirror_halves r N L :
  Permutation
    (List.filter (fun p => negb (representative p))
       (List.filter (interacting r L rc2_) (all_pairs N ncp_)))
    (map mirror
       (List.filter representative
          (List.filter (interacting r L rc2_) (all_pairs N ncp_)))).
Proof.
  apply NoDup_Permutation.
  - apply NoDup_bfilter, NoDup_bfilter, NoDup_all_pairs.
  - apply NoDup_fmap_2.
    + intros a b E. rewrite <- (mirror_mirror a), <- (mirror_mirror b).
      f_equal. exact E.
    + apply NoDup_bfilter, NoDup_bfilter, NoDup_all_pairs.
  - intros p. rewrite !list_elem_of_In, in_map_iff. split.
    + intros H. apply filter_In in H as [H Hrep].
      apply filter_In in H as [Hin Hint].
      exists (mirror p). split; [apply mirror_mirror|].
      apply filter_In. split.
      * apply filter_In. split; [apply mirror_in_all_pairs, Hin|].
        rewrite mirror_interacting. exact Hint.
      * destruct p as [n [m [[i j] k]]].
        rewrite representative_mirror
          by (eapply interacting_not_self, Hint).
        exact Hrep.
    + intros [q [<- H]]. apply filter_In in H as [H Hrep].
      apply filter_In in H as [Hin Hint].
      apply filter_In. split.
      * apply filter_In. split; [apply mirror_in_all_pairs, Hin|].
        rewrite mirror_interacting. exact Hint.
      * destruct q as [n [m [[i j] k]]].
        rewrite representative_mirror
          by (eapply interacting_not_self, Hint).
        rewrite Hrep. reflexivity.
Qed.

Lemma pair_energy_half r2 : 2 * pair_energy r2 = pair_potential r2.
Proof. unfold pair_energy, pair_potential. cbv zeta. lra. Qed.

(** Every unordered pair is visited twice by the loops. *)
Lemma ordered_twice r N L :
  Rsum (map (fun p => pair_energy (pair_r2 r L p))
          (List.filter (interacting r L rc2_) (all_pairs N ncp_))) =
  Rsum (map (fun p => pair_potential (pair_r2 r L p))
          (unordered_pairs r N L)).
Proof.
  rewrite (Rsum_filter_split _ representative).
  rewrite (Rsum_Permutation _ _
             (Permutation_map _ (mirror_halves r N L))).
  rewrite map_map.
  rewrite (Rsum_map_ext (fun p => pair_energy (pair_r2 r L (mirror p)))
             (fun p => pair_energy (pair_r2 r L p)))
    by (intros p _; rewrite mirror_r2; reflexivity).
  rewrite filter_filter_and. unfold unordered_pairs.
  rewrite (Rsum_map_ext (fun p => pair_potential (pair_r2 r L p))
             (fun p => 2 * pair_energy (pair_r2 r L p)))
    by (intros p _; rewrite pair_energy_half; reflexivity).
  rewrite Rsum_scale. lra.
Qed.

Lemma pair_potential_powers r2 :
  0 < r2 ->
  pair_potential r2 = 4.0 * (/ sqrt r2 ^ 12 - / sqrt r2 ^ 6) - Vrc_.
Proof.
  intros H. unfold pair_potential. cbv zeta. rewrite rm6_pow by lra.
  assert (0 < sqrt r2) by (apply sqrt_lt_R0, H).
  field. lra.
Qed.

(** The accumulator of each worker. *)
Lemma local_add_lookup tid x (c : list R) w :
  (tid < length c)%nat ->
  local_add tid x c !!! w = c !!! w + (if decide (w = tid) then x else 0).
Proof.
  intros H. unfold local_add. destruct (decide (w = tid)) as [->|Hne].
  - rewrite list_lookup_total_insert_eq by exact H. reflexivity.
  - rewrite list_lookup_total_insert_ne by congruence. lra.
Qed.

Lemma energy_steps_slot r L tid n (ps : list (nat * (Z * Z * Z)))
    (c : list R) w :
  (tid < length c)%nat ->
  for_loop ps (energy_step r L tid n) c !!! w =
    c !!! w +
    (if decide (w = tid) then
       Rsum (map (fun '(m, (i, j, k)) =>
                    pair_energy (dist2 (displacement r L n m i j k)))
               (List.filter (fun '(m, (i, j, k)) =>
                  not_self n m i j k &&
                  in_cutoff (dist2 (displacement r L n m i j k)) rc2_) ps))
     else 0).
Proof.
  revert c. induction ps as [|[m [[i j] k]] ps IH]; intros c H.
  - rewrite for_loop_nil. unfold Rsum. cbn [List.filter map fold_right].
    destruct (decide (w = tid)); lra.
  - rewrite for_loop_cons. cbn [List.filter]. unfold energy_step at 2.
    rewrite host_r2_dist2. unfold in_cutoff. cbv zeta.
    destruct (not_self n m i j k); cbn [andb]; [|apply IH, H].
    destruct (Rle_dec _ rc2_); [|apply IH, H].
    rewrite IH by (rewrite length_local_add; exact H).
    rewrite local_add_lookup by exact H.
    unfold Rsum. cbn [map fold_right].
    destruct (decide (w = tid)); [apply Rplus_assoc|].
    rewrite Rplus_0_r. reflexivity.
Qed.

Lemma energy_region_slot r N L tid (o : list nat) (c : list R) w :
  (forall n, (tid n < length c)%nat) ->
  for_loop o (energy_body r N L tid) c !!! w =
    c !!! w +
    Rsum (map (fun n => if decide (w = tid n) then atom_energy r N L n else 0)
            o).
Proof.
  intros H. revert c H. induction o as [|n o IH]; intros c H.
  - rewrite for_loop_nil. unfold Rsum. cbn [map fold_right]. lra.
  - rewrite for_loop_cons, IH.
    + rewrite energy_body_unroll, energy_steps_slot by apply H.
      unfold Rsum, atom_energy, force_pairs. cbn [map fold_right].
      apply Rplus_assoc.
    + intros k. destruct (energy_body_sum r N L tid n c (H n)) as [_ Len].
      rewrite Len. apply H.
Qed.

Lemma combinable_new_lookup workers w : combinable_new workers !!! w = 0.
Proof.
  unfold combinable_new. revert w.
  induction workers as [|k IH]; intros w; [reflexivity|].
  destruct w as [|w]; [reflexivity|]. apply IH.
Qed.

Lemma energy_accumulators_slot rt s w :
  fair_runtime rt ->
  energy_accumulators rt s !!! w =
  Rsum (map (fun n => if decide (w = worker_of rt n)
                      then atom_energy (r_ s) (NumAtom_ s) (periodiclen_ s) n
                      else 0)
          (seq 0 (NumAtom_ s))).
Proof.
  intros (_ & _ & Fe & _ & _ & Hw). unfold energy_accumulators, parallel_for.
  rewrite Nat.sub_0_r, energy_region_slot.
  - rewrite combinable_new_lookup, Rplus_0_l.
    apply Rsum_Permutation, Permutation_map, Fe.
  - intros n. unfold combinable_new. rewrite length_replicate. apply Hw.
Qed.

Lemma in_unordered_pairs r N L p :
  In p (unordered_pairs r N L) <->
  In p (all_pairs N ncp_) /\ representative p = true /\
  interacting r L rc2_ p = true.
Proof.
  unfold unordered_pairs. rewrite filter_In, andb_true_iff. tauto.
Qed.

Lemma unordered_one_of_two r N L p :
  In p (all_pairs N ncp_) -> interacting r L rc2_ p = true ->
  (In p (unordered_pairs r N L) <-> ~ In (mirror p) (unordered_pairs r N L)).
Proof.
  intros Hin Hint. rewrite !in_unordered_pairs, mirror_interacting.
  pose proof (mirror_in_all_pairs _ _ _ Hin) as Hm.
  destruct p as [n [m [[i j] k]]].
  rewrite representative_mirror by (eapply interacting_not_self, Hint).
  destruct (representative (n, (m, (i, j, k)))); cbn [negb]; split.
  - intros _ (_ & H & _). discriminate.
  - intros _. auto.
  - intros (_ & H & _). discriminate.
  - intros H. exfalso. apply H. auto.
Qed.

(** ** The device kernel and the CPU accumulation of the specification *)

Lemma spec_cpu_body_unroll r N L n F :
  spec_cpu_force_body r N L n F =
  for_loop (images N ncp_) (spec_cpu_force_step r L n) F.
Proof.
  unfold spec_cpu_force_body.
  rewrite (nest4 (fun m i j k => spec_cpu_force_step r L n (m, (i, j, k)))).
  apply for_loop_ext. intros [m [[i j] k]] c. reflexivity.
Qed.

Lemma spec_cpu_steps r L n (ps : list (nat * (Z * Z * Z))) F :
  (n < length F)%nat ->
  for_loop ps (spec_cpu_force_step r L n) F =
  <[n := for_loop
           (List.filter (fun '(m, (i, j, k)) =>
              not_self n m i j k &&
              in_cutoff (dist2 (displacement r L n m i j k)) rc2_) ps)
           (spec_cpu_accumulate r L n) (F !!! n)]> F.
Proof.
  revert F. induction ps as [|[m [[i j] k]] ps IH]; intros F Hn.
  - rewrite !for_loop_nil. symmetry. apply insert_same, Hn.
  - rewrite for_loop_cons. cbn [List.filter]. unfold spec_cpu_force_step at 2.
    rewrite host_r2_dist2. unfold in_cutoff.
    destruct (not_self n m i j k); cbn [andb]; [|apply IH, Hn].
    destruct (Rle_dec _ rc2_); [|apply IH, Hn].
    rewrite IH by (rewrite length_insert; exact Hn).
    rewrite list_lookup_total_insert_eq by exact Hn.
    rewrite list_insert_insert_eq, for_loop_cons. reflexivity.
Qed.

Lemma accumulate_component r L n m i j k a b c :
  (c < 3)%nat -> data a c = data b c ->
  data (a + pair_force (displacement r L n m i j k))%v4 c =
  data (spec_cpu_accumulate r L n (m, (i, j, k)) b) c.
Proof.
  intros Hc E. unfold spec_cpu_accumulate, pair_force. cbv zeta.
  change (norm2 _ _ _) with (dist2 (displacement r L n m i j k)).
  rewrite !data_set_data by lia. data_norm. rewrite E.
  unfold displacement, image_shift.
  destruct c as [|[|[|c]]]; try lia; reflexivity.
Qed.

Lemma accumulate_components r L n (ps : list (nat * (Z * Z * Z))) a b c :
  (c < 3)%nat -> data a c = data b c ->
  data (fold_left vadd
          (map (fun '(m, (i, j, k)) =>
                  pair_force (displacement r L n m i j k)) ps) a) c =
  data (for_loop ps (spec_cpu_accumulate r L n) b) c.
Proof.
  intros Hc. revert a b. induction ps as [|[m [[i j] k]] ps IH]; intros a b E.
  - exact E.
  - rewrite for_loop_cons. cbn [map fold_left]. apply IH.
    apply accumulate_component; assumption.
Qed.

Lemma assign3_components n x y z (F : list Vector4) :
  (n < length F)%nat ->
  data (assign3 n x y z F !!! n) 0 = x /\
  data (assign3 n x y z F !!! n) 1 = y /\
  data (assign3 n x y z F !!! n) 2 = z /\
  vw (assign3 n x y z F !!! n) = vw (F !!! n).
Proof.
  intros H. unfold assign3. rewrite list_lookup_total_insert_eq by exact H.
  repeat split.
Qed.

Lemma spec_cpu_forces_atom sigma s n c :
  fair sigma -> length (F_ s) = NumAtom_ s -> (n < NumAtom_ s)%nat ->
  (c < 3)%nat ->
  data (spec_cpu_forces sigma s !!! n) c =
  data (net_force (r_ s) ncp_ (NumAtom_ s) (periodiclen_ s) rc2_ n) c.
Proof.
  intros F HF Hn Hc. unfold spec_cpu_forces, parallel_for.
  rewrite Nat.sub_0_r.
  set (N := NumAtom_ s) in *. set (L := periodiclen_ s).
  set (F0 := for_loop (seq 0 N) (fun n F => assign3 n 0.0 0.0 0.0 F) (F_ s)).
  assert (len : forall k g, length g = N -> (k < N)%nat ->
            length (assign3 k 0.0 0.0 0.0 g) = N).
  { intros k g Hg _. unfold assign3. rewrite length_insert. exact Hg. }
  assert (H0 : F0 !!! n = set_data (set_data (set_data (F_ s !!! n) 0 0.0)
                                      1 0.0) 2 0.0 /\ length F0 = N).
  { assert (own0 : forall k g, length g = N -> (k < N)%nat ->
              assign3 k 0.0 0.0 0.0 g !!! k =
              set_data (set_data (set_data (g !!! k) 0 0.0) 1 0.0) 2 0.0).
    { intros k g Hg Hk. unfold assign3.
      apply list_lookup_total_insert_eq. lia. }
    assert (other0 : forall k m g, length g = N -> (k < N)%nat -> k <> m ->
              assign3 k 0.0 0.0 0.0 g !!! m = g !!! m).
    { intros k m g Hg Hk Hne. unfold assign3.
      apply list_lookup_total_insert_ne, Hne. }
    split.
    - exact (region_pointwise (fun n (g : list Vector4) => g !!! n)
               (fun _ v => set_data (set_data (set_data v 0 0.0) 1 0.0) 2 0.0)
               (fun n g => assign3 n 0.0 0.0 0.0 g)
               (fun g => length g = N) N own0 other0 len in_order (F_ s) n
               in_order_fair HF Hn).
    - exact (region_inv (fun n g => assign3 n 0.0 0.0 0.0 g)
               (fun g => length g = N) N len in_order (F_ s) in_order_fair
               HF). }
  destruct H0 as [E0 L0].
  assert (own : forall k g, length g = N -> (k < N)%nat ->
            spec_cpu_force_body (r_ s) N L k g !!! k =
            (fun k v => for_loop (force_pairs (r_ s) ncp_ N L rc2_ k)
                          (spec_cpu_accumulate (r_ s) L k) v) k (g !!! k)).
  { intros k g Hg Hk.
    rewrite spec_cpu_body_unroll, spec_cpu_steps by lia.
    apply list_lookup_total_insert_eq. lia. }
  assert (other : forall k m g, length g = N -> (k < N)%nat -> k <> m ->
            spec_cpu_force_body (r_ s) N L k g !!! m = g !!! m).
  { intros k m g Hg Hk Hne.
    rewrite spec_cpu_body_unroll, spec_cpu_steps by lia.
    apply list_lookup_total_insert_ne, Hne. }
  assert (inv : forall k g, length g = N -> (k < N)%nat ->
            length (spec_cpu_force_body (r_ s) N L k g) = N).
  { intros k g Hg Hk.
    rewrite spec_cpu_body_unroll, spec_cpu_steps by lia.
    rewrite length_insert. exact Hg. }
  rewrite (region_pointwise (fun n (g : list Vector4) => g !!! n) _ _
             (fun g => length g = N) N own other inv sigma F0 n F L0 Hn).
  symmetry. unfold net_force, vsum. apply accumulate_components; [exact Hc|].
  rewrite E0, data_splat, !data_set_data by lia.
  destruct c as [|[|[|c]]]; try lia; reflexivity.
Qed.

Lemma device_forces rt s :
  sized s ->
  F_dev_ (run_force rt (run_init_force rt (upload_r (upload_F s)))) =
  enqueue_1d_range_kernel (order_force rt)
    (force (r_ s) ncp_ (NumAtom_ s) (periodiclen_ s) rc2_) (NumAtom_ s)
    (enqueue_1d_range_kernel (order_init_force rt) init_force (NumAtom_ s)
       (F_ s)).
Proof.
  intros Hs. unfold sized in Hs. md_open s.
  destruct Hs as (HF & HV & Hr & Hr1 & HFd & HVd & Hrd & Hr1d).
  rewrite !copy_same_length by congruence. reflexivity.
Qed.

Lemma host_energy_forces rt s :
  F_ (host_energy rt s) = F_ s /\ F_dev_ (host_energy rt s) = F_dev_ s.
Proof. md_open s. split; reflexivity. Qed.

Lemma device_host_forces rt s :
  F_ (run_force rt (run_init_force rt (upload_r (upload_F s)))) = F_ s.
Proof. md_open s. reflexivity. Qed.

Lemma Calc_Forces_download rt s n :
  fair_runtime rt -> sized s -> (n < NumAtom_ s)%nat ->
  F_ (Calc_Forces rt s) =
  F_dev_ (run_force rt (run_init_force rt (upload_r (upload_F s)))).
Proof.
  intros Hrt Hs Hn.
  destruct (Calc_Forces_F_dev rt s n Hrt Hs Hn) as [_ Len].
  destruct Hs as (HF & _). revert Len. md_open s. calc_forces_unfold.
  intros Len. rewrite (copy_same_length _ F) by congruence. reflexivity.
Qed.

(** ** An example: two atoms at distance 1 *)

Lemma Z_zero_or_far z : z = 0%Z \/ IZR z <= -1 \/ 1 <= IZR z.
Proof.
  destruct (Z.eq_dec z 0%Z) as [E|E]; [left; exact E|right].
  destruct (Z_lt_le_dec z 0%Z) as [H|H].
  - left. apply (IZR_le z (-1)%Z). lia.
  - right. apply (IZR_le 1%Z z). lia.
Qed.

Lemma singleton_of_NoDup {A : Type} (a : A) (l : list A) :
  NoDup l -> (forall x, In x l <-> x = a) -> l = [a].
Proof.
  intros Nd H. destruct l as [|b l].
  - exfalso. apply (proj2 (H a) eq_refl).
  - assert (b = a) by (apply H; left; reflexivity). subst b.
    destruct l as [|c l]; [reflexivity|].
    assert (c = a) by (apply H; right; left; reflexivity). subst c.
    apply NoDup_cons in Nd as [Hn _]. exfalso. apply Hn. left.
Qed.

Lemma apart_pairs :
  force_pairs apart ncp_ 4 100 rc2_ 0 = [(1%nat, (0, 0, 0)%Z)].
Proof.
  apply singleton_of_NoDup; [apply NoDup_force_pairs|].
  intros [m [[i j] k]]. rewrite in_force_pairs. unfold rc2_, rc_, ncp_.
  unfold displacement, image_shift, dist2. split.
  - intros ((Hm & Hi & Hj & Hk) & Hself & Hr2).
    destruct m as [|[|[|[|m]]]]; try lia.
    + change (apart !!! 0%nat) with (mkV4 0 0 0 0) in Hr2.
      cbn [vsub vadd vx vy vz vw] in Hr2.
      destruct (Z_zero_or_far i) as [Ei|Ei], (Z_zero_or_far j) as [Ej|Ej],
        (Z_zero_or_far k) as [Ek|Ek]; subst; try (exfalso; nra).
      exfalso. apply Hself. auto.
    + change (apart !!! 0%nat) with (mkV4 0 0 0 0) in Hr2.
      change (apart !!! 1%nat) with (mkV4 1 0 0 0) in Hr2.
      cbn [vsub vadd vx vy vz vw] in Hr2.
      destruct (Z_zero_or_far i) as [Ei|Ei], (Z_zero_or_far j) as [Ej|Ej],
        (Z_zero_or_far k) as [Ek|Ek]; subst; try (exfalso; nra).
      reflexivity.
    + change (apart !!! 0%nat) with (mkV4 0 0 0 0) in Hr2.
      change (apart !!! 2%nat) with (mkV4 0 50 0 0) in Hr2.
      cbn [vsub vadd vx vy vz vw] in Hr2.
      destruct (Z_zero_or_far j) as [Ej|Ej]; subst; exfalso; nra.
    + change (apart !!! 0%nat) with (mkV4 0 0 0 0) in Hr2.
      change (apart !!! 3%nat) with (mkV4 0 0 50 0) in Hr2.
      cbn [vsub vadd vx vy vz vw] in Hr2.
      destruct (Z_zero_or_far k) as [Ek|Ek]; subst; exfalso; nra.
  - intros E. inversion E; subst. split; [lia|]. split.
    + intros [H _]. discriminate.
    + change (apart !!! 0%nat) with (mkV4 0 0 0 0).
      change (apart !!! 1%nat) with (mkV4 1 0 0 0).
      cbn [vsub vadd vx vy vz vw]. lra.
Qed.

Lemma Fr_of_1 : Fr_of 1 = 24.
Proof. unfold Fr_of. cbv zeta. rewrite sqrt_1. lra. Qed.

Lemma apart_net_force_x :
  data (net_force apart ncp_ 4 100 rc2_ 0) 0 = -24.
Proof.
  unfold net_force. rewrite apart_pairs. unfold vsum. cbn [map fold_left].
  unfold pair_force.
  assert (E : dist2 (displacement apart 100 0 1 0 0 0) = 1).
  { unfold displacement, image_shift, dist2.
    change (apart !!! 0%nat) with (mkV4 0 0 0 0).
    change (apart !!! 1%nat) with (mkV4 1 0 0 0).
    cbn [vsub vadd vx vy vz vw]. lra. }
  rewrite E, sqrt_1, Fr_of_1. data_norm.
  unfold displacement, image_shift.
  change (apart !!! 0%nat) with (mkV4 0 0 0 0).
  change (apart !!! 1%nat) with (mkV4 1 0 0 0).
  cbn [vsub vadd data vx vy vz vw]. lra.
Qed.

(** The host loop of [Calc_Forces] leaves the force array of the entry in
    place: after it, the force of the first atom is still zero although
    the second atom pushes it with the force 24. *)
Lemma C5_counterexample :
  let s := four_atoms apart apart at_rest at_rest 1 100 0 in
  let dev :=
    run_force sequential (run_init_force sequential (upload_r (upload_F s))) in
  F_ (host_energy sequential dev) = F_ s /\
  F_ (host_energy sequential dev) !!! 0%nat <>
    net_force (r_ s) ncp_ (NumAtom_ s) (periodiclen_ s) rc2_ 0.
Proof.
  intros s dev.
  assert (E : F_ (host_energy sequential dev) = F_ s).
  { rewrite (proj1 (host_energy_forces sequential dev)).
    apply device_host_forces. }
  split; [exact E|]. rewrite E.
  change (F_ s !!! 0%nat) with (splat 0).
  change (r_ s) with apart. change (NumAtom_ s) with 4%nat.
  change (periodiclen_ s) with 100.
  intros H. apply (f_equal (fun v => data v 0)) in H.
  rewrite apart_net_force_x, data_splat in H. lra.
Qed.

(** ** Sums over the atoms and the centre of mass *)

Lemma sum3_total N a :
  sum3 N a = (0.0 + total 0 N a, 0.0 + total 1 N a, 0.0 + total 2 N a).
Proof.
  unfold sum3, total. generalize 0.0 at 1 4. generalize 0.0 at 1 3.
  generalize 0.0. generalize (seq 0 N) as l.
  induction l as [|n l IH]; intros z y x.
  - rewrite for_loop_nil. unfold Rsum. cbn [map fold_right].
    f_equal; [f_equal|]; lra.
  - rewrite for_loop_cons, IH. unfold Rsum. cbn [map fold_right].
    f_equal; [f_equal|]; lra.
Qed.

Lemma shift3_atoms N sx sy sz a n :
  (N <= length a)%nat -> (n < N)%nat ->
  shift3 N sx sy sz a !!! n =
    set_data (set_data (set_data (a !!! n) 0 (data (a !!! n) 0 - sx))
                1 (data (a !!! n) 1 - sy)) 2 (data (a !!! n) 2 - sz) /\
  length (shift3 N sx sy sz a) = length a.
Proof.
  intros HN Hn. unfold shift3.
  set (body := fun (n : nat) (a : list Vector4) =>
         assign3 n (data (a !!! n) 0 - sx) (data (a !!! n) 1 - sy)
           (data (a !!! n) 2 - sz) a).
  assert (own : forall k g, length g = length a -> (k < N)%nat ->
            body k g !!! k =
            (fun _ v => set_data (set_data (set_data v 0 (data v 0 - sx))
                          1 (data v 1 - sy)) 2 (data v 2 - sz)) k (g !!! k)).
  { intros k g Hg Hk. unfold body, assign3.
    apply list_lookup_total_insert_eq. lia. }
  assert (other : forall k m g, length g = length a -> (k < N)%nat ->
            k <> m -> body k g !!! m = g !!! m).
  { intros k m g Hg Hk Hne. unfold body, assign3.
    apply list_lookup_total_insert_ne, Hne. }
  assert (inv : forall k g, length g = length a -> (k < N)%nat ->
            length (body k g) = length a).
  { intros k g Hg Hk. unfold body, assign3. rewrite length_insert. exact Hg. }
  split.
  - exact (region_pointwise (fun n (g : list Vector4) => g !!! n) _ body
             (fun g => length g = length a) N own other inv in_order a n
             in_order_fair eq_refl Hn).
  - exact (region_inv body (fun g => length g = length a) N inv in_order a
             in_order_fair eq_refl).
Qed.

Lemma shift3_length N sx sy sz a :
  (N <= length a)%nat -> length (shift3 N sx sy sz a) = length a.
Proof.
  intros HN. unfold shift3.
  refine (region_inv
            (fun (n : nat) (a : list Vector4) =>
               assign3 n (data (a !!! n) 0 - sx) (data (a !!! n) 1 - sy)
                 (data (a !!! n) 2 - sz) a)
            (fun g => length g = length a) N _ in_order a in_order_fair
            eq_refl).
  intros k g Hg Hk. unfold assign3. rewrite length_insert. exact Hg.
Qed.

Lemma shift3_component N sx sy sz a n c :
  (N <= length a)%nat -> (n < N)%nat -> (c < 3)%nat ->
  data (shift3 N sx sy sz a !!! n) c =
  data (a !!! n) c - coord c (sx, sy, sz).
Proof.
  intros HN Hn Hc. rewrite (proj1 (shift3_atoms N sx sy sz a n HN Hn)).
  rewrite !data_set_data by lia.
  destruct c as [|[|[|c]]]; try lia; reflexivity.
Qed.

Lemma Rsum_minus_const {A : Type} (g : A -> R) (m : R) (l : list A) :
  Rsum (map (fun a => g a - m) l) = Rsum (map g l) - INR (length l) * m.
Proof.
  unfold Rsum. induction l as [|a l IH].
  - cbn [map fold_right length INR]. lra.
  - cbn [map fold_right length]. rewrite IH, S_INR. lra.
Qed.

(** After the mean has been subtracted the sum is zero. *)
Lemma centred_total N sx sy sz a c :
  (N <= length a)%nat -> (c < 3)%nat ->
  coord c (sx, sy, sz) = (0.0 + total c N a) / INR N ->
  total c N (shift3 N sx sy sz a) = 0.
Proof.
  intros HN Hc Hmean. unfold total.
  rewrite (Rsum_map_ext _ (fun n => data (a !!! n) c - coord c (sx, sy, sz))).
  - rewrite Rsum_minus_const, length_seq, Hmean. fold (total c N a).
    destruct N as [|N].
    + unfold total, Rsum. cbn [seq map fold_right INR]. lra.
    + assert (0 < INR (S N)) by (apply lt_0_INR; lia).
      replace (0.0 + total c (S N) a) with (total c (S N) a) by lra.
      field. lra.
  - intros n Hin. apply in_seq in Hin.
    apply shift3_component; [exact HN|lia|exact Hc].
Qed.

(** ** MD_initPos *)

Lemma place_cell_sites lat i j k b :
  place_cell lat i j k b = for_loop (fcc_cell lat i j k) write_site b.
Proof. destruct b as [r n]. reflexivity. Qed.

Lemma placement_unroll lat Nc b :
  for_loop (seq 0 Nc) (fun i =>
    for_loop (seq 0 Nc) (fun j =>
      for_loop (seq 0 Nc) (fun k => place_cell lat i j k))) b =
  for_loop (fcc_lattice lat Nc) write_site b.
Proof.
  unfold fcc_lattice. rewrite for_loop_flat_map. apply for_loop_ext.
  intros i b1. rewrite for_loop_flat_map. apply for_loop_ext.
  intros j b2. rewrite for_loop_flat_map. apply for_loop_ext.
  intros k b3. apply place_cell_sites.
Qed.

Lemma write_sites (l : list (R * R * R)) :
  forall (r : list Vector4) (n : nat),
  (n + length l <= length r)%nat ->
  snd (for_loop l write_site (r, n)) = (n + length l)%nat /\
  length (fst (for_loop l write_site (r, n))) = length r /\
  (forall idx c, (idx < length l)%nat -> (c < 3)%nat ->
     data (fst (for_loop l write_site (r, n)) !!! (n + idx)%nat) c =
     coord c (l !!! idx)) /\
  (forall m, (m < n)%nat ->
     fst (for_loop l write_site (r, n)) !!! m = r !!! m).
Proof.
  induction l as [|p l IH]; intros r n Hlen.
  - rewrite for_loop_nil. cbn [fst snd length]. repeat split.
    + lia.
    + intros idx c H. lia.
  - rewrite for_loop_cons. cbn [length] in *. unfold write_site at 2 4 6 8.
    destruct (IH (assign3 n (coord 0 p) (coord 1 p) (coord 2 p) r) (S n))
      as (E1 & E2 & E3 & E4).
    { unfold assign3. rewrite length_insert. lia. }
    split; [rewrite E1; lia|].
    split; [rewrite E2; unfold assign3; apply length_insert|].
    split.
    + intros idx c Hidx Hc. destruct idx as [|idx].
      * rewrite Nat.add_0_r, E4 by lia.
        destruct (assign3_components n (coord 0 p) (coord 1 p) (coord 2 p) r)
          as (A0 & A1 & A2 & _); [lia|].
        destruct c as [|[|[|c]]]; try lia; assumption.
      * replace (n + S idx)%nat with (S n + idx)%nat by lia.
        rewrite E3 by lia. reflexivity.
    + intros m Hm. rewrite E4 by lia. unfold assign3.
      apply list_lookup_total_insert_ne. lia.
Qed.

Lemma length_fcc_lattice lat Nc :
  length (fcc_lattice lat Nc) = (4 * Nc ^ 3)%nat.
Proof.
  unfold fcc_lattice.
  rewrite (flat_map_constant_length (c := (Nc * (Nc * 4))%nat)).
  - rewrite length_seq. cbn [Nat.pow]. lia.
  - intros i _. rewrite (flat_map_constant_length (c := (Nc * 4)%nat)).
    + rewrite length_seq. reflexivity.
    + intros j _. rewrite (flat_map_constant_length (c := 4%nat)).
      * rewrite length_seq. reflexivity.
      * intros k _. reflexivity.
Qed.

Lemma in_fcc_lattice lat Nc p :
  In p (fcc_lattice lat Nc) <->
  exists i j k, (i < Nc)%nat /\ (j < Nc)%nat /\ (k < Nc)%nat /\
                In p (fcc_cell lat i j k).
Proof.
  unfold fcc_lattice. rewrite in_flat_map. split.
  - intros (i & Hi & H). apply in_flat_map in H as (j & Hj & H).
    apply in_flat_map in H as (k & Hk & H).
    apply in_seq in Hi, Hj, Hk. exists i, j, k. repeat split; (lia || exact H).
  - intros (i & j & k & Hi & Hj & Hk & H).
    exists i. split; [apply in_seq; lia|].
    apply in_flat_map. exists j. split; [apply in_seq; lia|].
    apply in_flat_map. exists k. split; [apply in_seq; lia|exact H].
Qed.

Lemma fcc_cell_basis lat i j k :
  fcc_cell lat i j k =
  map (fun o => (lat * (INR i + coord 0 o), lat * (INR j + coord 1 o),
                 lat * (INR k + coord 2 o))) fcc_basis.
Proof.
  unfold fcc_cell, fcc_basis. cbn [map coord fst snd].
  repeat (f_equal; try lra).
Qed.

Lemma map_lookup_seq {A : Type} `{Inhabited A} (g : A -> R) (l : list A) :
  map (fun n => g (l !!! n)) (seq 0 (length l)) = map g l.
Proof.
  induction l as [|a l IH]; [reflexivity|].
  cbn [length seq map]. f_equal. rewrite <- seq_shift, map_map. exact IH.
Qed.

(** The state after the three loops of [MD_initPos] and after the whole
    function. *)
Lemma MD_initPos_sites s :
  length (r_ s) = (4 * Nc_ s ^ 3)%nat ->
  let sites := fcc_lattice (lat_ s) (Nc_ s) in
  let N := (4 * Nc_ s ^ 3)%nat in
  NumAtom_ (MD_initPos s) = N /\
  length (r_ (MD_initPos s)) = N /\
  (forall n c, (n < N)%nat -> (c < 3)%nat ->
     data (r_ (MD_initPos s) !!! n) c =
     coord c (sites !!! n) - Rsum (map (coord c) sites) / INR N) /\
  (forall c, (c < 3)%nat -> total c N (r_ (MD_initPos s)) = 0).
Proof.
  intros Hlen sites N. unfold MD_initPos. rewrite placement_unroll.
  fold sites.
  destruct (write_sites sites (r_ s) 0) as (E1 & E2 & E3 & _).
  { unfold sites. rewrite length_fcc_lattice. lia. }
  destruct (for_loop sites write_site (r_ s, 0%nat)) as [r1 n1].
  cbn [fst snd Nat.add] in E1, E2, E3.
  assert (Ls : length sites = N) by apply length_fcc_lattice.
  rewrite Ls in E1, E3. subst n1. md_proj. rewrite sum3_total.
  assert (T : forall c, (c < 3)%nat ->
            total c N r1 = Rsum (map (coord c) sites)).
  { intros c Hc. unfold total. rewrite <- Ls.
    rewrite <- (map_lookup_seq (coord c) sites). f_equal.
    apply map_ext_in. intros n Hin. apply in_seq in Hin.
    rewrite <- (E3 n c) by lia. reflexivity. }
  md_proj. split; [reflexivity|].
  split; [rewrite shift3_length; lia|].
  split.
  - intros n c Hn Hc. rewrite shift3_component by lia.
    rewrite <- (E3 n c) by lia. rewrite <- (T c Hc).
    destruct c as [|[|[|c]]]; try lia; cbn [coord fst snd Nat.add]; lra.
  - intros c Hc. apply centred_total; [lia|exact Hc|].
    destruct c as [|[|[|c]]]; try lia; reflexivity.
Qed.

Lemma in_fcc_cell lat i j k p :
  In p (fcc_cell lat i j k) <->
  exists o, In o fcc_basis /\
    p = (lat * (INR i + coord 0 o), lat * (INR j + coord 1 o),
         lat * (INR k + coord 2 o)).
Proof.
  rewrite fcc_cell_basis, in_map_iff. split.
  - intros (o & E & Ho). exists o. split; [exact Ho|symmetry; exact E].
  - intros (o & Ho & E). exists o. split; [symmetry; exact E|exact Ho].
Qed.

Lemma construct_NumAtom nc scale u mr :
  NumAtom_ (construct nc scale u mr) = (4 * nc ^ 3)%nat.
Proof.
  rewrite construct_unfold.
  rewrite (proj1 (proj2 (set_periodiclen_frame _ _))).
  destruct (MD_initVel_frame mr (MD_initPos (members_initialised nc scale u)))
    as (_ & _ & EN & _).
  rewrite EN.
  destruct (members_initialised_fields nc scale u)
    as (_ & ENc & _ & _ & Hr & _).
  rewrite <- ENc at 2. apply MD_initPos_sites. rewrite ENc. exact Hr.
Qed.

(** C8. [MD_initPos] sets [NumAtom_] to [4 Nc^3]; the positions it writes
    are, in the order of the loops, the four sites of each of the [Nc^3]
    unit cells, at the offsets (0,0,0), (1/2,1/2,0), (0,1/2,1/2) and
    (1/2,0,1/2) of the cell scaled by the lattice constant, each minus the
    mean of all the sites; afterwards every component of the positions
    sums to zero, so the centroid is the origin.  The constructor calls it
    on arrays of that length. *)
Theorem C8_fcc_positions s :
  length (r_ s) = (4 * Nc_ s ^ 3)%nat ->
  let sites := fcc_lattice (lat_ s) (Nc_ s) in
  let N := (4 * Nc_ s ^ 3)%nat in
  NumAtom_ (MD_initPos s) = N /\
  length sites = N /\
  (forall p, In p sites <->
     exists i j k o,
       (i < Nc_ s)%nat /\ (j < Nc_ s)%nat /\ (k < Nc_ s)%nat /\
       In o fcc_basis /\
       p = (lat_ s * (INR i + coord 0 o), lat_ s * (INR j + coord 1 o),
            lat_ s * (INR k + coord 2 o))) /\
  (forall n c, (n < N)%nat -> (c < 3)%nat ->
     data (r_ (MD_initPos s) !!! n) c =
     coord c (sites !!! n) - Rsum (map (coord c) sites) / INR N) /\
  (forall c, (c < 3)%nat ->
     total c N (r_ (MD_initPos s)) = 0 /\
     total c N (r_ (MD_initPos s)) / INR N = 0) /\
  (forall nc scale u mr,
     NumAtom_ (construct nc scale u mr) = (4 * nc ^ 3)%nat).
Proof.
  intros Hlen sites N.
  destruct (MD_initPos_sites s Hlen) as (E1 & E2 & E3 & E4).
  split; [exact E1|]. split; [apply length_fcc_lattice|]. split.
  - intros p. unfold sites. rewrite in_fcc_lattice. split.
    + intros (i & j & k & Hi & Hj & Hk & H).
      apply in_fcc_cell in H as (o & Ho & E).
      exists i, j, k, o. auto.
    + intros (i & j & k & o & Hi & Hj & Hk & Ho & E).
      exists i, j, k. repeat split; try assumption.
      apply in_fcc_cell. exists o. auto.
  - split; [exact E3|]. split.
    + intros c Hc. fold N in E4. rewrite (E4 c Hc). split; [reflexivity|].
      unfold Rdiv. apply Rmult_0_l.
    + intros nc scale u mr. apply construct_NumAtom.
Qed.

Lemma C8_fcc_positions_witness :
  NumAtom_ (MD_initPos (four_atoms at_rest at_rest at_rest at_rest 1 4 0)) =
  4%nat.
Proof.
  exact (proj1 (C8_fcc_positions
                  (four_atoms at_rest at_rest at_rest at_rest 1 4 0)
                  eq_refl)).
Defined.

(** ** MD_initVel *)

Lemma generator4_draw v mr :
  generator4 v mr =
  (direction_velocity v (draw mr 0), mkRand (samples mr) (3 + drawn mr)).
Proof.
  unfold draw. rewrite Nat.mul_0_r, Nat.add_0_r.
  replace (drawn mr + 1)%nat with (S (drawn mr)) by lia.
  replace (drawn mr + 2)%nat with (S (S (drawn mr))) by lia.
  reflexivity.
Qed.

Lemma generate_generator4 v (l : list Vector4) :
  forall mr,
  length (fst (generate l (generator4 v) mr)) = length l /\
  forall n, (n < length l)%nat ->
    fst (generate l (generator4 v) mr) !!! n =
    direction_velocity v (draw mr n).
Proof.
  induction l as [|a l IH]; intros mr.
  - split; [reflexivity|]. intros n H. cbn [length] in H. lia.
  - cbn [generate]. rewrite generator4_draw.
    destruct (IH (mkRand (samples mr) (3 + drawn mr))) as [Len Hn].
    destruct (generate l (generator4 v) (mkRand (samples mr) (3 + drawn mr)))
      as [rest g'].
    cbn [fst length] in *. split; [rewrite Len; reflexivity|].
    intros n H. destruct n as [|n]; [reflexivity|].
    change ((direction_velocity v (draw mr 0) :: rest) !!! S n)
      with (rest !!! n).
    rewrite Hn by lia. f_equal. unfold draw. cbn [samples drawn].
    replace (drawn mr + 3 * S n)%nat with (3 + drawn mr + 3 * n)%nat by lia.
    reflexivity.
Qed.

Lemma direction_velocity_speed v p :
  0 <= v -> norm2 (coord 0 p) (coord 1 p) (coord 2 p) <> 0 ->
  sqrt (speed2 (direction_velocity v p)) = v.
Proof.
  intros Hv Hp. unfold speed2, direction_velocity, Vector4_xyz.
  cbn [data vx vy vz].
  set (x := coord 0 p) in *. set (y := coord 1 p) in *.
  set (z := coord 2 p) in *.
  assert (Hpos : 0 < norm2 x y z) by (unfold norm2 in *; nra).
  assert (Hs : 0 < sqrt (norm2 x y z)) by (apply sqrt_lt_R0, Hpos).
  assert (Hq : sqrt (norm2 x y z) * sqrt (norm2 x y z) = norm2 x y z)
    by (apply sqrt_sqrt; lra).
  set (q := sqrt (norm2 x y z)) in *.
  assert (A : / q * q = 1) by (apply Rinv_l; lra).
  replace (1.0 / q) with (/ q) by (replace 1.0 with 1 by lra; lra).
  replace (norm2 (v * (x * / q)) (v * (y * / q)) (v * (z * / q)))
    with (v * v).
  - apply sqrt_square, Hv.
  - unfold norm2 in *.
    transitivity (v * v * (/ q * / q) * (x * x + y * y + z * z)); [|ring].
    rewrite <- Hq.
    transitivity (v * v * ((/ q * q) * (/ q * q))); [|ring].
    rewrite A. ring.
Qed.

Lemma MD_initVel_velocities mr s :
  length (V_ s) = NumAtom_ s ->
  let N := NumAtom_ s in
  let V0 := drawn_velocities mr s in
  (forall n, (n < N)%nat ->
     V0 !!! n = direction_velocity (sqrt (3.0 * Tg_ s)) (draw mr n)) /\
  (forall n c, (n < N)%nat -> (c < 3)%nat ->
     data (V_ (MD_initVel mr s) !!! n) c =
     data (V0 !!! n) c - total c N V0 / INR N) /\
  (forall c, (c < 3)%nat -> total c N (V_ (MD_initVel mr s)) = 0).
Proof.
  intros Hlen N V0.
  destruct (generate_generator4 (sqrt (3.0 * Tg_ s)) (V_ s) mr) as [Len Hn].
  fold (drawn_velocities mr s) in Len, Hn. fold V0 in Len, Hn.
  rewrite Hlen in Len, Hn. fold N in Len, Hn.
  split; [exact Hn|].
  unfold MD_initVel. fold (drawn_velocities mr s).
  unfold drawn_velocities in V0.
  destruct (generate (V_ s) (generator4 (sqrt (3.0 * Tg_ s))) mr)
    as [V1 mr'].
  cbn [fst] in V0. subst V0. md_proj. rewrite sum3_total. md_proj.
  fold N. split.
  - intros n c Hn' Hc. rewrite shift3_component by lia.
    destruct c as [|[|[|c]]]; try lia; cbn [coord fst snd]; lra.
  - intros c Hc. apply centred_total; [lia|exact Hc|].
    destruct c as [|[|[|c]]]; try lia; reflexivity.
Qed.

Lemma MD_initPos_V_length s :
  length (r_ s) = (4 * Nc_ s ^ 3)%nat -> length (V_ s) = (4 * Nc_ s ^ 3)%nat ->
  length (V_ (MD_initPos s)) = NumAtom_ (MD_initPos s).
Proof.
  intros Hr HV. rewrite (proj1 (MD_initPos_sites s Hr)).
  rewrite (proj1 (proj2 (MD_initPos_frame s))). exact HV.
Qed.

Lemma construct_velocities nc scale u mr c :
  (c < 3)%nat ->
  total c (NumAtom_ (construct nc scale u mr))
    (V_ (construct nc scale u mr)) = 0.
Proof.
  intros Hc. rewrite construct_unfold.
  destruct (set_periodiclen_frame
              (lat_ (MD_initVel mr
                       (MD_initPos (members_initialised nc scale u)))
               * INR (Nc_ (MD_initVel mr
                             (MD_initPos (members_initialised nc scale u)))))
              (MD_initVel mr (MD_initPos (members_initialised nc scale u))))
    as (_ & PN & _ & PV & _).
  rewrite PN, PV. clear PN PV.
  set (s1 := MD_initPos (members_initialised nc scale u)).
  destruct (members_initialised_fields nc scale u)
    as (_ & ENc & _ & HV & Hr & _).
  assert (E : length (V_ s1) = NumAtom_ s1).
  { apply MD_initPos_V_length; rewrite ENc; assumption. }
  destruct (MD_initVel_frame mr s1) as (_ & _ & EN & _). rewrite EN.
  apply (MD_initVel_velocities mr s1 E), Hc.
Qed.

(** ** The lengths of the arrays along a run *)

Lemma init_force_launch_length sigma N f :
  fair sigma -> length f = N ->
  length (enqueue_1d_range_kernel sigma init_force N f) = N.
Proof.
  intros F Hl. unfold enqueue_1d_range_kernel.
  apply (region_inv init_force (fun f => length f = N) N); try assumption.
  intros k g Hg Hk. unfold init_force. rewrite length_insert. exact Hg.
Qed.

Lemma force_launch_length sigma r ncp N L rc2 f :
  fair sigma -> length f = N ->
  length (enqueue_1d_range_kernel sigma (force r ncp N L rc2) N f) = N.
Proof.
  intros F Hl. unfold enqueue_1d_range_kernel.
  apply (region_inv (force r ncp N L rc2) (fun f => length f = N) N);
    try assumption.
  intros k g Hg Hk. rewrite force_length; [exact Hg|lia].
Qed.

Lemma Calc_Forces_sized rt s :
  fair_runtime rt -> sized s -> sized (Calc_Forces rt s).
Proof.
  intros (Fi & Ff & _) Hs. unfold sized in *. md_open s.
  destruct Hs as (HF & HV & Hr & Hr1 & HFd & HVd & Hrd & Hr1d).
  calc_forces_unfold.
  rewrite (copy_same_length F Fd), (copy_same_length r rd) by congruence.
  pose proof (init_force_launch_length (order_init_force rt) N F Fi HF) as L0.
  pose proof (force_launch_length (order_force rt) r ncp_ N L rc2_ _ Ff L0)
    as L1.
  rewrite (copy_same_length _ F) by congruence.
  repeat split; assumption.
Qed.

Lemma move_launch_sized sigma (kernel : nat -> rr1V -> rr1V) N b :
  (forall k g, sized3 N g -> (k < N)%nat -> sized3 N (kernel k g)) ->
  fair sigma -> sized3 N b ->
  sized3 N (enqueue_1d_range_kernel sigma kernel N b).
Proof.
  intros Hk F Hb. unfold enqueue_1d_range_kernel.
  apply (region_inv kernel (sized3 N) N Hk sigma b F Hb).
Qed.

Lemma before_wrap_sized_all rt s :
  fair_runtime rt -> sized s -> sized (before_wrap rt s).
Proof.
  intros (_ & _ & _ & Fm & _) Hs. unfold sized in *. md_open s.
  destruct Hs as (HF & HV & Hr & Hr1 & HFd & HVd & Hrd & Hr1d).
  before_wrap_unfold.
  rewrite (copy_same_length F Fd), (copy_same_length r rd),
    (copy_same_length r1 r1d), (copy_same_length V Vd) by congruence.
  destruct (iter =? 1)%Z.
  - pose proof (move_launch_sized (order_move rt)
                  (move_atoms1 F DT
                     (woodcock Tg
                        (for_loop (seq 0 N)
                           (fun n Uk => Uk + norm2 (data (V !!! n) 0)
                                          (data (V !!! n) 1)
                                          (data (V !!! n) 2)) 0.0 * 0.5
                         / (1.5 * INR N)))) N (r, r1, V)
                  (move_atoms1_sized _ _ _ N) Fm (conj Hr (conj Hr1 HV)))
      as Hsz.
    destruct (enqueue_1d_range_kernel _ _ _ _) as [[r' r1'] V'].
    md_proj_k. destruct Hsz as (Lr & Lr1 & LV).
    rewrite !copy_same_length by congruence. repeat split; congruence.
  - pose proof (move_launch_sized (order_move rt) (move_atoms F DT) N
                  (r, r1, V) (move_atoms_sized _ _ N) Fm
                  (conj Hr (conj Hr1 HV))) as Hsz.
    destruct (enqueue_1d_range_kernel _ _ _ _) as [[r' r1'] V'].
    md_proj_k. destruct Hsz as (Lr & Lr1 & LV).
    rewrite !copy_same_length by congruence. repeat split; congruence.
Qed.

Lemma wrap_sized rt s : fair_runtime rt -> sized s -> sized (wrap rt s).
Proof.
  intros (_ & _ & _ & _ & Fw & _) Hs. unfold sized in *.
  destruct Hs as (HF & HV & Hr & Hr1 & HFd & HVd & Hrd & Hr1d).
  assert (Hsz : sized2 (NumAtom_ s)
                  (parallel_for (order_wrap rt) 0 (NumAtom_ s)
                     (wrap_body (periodiclen_ s)) (r_ s, r1_ s))).
  { unfold parallel_for. rewrite Nat.sub_0_r.
    apply (region_inv (wrap_body (periodiclen_ s)) (sized2 (NumAtom_ s))
             (NumAtom_ s)); [|exact Fw|split; assumption].
    intros; apply wrap_body_sized; assumption. }
  unfold wrap. destruct (parallel_for _ _ _ _ _) as [r' r1'].
  destruct Hsz as [Lr Lr1]. md_proj. repeat split; assumption.
Qed.

Lemma Move_Atoms_sized rt s :
  fair_runtime rt -> sized s -> sized (Move_Atoms rt s).
Proof.
  intros Hrt Hs. rewrite Move_Atoms_split.
  pose proof (wrap_sized rt _ Hrt (before_wrap_sized_all rt s Hrt Hs)) as H.
  unfold sized in *. unfold tick. md_proj. exact H.
Qed.

Lemma length_generate {A G : Type} (l : list A) (gen : G -> A * G) g :
  length (fst (generate l gen g)) = length l.
Proof.
  revert g. induction l as [|a l IH]; intros g; [reflexivity|].
  cbn [generate]. destruct (gen g) as [x g1].
  specialize (IH g1). destruct (generate l gen g1) as [rest g2].
  cbn [fst length] in *. rewrite IH. reflexivity.
Qed.

Lemma MD_initVel_length mr s :
  length (V_ s) = NumAtom_ s -> length (V_ (MD_initVel mr s)) = NumAtom_ s.
Proof.
  intros H. unfold MD_initVel.
  pose proof (length_generate (V_ s) (generator4 (sqrt (3.0 * Tg_ s))) mr)
    as Len.
  destruct (generate _ _ _) as [V1 mr']. cbn [fst] in Len. md_proj.
  destruct (sum3 _ V1) as [[sx sy] sz]. md_proj.
  rewrite shift3_length; lia.
Qed.

Lemma init_frame mr t :
  F_ (MD_initVel mr (MD_initPos t)) = F_ t /\
  r1_ (MD_initVel mr (MD_initPos t)) = r1_ t /\
  F_dev_ (MD_initVel mr (MD_initPos t)) = F_dev_ t /\
  V_dev_ (MD_initVel mr (MD_initPos t)) = V_dev_ t /\
  r_dev_ (MD_initVel mr (MD_initPos t)) = r_dev_ t /\
  r1_dev_ (MD_initVel mr (MD_initPos t)) = r1_dev_ t.
Proof.
  unfold MD_initVel, MD_initPos.
  destruct (for_loop _ _ (r_ t, 0%nat)) as [ra na]. md_proj.
  destruct (sum3 na ra) as [[ax ay] az]. md_proj.
  destruct (generate _ _ _) as [Va mra]. md_proj.
  destruct (sum3 na Va) as [[bx by'] bz]. md_proj.
  repeat split; reflexivity.
Qed.

Lemma construct_sized nc scale u mr : sized (construct nc scale u mr).
Proof.
  pose proof (construct_NumAtom nc scale u mr) as EN.
  unfold sized. rewrite EN. clear EN. rewrite construct_unfold.
  destruct (set_periodiclen_frame
              (lat_ (MD_initVel mr
                       (MD_initPos (members_initialised nc scale u)))
               * INR (Nc_ (MD_initVel mr
                             (MD_initPos (members_initialised nc scale u)))))
              (MD_initVel mr (MD_initPos (members_initialised nc scale u))))
    as (_ & _ & S1 & S2 & S3 & S4 & S5 & S6 & S7 & S8).
  rewrite S1, S2, S3, S4, S5, S6, S7, S8. clear S1 S2 S3 S4 S5 S6 S7 S8.
  set (s := members_initialised nc scale u).
  destruct (members_initialised_fields nc scale u)
    as (_ & ENc & HF & HV & Hr & Hr1 & HFd & HVd & Hrd & Hr1d).
  fold s in ENc, HF, HV, Hr, Hr1, HFd, HVd, Hrd, Hr1d.
  assert (Hr' : length (r_ s) = (4 * Nc_ s ^ 3)%nat) by (rewrite ENc; exact Hr).
  destruct (MD_initPos_sites s Hr') as (PN & Pr & _).
  rewrite ENc in PN, Pr.
  assert (PV : length (V_ (MD_initPos s)) = NumAtom_ (MD_initPos s)).
  { apply MD_initPos_V_length; rewrite ENc; assumption. }
  pose proof (MD_initVel_length mr (MD_initPos s) PV) as LV.
  rewrite PN in LV.
  destruct (MD_initVel_frame mr (MD_initPos s)) as (_ & Er & _).
  destruct (init_frame mr s) as (EF & Er1 & EFd & EVd & Erd & Er1d).
  rewrite EF, Er1, EFd, EVd, Erd, Er1d, Er, LV, Pr.
  repeat split; assumption.
Qed.

(** Every state of a run is [sized]. *)
Lemma run_sized rt calls nc scale u mr :
  fair_runtime rt -> sized (run rt calls (construct nc scale u mr)).
Proof.
  intros Hrt. unfold run.
  generalize (construct_sized nc scale u mr).
  generalize (construct nc scale u mr) as s.
  induction calls as [|c calls IH]; intros s Hs; [exact Hs|].
  rewrite for_loop_cons. apply IH. destruct c; cbn [do_call].
  - apply Calc_Forces_sized; assumption.
  - apply Move_Atoms_sized; assumption.
Qed.

(* ================================================================== *)
(** * Further properties of the code *)

(** ** Arrays and states determined by their entries *)

Lemma list_eq_slots (l1 l2 : list Vector4) N :
  length l1 = N -> length l2 = N ->
  (forall n, (n < N)%nat -> l1 !!! n = l2 !!! n) -> l1 = l2.
Proof.
  intros H1 H2 H. apply list_eq_same_length with N; auto.
  intros i x y Hi E1 E2. specialize (H i Hi).
  rewrite (list_lookup_total_correct _ _ _ E1),
    (list_lookup_total_correct _ _ _ E2) in H. exact H.
Qed.

Lemma rr1V_eq_slots N (b1 b2 : rr1V) :
  sized3 N b1 -> sized3 N b2 ->
  (forall n, (n < N)%nat -> slot3 n b1 = slot3 n b2) -> b1 = b2.
Proof.
  destruct b1 as [[a1 b1] c1], b2 as [[a2 b2] c2].
  intros (A1 & B1 & C1) (A2 & B2 & C2) H.
  assert (a1 = a2 /\ b1 = b2 /\ c1 = c2) as (-> & -> & ->); [|reflexivity].
  repeat split; apply list_eq_slots with N; auto; intros n Hn;
    destruct (triple_eq _ _ _ _ _ _ (H n Hn)) as (Ea & Eb & Ec); assumption.
Qed.

Lemma rr1_eq_slots N (b1 b2 : list Vector4 * list Vector4) :
  sized2 N b1 -> sized2 N b2 ->
  (forall n, (n < N)%nat -> slot2 n b1 = slot2 n b2) -> b1 = b2.
Proof.
  destruct b1 as [a1 b1], b2 as [a2 b2].
  intros (A1 & B1) (A2 & B2) H.
  assert (a1 = a2 /\ b1 = b2) as (-> & ->); [|reflexivity].
  split; apply list_eq_slots with N; auto; intros n Hn;
    destruct (pair_eq _ _ _ _ (H n Hn)) as (Ea & Eb); assumption.
Qed.

Lemma MD_ext s1 s2 :
  lat_ s1 = lat_ s2 -> Nc_ s1 = Nc_ s2 -> F_ s1 = F_ s2 ->
  F_dev_ s1 = F_dev_ s2 -> MD_iter_ s1 = MD_iter_ s2 ->
  NumAtom_ s1 = NumAtom_ s2 -> periodiclen_ s1 = periodiclen_ s2 ->
  scale_ s1 = scale_ s2 -> t_ s1 = t_ s2 -> Tc_ s1 = Tc_ s2 ->
  Tg_ s1 = Tg_ s2 -> Uk_ s1 = Uk_ s2 -> Up_ s1 = Up_ s2 ->
  Utot_ s1 = Utot_ s2 -> V_ s1 = V_ s2 -> V_dev_ s1 = V_dev_ s2 ->
  r_ s1 = r_ s2 -> r_dev_ s1 = r_dev_ s2 -> r1_ s1 = r1_ s2 ->
  r1_dev_ s1 = r1_dev_ s2 -> s1 = s2.
Proof.
  destruct s1 as [a1 a2 a3 a4 a5 a6 a7 a8 a9 a10 a11 a12 a13 a14 a15 a16 a17
                  a18 a19 a20],
           s2 as [b1 b2 b3 b4 b5 b6 b7 b8 b9 b10 b11 b12 b13 b14 b15 b16 b17
                  b18 b19 b20].
  cbn [lat_ Nc_ F_ F_dev_ MD_iter_ NumAtom_ periodiclen_ scale_ t_ Tc_ Tg_
       Uk_ Up_ Utot_ V_ V_dev_ r_ r_dev_ r1_ r1_dev_].
  intros; subst; reflexivity.
Qed.

(** ** The result of a parallel region does not depend on the schedule *)

Lemma init_force_launch_schedule sigma1 sigma2 N f :
  fair sigma1 -> fair sigma2 -> length f = N ->
  enqueue_1d_range_kernel sigma1 init_force N f =
  enqueue_1d_range_kernel sigma2 init_force N f.
Proof.
  intros F1 F2 Hf. apply list_eq_slots with N.
  - apply init_force_launch_length; assumption.
  - apply init_force_launch_length; assumption.
  - intros n Hn.
    destruct (init_force_launch sigma1 N f n F1 Hf Hn) as [-> _].
    destruct (init_force_launch sigma2 N f n F2 Hf Hn) as [-> _].
    reflexivity.
Qed.

Lemma force_launch_schedule sigma1 sigma2 r ncp N L rc2 f :
  fair sigma1 -> fair sigma2 -> length f = N ->
  enqueue_1d_range_kernel sigma1 (force r ncp N L rc2) N f =
  enqueue_1d_range_kernel sigma2 (force r ncp N L rc2) N f.
Proof.
  intros F1 F2 Hf. apply list_eq_slots with N.
  - apply force_launch_length; assumption.
  - apply force_launch_length; assumption.
  - intros n Hn.
    destruct (force_launch sigma1 r ncp N L rc2 f n F1 Hf Hn) as [-> _].
    destruct (force_launch sigma2 r ncp N L rc2 f n F2 Hf Hn) as [-> _].
    reflexivity.
Qed.

Lemma move_atoms_launch_schedule sigma1 sigma2 f deltat N b :
  fair sigma1 -> fair sigma2 -> sized3 N b ->
  enqueue_1d_range_kernel sigma1 (move_atoms f deltat) N b =
  enqueue_1d_range_kernel sigma2 (move_atoms f deltat) N b.
Proof.
  intros F1 F2 Hb. apply rr1V_eq_slots with N.
  - apply move_launch_sized; auto. intros; eapply move_atoms_sized; eauto.
  - apply move_launch_sized; auto. intros; eapply move_atoms_sized; eauto.
  - intros n Hn.
    destruct (move_atoms_launch sigma1 f deltat N b n F1 Hb Hn) as [-> _].
    destruct (move_atoms_launch sigma2 f deltat N b n F2 Hb Hn) as [-> _].
    reflexivity.
Qed.

Lemma move_atoms1_launch_schedule sigma1 sigma2 f deltat sc N b :
  fair sigma1 -> fair sigma2 -> sized3 N b ->
  enqueue_1d_range_kernel sigma1 (move_atoms1 f deltat sc) N b =
  enqueue_1d_range_kernel sigma2 (move_atoms1 f deltat sc) N b.
Proof.
  intros F1 F2 Hb. apply rr1V_eq_slots with N.
  - apply move_launch_sized; auto. intros; eapply move_atoms1_sized; eauto.
  - apply move_launch_sized; auto. intros; eapply move_atoms1_sized; eauto.
  - intros n Hn.
    destruct (move_atoms1_launch sigma1 f deltat sc N b n F1 Hb Hn) as [-> _].
    destruct (move_atoms1_launch sigma2 f deltat sc N b n F2 Hb Hn) as [-> _].
    reflexivity.
Qed.

Lemma wrap_region_sized sigma L N b :
  fair sigma -> sized2 N b -> sized2 N (parallel_for sigma 0 N (wrap_body L) b).
Proof.
  intros Fs Hb. unfold parallel_for. rewrite Nat.sub_0_r.
  apply (region_inv (wrap_body L) (sized2 N) N); auto.
  intros n s Hs Hn. eapply wrap_body_sized; eauto.
Qed.

Lemma wrap_region_schedule sigma1 sigma2 L N b :
  fair sigma1 -> fair sigma2 -> sized2 N b ->
  parallel_for sigma1 0 N (wrap_body L) b =
  parallel_for sigma2 0 N (wrap_body L) b.
Proof.
  intros F1 F2 Hb. apply rr1_eq_slots with N.
  - apply wrap_region_sized; assumption.
  - apply wrap_region_sized; assumption.
  - intros n Hn.
    destruct (wrap_region sigma1 L N b n F1 Hb Hn) as [-> _].
    destruct (wrap_region sigma2 L N b n F2 Hb Hn) as [-> _].
    reflexivity.
Qed.

Lemma Calc_Forces_split rt s :
  Calc_Forces rt s =
  download_F
    (host_energy rt (run_force rt (run_init_force rt (upload_r (upload_F s))))).
Proof. reflexivity. Qed.

Lemma run_init_force_schedule rt1 rt2 s :
  fair_runtime rt1 -> fair_runtime rt2 -> length (F_dev_ s) = NumAtom_ s ->
  run_init_force rt1 s = run_init_force rt2 s.
Proof.
  intros (F1 & _) (F2 & _) H. unfold run_init_force.
  rewrite (init_force_launch_schedule _ (order_init_force rt2)); auto.
Qed.

Lemma run_force_schedule rt1 rt2 s :
  fair_runtime rt1 -> fair_runtime rt2 -> length (F_dev_ s) = NumAtom_ s ->
  run_force rt1 s = run_force rt2 s.
Proof.
  intros (_ & F1 & _) (_ & F2 & _) H. unfold run_force.
  rewrite (force_launch_schedule _ (order_force rt2)); auto.
Qed.

Lemma uploaded_forces_length s :
  sized s -> length (F_dev_ (upload_r (upload_F s))) =
             NumAtom_ (upload_r (upload_F s)).
Proof.
  intros (HF & HV & Hr & Hr1 & HFd & HVd & Hrd & Hr1d). md_open s.
  rewrite (copy_same_length F Fd) by congruence. exact HF.
Qed.

Lemma zeroed_forces_length rt s :
  fair_runtime rt -> sized s ->
  length (F_dev_ (run_init_force rt (upload_r (upload_F s)))) =
  NumAtom_ (run_init_force rt (upload_r (upload_F s))).
Proof.
  intros (Fi & _) Hs. pose proof (uploaded_forces_length s Hs) as H.
  revert H. generalize (upload_r (upload_F s)). intros x H.
  unfold run_init_force. md_proj.
  apply init_force_launch_length; assumption.
Qed.

Lemma advance_schedule rt1 rt2 s :
  fair_runtime rt1 -> fair_runtime rt2 ->
  sized3 (NumAtom_ s) (r_dev_ s, r1_dev_ s, V_dev_ s) ->
  advance rt1 s = advance rt2 s.
Proof.
  intros (_ & _ & _ & F1 & _) (_ & _ & _ & F2 & _) Hs. unfold advance.
  destruct (MD_iter_ s =? 1)%Z.
  - rewrite (move_atoms1_launch_schedule _ (order_move rt2)) by assumption.
    reflexivity.
  - rewrite (move_atoms_launch_schedule _ (order_move rt2)) by assumption.
    reflexivity.
Qed.

Lemma uploaded_sized3 s :
  sized s ->
  let x := kinetic (upload_V (upload_r1 (upload_r (upload_F s)))) in
  sized3 (NumAtom_ x) (r_dev_ x, r1_dev_ x, V_dev_ x).
Proof.
  intros (HF & HV & Hr & Hr1 & HFd & HVd & Hrd & Hr1d). md_open s.
  md_proj_k.
  rewrite (copy_same_length r rd), (copy_same_length r1 r1d),
    (copy_same_length V Vd) by congruence.
  repeat split; assumption.
Qed.

Lemma before_wrap_schedule rt1 rt2 s :
  fair_runtime rt1 -> fair_runtime rt2 -> sized s ->
  before_wrap rt1 s = before_wrap rt2 s.
Proof.
  intros H1 H2 Hs. unfold before_wrap. cbv zeta.
  rewrite (advance_schedule rt1 rt2) by (auto using uploaded_sized3).
  reflexivity.
Qed.

Lemma wrap_schedule rt1 rt2 s :
  fair_runtime rt1 -> fair_runtime rt2 -> sized s -> wrap rt1 s = wrap rt2 s.
Proof.
  intros (_ & _ & _ & _ & F1 & _) (_ & _ & _ & _ & F2 & _)
    (HF & HV & Hr & Hr1 & _). unfold wrap.
  rewrite (wrap_region_schedule _ (order_wrap rt2)) by (auto; split; auto).
  reflexivity.
Qed.

Lemma Move_Atoms_schedule rt1 rt2 s :
  fair_runtime rt1 -> fair_runtime rt2 -> sized s ->
  Move_Atoms rt1 s = Move_Atoms rt2 s.
Proof.
  intros H1 H2 Hs. rewrite !Move_Atoms_split.
  rewrite (before_wrap_schedule rt1 rt2) by assumption.
  rewrite (wrap_schedule rt1 rt2)
    by (auto using before_wrap_sized_all).
  reflexivity.
Qed.

Lemma run_cons rt c calls s :
  run rt (c :: calls) s = run rt calls (do_call rt c s).
Proof. reflexivity. Qed.

Lemma do_call_sized rt c s :
  fair_runtime rt -> sized s -> sized (do_call rt c s).
Proof.
  intros Hrt Hs. destruct c; cbn [do_call].
  - apply Calc_Forces_sized; assumption.
  - apply Move_Atoms_sized; assumption.
Qed.

Lemma run_from_sized rt calls s :
  fair_runtime rt -> sized s -> sized (run rt calls s).
Proof.
  intros Hrt. revert s. induction calls as [|c calls IH]; intros s Hs.
  - exact Hs.
  - rewrite run_cons. apply IH, do_call_sized; assumption.
Qed.

Lemma backwards_fair : fair_runtime backwards.
Proof.
  assert (R : fair (@rev nat)).
  { intros l. apply Permutation_sym, Permutation_rev. }
  repeat split; try exact R.
  intros n. cbn [worker_of workers backwards].
  apply Nat.mod_upper_bound. discriminate.
Qed.

(** ** Calc_Forces called twice *)

Lemma Calc_Forces_r_dev rt s :
  sized s -> r_dev_ (Calc_Forces rt s) = r_ s.
Proof.
  intros (HF & HV & Hr & Hr1 & HFd & HVd & Hrd & Hr1d). md_open s.
  calc_forces_unfold. apply copy_same_length. congruence.
Qed.

Lemma Calc_Forces_F_list rt s :
  fair_runtime rt -> sized s ->
  F_ (Calc_Forces rt s) = F_dev_ (Calc_Forces rt s).
Proof.
  intros Hrt Hs. pose proof (Calc_Forces_sized rt s Hrt Hs) as Hs'.
  destruct (Calc_Forces_frame rt s) as (_ & _ & _ & _ & _ & _ & EN & _).
  destruct Hs' as (HF & _ & _ & _ & HFd & _).
  apply list_eq_slots with (NumAtom_ s); [congruence|congruence|].
  intros n Hn. rewrite (Calc_Forces_F rt s n Hrt Hs Hn).
  destruct (Calc_Forces_F_dev rt s n Hrt Hs Hn) as [-> _]. reflexivity.
Qed.

(** ** Action and reaction *)

Lemma Rsum_cons x l : Rsum (x :: l) = x + Rsum l.
Proof. reflexivity. Qed.

Lemma data_fold_vadd (l : list Vector4) a c :
  data (fold_left vadd l a) c = data a c + Rsum (map (fun v => data v c) l).
Proof.
  revert a. induction l as [|v l IH]; intros a; cbn [fold_left map].
  - unfold Rsum. cbn [fold_right]. lra.
  - rewrite IH, data_vadd, Rsum_cons. lra.
Qed.

Lemma net_force_component r N L n c :
  data (net_force r ncp_ N L rc2_ n) c =
  Rsum (map (fun '(m, (i, j, k)) =>
               data (pair_force (displacement r L n m i j k)) c)
          (force_pairs r ncp_ N L rc2_ n)).
Proof.
  unfold net_force, vsum. rewrite data_fold_vadd, data_splat, map_map.
  replace 0.0 with 0 by lra. rewrite Rplus_0_l. f_equal.
  apply map_ext. intros [m [[i j] k]]. reflexivity.
Qed.

Lemma atom_sum_pairs (h : Vector4 -> R) r N L :
  Rsum (map (fun n =>
          Rsum (map (fun '(m, (i, j, k)) => h (displacement r L n m i j k))
                  (force_pairs r ncp_ N L rc2_ n))) (seq 0 N)) =
  Rsum (map (fun p => h (pair_displacement r L p))
          (List.filter (interacting r L rc2_) (all_pairs N ncp_))).
Proof.
  unfold all_pairs. rewrite filter_flat_map, Rsum_flat_map.
  apply Rsum_map_ext. intros n _. unfold force_pairs.
  rewrite filter_map_comm, map_map. f_equal.
  erewrite List.filter_ext; [apply map_ext|].
  - intros [m [[i j] k]]. reflexivity.
  - intros [m [[i j] k]]. reflexivity.
Qed.

Lemma mirror_displacement r L p c :
  data (pair_displacement r L (mirror p)) c =
  - data (pair_displacement r L p) c.
Proof.
  destruct p as [n [m [[i j] k]]].
  unfold mirror, pair_displacement, displacement, image_shift.
  destruct (r !!! n) as [nx ny nz nw], (r !!! m) as [mx my mz mw].
  destruct c as [|[|[|c]]]; cbn [data vsub vadd vx vy vz vw];
    rewrite ?opp_IZR; try ring; lra.
Qed.

Lemma pair_force_opp d d' c :
  (forall i, data d' i = - data d i) ->
  data (pair_force d') c = - data (pair_force d) c.
Proof.
  intros H.
  assert (E : dist2 d' = dist2 d).
  { unfold dist2. pose proof (H 0%nat) as H0. pose proof (H 1%nat) as H1.
    pose proof (H 2%nat) as H2. cbn [data] in H0, H1, H2.
    rewrite H0, H1, H2. ring. }
  unfold pair_force. data_norm. rewrite E, H. unfold Rdiv. ring.
Qed.

Lemma mirror_pair_force r L p c :
  data (pair_force (pair_displacement r L (mirror p))) c =
  - data (pair_force (pair_displacement r L p)) c.
Proof. apply pair_force_opp. intros i. apply mirror_displacement. Qed.

Lemma antisymmetric_sum (g : opair -> R) r N L :
  (forall p, g (mirror p) = - g p) ->
  Rsum (map g (List.filter (interacting r L rc2_) (all_pairs N ncp_))) = 0.
Proof.
  intros H. rewrite (Rsum_filter_split _ representative).
  rewrite (Rsum_Permutation _ _
             (Permutation_map _ (mirror_halves r N L))).
  rewrite map_map.
  rewrite (Rsum_map_ext (fun p => g (mirror p)) (fun p => -1 * g p))
    by (intros p _; rewrite H; ring).
  rewrite Rsum_scale. lra.
Qed.

Lemma total_slots c N (a : list Vector4) (g : nat -> R) :
  (forall n, (n < N)%nat -> data (a !!! n) c = g n) ->
  total c N a = Rsum (map g (seq 0 N)).
Proof.
  intros H. unfold total. apply Rsum_map_ext. intros n Hn.
  apply H. apply in_seq in Hn. lia.
Qed.

Lemma net_force_total r N L c :
  Rsum (map (fun n => data (net_force r ncp_ N L rc2_ n) c) (seq 0 N)) = 0.
Proof.
  rewrite (Rsum_map_ext _ _ _
             (fun n _ => net_force_component r N L n c)).
  rewrite (atom_sum_pairs (fun d => data (pair_force d) c)).
  apply antisymmetric_sum. intros p. apply mirror_pair_force.
Qed.

Lemma Calc_Forces_total rt s c :
  fair_runtime rt -> sized s ->
  total c (NumAtom_ s) (F_ (Calc_Forces rt s)) = 0.
Proof.
  intros Hrt Hs.
  rewrite (total_slots c _ _
             (fun n => data (net_force (r_ s) ncp_ (NumAtom_ s)
                               (periodiclen_ s) rc2_ n) c)).
  - apply net_force_total.
  - intros n Hn. rewrite (Calc_Forces_F rt s n Hrt Hs Hn). reflexivity.
Qed.

(** ** The motion of the centre of mass *)

Lemma Rsum_linear3 {A : Type} (a b f : A -> R) (ka kb kf : R) (l : list A) :
  Rsum (map (fun n => ka * a n + kb * b n + kf * f n) l) =
  ka * Rsum (map a l) + kb * Rsum (map b l) + kf * Rsum (map f l).
Proof.
  induction l as [|x l IH]; cbn [map].
  - unfold Rsum. cbn [fold_right]. ring.
  - rewrite !Rsum_cons, IH. ring.
Qed.

Lemma total_linear3 c N (x a b f : list Vector4) (ka kb kf : R) :
  (forall n, (n < N)%nat ->
     data (x !!! n) c =
     ka * data (a !!! n) c + kb * data (b !!! n) c + kf * data (f !!! n) c) ->
  total c N x = ka * total c N a + kb * total c N b + kf * total c N f.
Proof.
  intros H. unfold total. rewrite <- Rsum_linear3.
  apply Rsum_map_ext. intros n Hn. apply H. apply in_seq in Hn. lia.
Qed.

Lemma total_difference c N (x y a b f : list Vector4) (ka kb kf : R) :
  (forall n, (n < N)%nat ->
     data (x !!! n) c - data (y !!! n) c =
     ka * data (a !!! n) c + kb * data (b !!! n) c + kf * data (f !!! n) c) ->
  total c N x - total c N y =
  ka * total c N a + kb * total c N b + kf * total c N f.
Proof.
  intros H. unfold total. rewrite <- Rsum_linear3.
  replace (Rsum (map (fun n => data (x !!! n) c) (seq 0 N)) -
           Rsum (map (fun n => data (y !!! n) c) (seq 0 N)))
    with (1 * Rsum (map (fun n => data (x !!! n) c) (seq 0 N)) +
          -1 * Rsum (map (fun n => data (y !!! n) c) (seq 0 N)) +
          0 * Rsum (map (fun n => data (y !!! n) c) (seq 0 N))) by ring.
  rewrite <- Rsum_linear3.
  apply Rsum_map_ext. intros n Hn. apply in_seq in Hn.
  rewrite <- H by lia. ring.
Qed.

(** The periodic boundary treatment moves [r_[n]] and [r1_[n]] together. *)
Lemma Move_Atoms_difference rt s n c :
  fair_runtime rt -> sized s -> (n < NumAtom_ s)%nat -> (c < 3)%nat ->
  data (r_ (Move_Atoms rt s) !!! n) c - data (r1_ (Move_Atoms rt s) !!! n) c =
  data (r_ (before_wrap rt s) !!! n) c - data (r1_ (before_wrap rt s) !!! n) c.
Proof.
  intros Hrt Hs Hn Hc.
  pose proof (before_wrap_sized_all rt s Hrt Hs) as Hb.
  destruct (Move_Atoms_atoms rt s n Hrt Hb Hn) as [E _].
  apply pair_proj in E as [-> ->].
  pose proof (wrap_atom_component (periodiclen_ s)
                (r_ (before_wrap rt s) !!! n) (r1_ (before_wrap rt s) !!! n)
                c Hc) as W.
  pose proof (wrap_scalar_cases (periodiclen_ s)
                (data (r_ (before_wrap rt s) !!! n) c)
                (data (r1_ (before_wrap rt s) !!! n) c)) as K.
  destruct (wrap_scalar _ _ _) as [x' p'].
  apply pair_eq in W as [-> ->].
  destruct K as (_ & _ & _ & K & _). lra.
Qed.

Lemma Move_Atoms_steady_atom rt s n c :
  fair_runtime rt -> sized s -> (n < NumAtom_ s)%nat -> (c < 3)%nat ->
  MD_iter_ s <> 1%Z ->
  data (V_ (Move_Atoms rt s) !!! n) c =
    / DT * data (r_ s !!! n) c + - / DT * data (r1_ s !!! n) c
    + 0.5 * DT * data (F_ s !!! n) c /\
  data (r_ (Move_Atoms rt s) !!! n) c - data (r1_ (Move_Atoms rt s) !!! n) c =
    1 * data (r_ s !!! n) c + -1 * data (r1_ s !!! n) c
    + DT * DT * data (F_ s !!! n) c.
Proof.
  intros Hrt Hs Hn Hc Hi.
  rewrite (Move_Atoms_difference rt s n c Hrt Hs Hn Hc).
  destruct (Move_Atoms_frame rt s) as (_ & _ & _ & _ & _ & _ & _ & _ & _ & ->).
  destruct (before_wrap_steady rt s n Hrt Hs Hn Hi) as [E _].
  unfold verlet_atom in E. apply triple_eq in E as (-> & -> & ->).
  data_norm. assert (DT <> 0) by (unfold DT; lra).
  replace 2.0 with 2 by lra. replace 0.5 with (/ 2) by lra.
  split; [field; assumption | ring].
Qed.

Lemma Move_Atoms_first_atom rt s n c :
  fair_runtime rt -> sized s -> (n < NumAtom_ s)%nat -> (c < 3)%nat ->
  MD_iter_ s = 1%Z ->
  let sc := woodcock (Tg_ s) (Tc_ (kinetic s)) in
  data (V_ (Move_Atoms rt s) !!! n) c =
    sc * data (V_ s !!! n) c + 0 * data (V_ s !!! n) c
    + DT * data (F_ s !!! n) c /\
  data (r_ (Move_Atoms rt s) !!! n) c - data (r1_ (Move_Atoms rt s) !!! n) c =
    DT * sc * data (V_ s !!! n) c + 0 * data (V_ s !!! n) c
    + 0.5 * (DT * DT) * data (F_ s !!! n) c.
Proof.
  intros Hrt Hs Hn Hc Hi sc.
  rewrite (Move_Atoms_difference rt s n c Hrt Hs Hn Hc).
  destruct (Move_Atoms_frame rt s) as (_ & _ & _ & _ & _ & _ & _ & _ & _ & ->).
  destruct (before_wrap_first rt s n Hrt Hs Hn Hi) as [E _].
  unfold euler_atom in E. apply triple_eq in E as (-> & -> & ->).
  data_norm. fold sc. split; ring.
Qed.

Lemma Move_Atoms_NumAtom rt s : NumAtom_ (Move_Atoms rt s) = NumAtom_ s.
Proof. apply Move_Atoms_frame. Qed.

Lemma Move_Atoms_F rt s : F_ (Move_Atoms rt s) = F_ s.
Proof. apply Move_Atoms_frame. Qed.

(** The sums over the atoms after a step of [move_atoms]. *)
Lemma Move_Atoms_steady_totals rt s c :
  fair_runtime rt -> sized s -> (c < 3)%nat -> MD_iter_ s <> 1%Z ->
  drift c (Move_Atoms rt s) =
    drift c s + DT * DT * total c (NumAtom_ s) (F_ s) /\
  total c (NumAtom_ s) (V_ (Move_Atoms rt s)) =
    / DT * drift c s + 0.5 * DT * total c (NumAtom_ s) (F_ s).
Proof.
  intros Hrt Hs Hc Hi. unfold drift. rewrite Move_Atoms_NumAtom. split.
  - rewrite (total_difference c (NumAtom_ s) _ _ (r_ s) (r1_ s) (F_ s)
               1 (-1) (DT * DT)).
    + ring.
    + intros n Hn. apply Move_Atoms_steady_atom; assumption.
  - rewrite (total_linear3 c (NumAtom_ s) _ (r_ s) (r1_ s) (F_ s)
               (/ DT) (- / DT) (0.5 * DT)).
    + ring.
    + intros n Hn. apply Move_Atoms_steady_atom; assumption.
Qed.

(** The sums over the atoms after the step of [move_atoms1]. *)
Lemma Move_Atoms_first_totals rt s c :
  fair_runtime rt -> sized s -> (c < 3)%nat -> MD_iter_ s = 1%Z ->
  let sc := woodcock (Tg_ s) (Tc_ (kinetic s)) in
  drift c (Move_Atoms rt s) =
    DT * sc * total c (NumAtom_ s) (V_ s)
    + 0.5 * (DT * DT) * total c (NumAtom_ s) (F_ s) /\
  total c (NumAtom_ s) (V_ (Move_Atoms rt s)) =
    sc * total c (NumAtom_ s) (V_ s) + DT * total c (NumAtom_ s) (F_ s).
Proof.
  intros Hrt Hs Hc Hi sc. unfold drift. rewrite Move_Atoms_NumAtom. split.
  - rewrite (total_difference c (NumAtom_ s) _ _ (V_ s) (V_ s) (F_ s)
               (DT * sc) 0 (0.5 * (DT * DT))).
    + ring.
    + intros n Hn. apply Move_Atoms_first_atom; assumption.
  - rewrite (total_linear3 c (NumAtom_ s) _ (V_ s) (V_ s) (F_ s)
               sc 0 DT).
    + ring.
    + intros n Hn. apply Move_Atoms_first_atom; assumption.
Qed.

Lemma Calc_Forces_drift rt s c : drift c (Calc_Forces rt s) = drift c s.
Proof.
  unfold drift.
  destruct (Calc_Forces_frame rt s)
    as (-> & -> & _ & _ & _ & _ & -> & _). reflexivity.
Qed.

(** ** The total momentum along a run *)

Lemma construct_F nc scale u mr :
  F_ (construct nc scale u mr) = host_vector (nc * nc * nc * 4).
Proof.
  rewrite construct_unfold.
  destruct (set_periodiclen_frame
              (lat_ (MD_initVel mr (MD_initPos (members_initialised nc scale u)))
               * INR (Nc_ (MD_initVel mr
                             (MD_initPos (members_initialised nc scale u)))))
              (MD_initVel mr (MD_initPos (members_initialised nc scale u))))
    as (_ & _ & -> & _).
  destruct (init_frame mr (members_initialised nc scale u)) as (-> & _).
  reflexivity.
Qed.

Lemma construct_F_total nc scale u mr c :
  total c (NumAtom_ (construct nc scale u mr)) (F_ (construct nc scale u mr))
  = 0.
Proof.
  rewrite construct_F, construct_NumAtom.
  assert (E : (nc * nc * nc * 4 = 4 * nc ^ 3)%nat) by (cbn [Nat.pow]; lia).
  rewrite E.
  rewrite (total_linear3 c _ _ [] [] [] 0 0 0); [ring|].
  intros n Hn. unfold host_vector.
  rewrite lookup_total_replicate_2 by lia.
  destruct c as [|[|[|c]]]; cbn [data Vector4_xyz vx vy vz vw]; ring.
Qed.

Lemma construct_balanced nc scale u mr c :
  (c < 3)%nat -> balanced c (construct nc scale u mr).
Proof.
  intros Hc. split; [apply construct_sized|].
  split; [apply construct_F_total|].
  split; [apply construct_velocities, Hc|].
  intros H. destruct H. apply construct_iter.
Qed.

Lemma Calc_Forces_balanced rt s c :
  fair_runtime rt -> balanced c s -> balanced c (Calc_Forces rt s).
Proof.
  intros Hrt (Hs & HF & HV & HD).
  destruct (Calc_Forces_frame rt s)
    as (_ & _ & EV & Ei & _ & _ & EN & _).
  split; [apply Calc_Forces_sized; assumption|].
  rewrite EN, EV, Ei, Calc_Forces_drift.
  split; [apply Calc_Forces_total; assumption|].
  split; assumption.
Qed.

Lemma Move_Atoms_balanced rt s c :
  fair_runtime rt -> (c < 3)%nat -> balanced c s ->
  balanced c (Move_Atoms rt s).
Proof.
  intros Hrt Hc (Hs & HF & HV & HD).
  split; [apply Move_Atoms_sized; assumption|].
  rewrite Move_Atoms_NumAtom, Move_Atoms_F.
  split; [exact HF|].
  destruct (Z.eq_dec (MD_iter_ s) 1%Z) as [Hi|Hi].
  - destruct (Move_Atoms_first_totals rt s c Hrt Hs Hc Hi) as [D T].
    rewrite HF, HV in D, T. split.
    + rewrite T. ring.
    + intros _. rewrite D. ring.
  - destruct (Move_Atoms_steady_totals rt s c Hrt Hs Hc Hi) as [D T].
    rewrite HF, (HD Hi) in D, T. split.
    + rewrite T. ring.
    + intros _. rewrite D. ring.
Qed.

Lemma run_balanced rt calls s c :
  fair_runtime rt -> (c < 3)%nat -> balanced c s ->
  balanced c (run rt calls s).
Proof.
  intros Hrt Hc. revert s. induction calls as [|k calls IH]; intros s Hs.
  - exact Hs.
  - rewrite run_cons. apply IH. destruct k; cbn [do_call].
    + apply Calc_Forces_balanced; assumption.
    + apply Move_Atoms_balanced; assumption.
Qed.

(** ** The step counter and the time *)

Lemma MD_initPos_t s : t_ (MD_initPos s) = t_ s.
Proof.
  unfold MD_initPos. destruct (for_loop _ _ _) as [r n]. md_proj.
  destruct (sum3 n r) as [[sx sy] sz]. md_proj. reflexivity.
Qed.

Lemma MD_initVel_t mr s : t_ (MD_initVel mr s) = t_ s.
Proof.
  unfold MD_initVel. destruct (generate _ _ _) as [V mr']. md_proj.
  destruct (sum3 _ V) as [[sx sy] sz]. md_proj. reflexivity.
Qed.

Lemma set_periodiclen_t v s : t_ (set_periodiclen v s) = t_ s.
Proof. destruct s. reflexivity. Qed.

Lemma construct_t nc scale u mr : t_ (construct nc scale u mr) = 0.0.
Proof.
  rewrite construct_unfold, set_periodiclen_t, MD_initVel_t, MD_initPos_t.
  reflexivity.
Qed.

Lemma moves_CalcForces calls : moves (CalcForces :: calls) = moves calls.
Proof. reflexivity. Qed.

Lemma moves_MoveAtoms calls : moves (MoveAtoms :: calls) = S (moves calls).
Proof. reflexivity. Qed.

(** ** The integrator read backwards *)

Lemma time_reversed_sized N b : sized3 N b -> sized3 N (time_reversed b).
Proof.
  destruct b as [[r r1] V]. intros (Hr & Hr1 & HV).
  repeat split; assumption.
Qed.

Lemma slot3_time_reversed n b :
  slot3 n (time_reversed b) =
  (snd (fst (slot3 n b)), fst (fst (slot3 n b)), snd (slot3 n b)).
Proof. destruct b as [[r r1] V]. reflexivity. Qed.

Lemma verlet_atom_back deltat fn r r1 V :
  let a := verlet_atom deltat fn (r, r1, V) in
  let b := verlet_atom deltat fn (snd (fst a), fst (fst a), snd a) in
  fst (fst b) = r1 /\ snd (fst b) = r.
Proof.
  unfold verlet_atom. cbn [fst snd]. split; [|reflexivity].
  apply Vector4_eq. intros i. data_norm. ring.
Qed.

(** X7.  The kernel [move_atoms] is time-reversible.  Launch it on the
    buffers [(r, r1, V)], exchange the two position buffers of the result
    and launch it again with the same forces: the position buffer then
    holds the prior positions [r1] of the start and the prior-position
    buffer holds the positions [r] of the start, entry for entry, for any
    schedules of the two launches, any time step and any forces. *)
Theorem X7_move_atoms_reversible sigma1 sigma2 f deltat N r r1 V :
  fair sigma1 -> fair sigma2 -> sized3 N (r, r1, V) ->
  let forward :=
    enqueue_1d_range_kernel sigma1 (move_atoms f deltat) N (r, r1, V) in
  let back :=
    enqueue_1d_range_kernel sigma2 (move_atoms f deltat) N
      (time_reversed forward) in
  fst (fst back) = r1 /\ snd (fst back) = r.
Proof.
  intros F1 F2 Hb forward back.
  assert (Hf : sized3 N forward).
  { apply move_launch_sized; auto. intros; eapply move_atoms_sized; eauto. }
  pose proof (time_reversed_sized N forward Hf) as Hr.
  assert (Hk : sized3 N back).
  { apply move_launch_sized; auto. intros; eapply move_atoms_sized; eauto. }
  assert (S : forall n, (n < N)%nat ->
            fst (fst back) !!! n = r1 !!! n /\
            snd (fst back) !!! n = r !!! n).
  { intros n Hn.
    destruct (move_atoms_launch sigma2 f deltat N (time_reversed forward) n
                F2 Hr Hn) as [E2 _].
    destruct (move_atoms_launch sigma1 f deltat N (r, r1, V) n F1 Hb Hn)
      as [E1 _].
    fold forward in E1. fold back in E2.
    rewrite slot3_time_reversed, E1 in E2. cbn [slot3] in E2.
    destruct (verlet_atom_back deltat (f !!! n) (r !!! n) (r1 !!! n)
                (V !!! n)) as [B1 B2].
    rewrite <- E2 in B1, B2.
    destruct back as [[x y] z]. cbn [slot3 fst snd] in *.
    split; assumption. }
  destruct back as [[x y] z]. destruct Hk as (Lx & Ly & Lz).
  destruct Hb as (Lr & Lr1 & LV). cbn [fst snd] in *.
  split; apply list_eq_slots with N; auto; intros n Hn; apply S, Hn.
Qed.

Lemma X7_move_atoms_reversible_witness :
  let forward :=
    enqueue_1d_range_kernel in_order (move_atoms one_moving DT) 4
      (fcc4, fcc4_prior, at_rest) in
  fst (fst (enqueue_1d_range_kernel (@rev nat) (move_atoms one_moving DT) 4
              (time_reversed forward))) = fcc4_prior.
Proof.
  exact (proj1
    (X7_move_atoms_reversible in_order (@rev nat) one_moving DT 4
       fcc4 fcc4_prior at_rest in_order_fair
       (fun l => Permutation_sym (Permutation_rev l))
       (conj eq_refl (conj eq_refl eq_refl)))).
Defined.

(** ** The periodic boundary treatment applied twice *)

Lemma Vector4_eq3 a b :
  (forall c, (c < 3)%nat -> data a c = data b c) -> vw a = vw b -> a = b.
Proof.
  intros H Hw. apply Vector4_eq. intros [|[|[|i]]].
  - apply H. lia.
  - apply H. lia.
  - apply H. lia.
  - exact Hw.
Qed.

Lemma wrap_atom_fixed L a b :
  (forall c, (c < 3)%nat -> 0 <= data a c <= L) -> wrap_atom L (a, b) = (a, b).
Proof.
  intros H.
  destruct (wrap_atom_w L a b) as [Wa Wb].
  assert (C : forall c, (c < 3)%nat ->
            data (fst (wrap_atom L (a, b))) c = data a c /\
            data (snd (wrap_atom L (a, b))) c = data b c).
  { intros c Hc. pose proof (wrap_atom_component L a b c Hc) as W.
    pose proof (wrap_scalar_cases L (data a c) (data b c)) as K.
    destruct (wrap_scalar _ _ _) as [x' p'].
    apply pair_eq in W as [-> ->].
    destruct K as (K & _). apply K, H, Hc. }
  destruct (wrap_atom L (a, b)) as [a' b']. cbn [fst snd] in *.
  f_equal; apply Vector4_eq3; auto; intros c Hc; apply C, Hc.
Qed.

Lemma set_r_r1_same s : set_r1 (r1_ s) (set_r (r_ s) s) = s.
Proof. destruct s. reflexivity. Qed.

Lemma wrap_fixed rt s :
  fair_runtime rt -> sized s ->
  (forall n c, (n < NumAtom_ s)%nat -> (c < 3)%nat ->
     0 <= data (r_ s !!! n) c <= periodiclen_ s) ->
  wrap rt s = s.
Proof.
  intros (_ & _ & _ & _ & Fw & _) (HF & HV & Hr & Hr1 & _) H.
  assert (E : parallel_for (order_wrap rt) 0 (NumAtom_ s)
                (wrap_body (periodiclen_ s)) (r_ s, r1_ s) = (r_ s, r1_ s)).
  { apply rr1_eq_slots with (NumAtom_ s).
    - apply wrap_region_sized; [exact Fw|split; assumption].
    - split; assumption.
    - intros n Hn.
      destruct (wrap_region (order_wrap rt) (periodiclen_ s) (NumAtom_ s)
                  (r_ s, r1_ s) n Fw (conj Hr Hr1) Hn) as [-> _].
      cbn [slot2]. apply wrap_atom_fixed. intros c Hc. apply H; assumption. }
  unfold wrap. rewrite E. apply set_r_r1_same.
Qed.

Lemma wrap_into_box rt s n c :
  fair_runtime rt -> sized s -> (n < NumAtom_ s)%nat -> (c < 3)%nat ->
  - periodiclen_ s <= data (r_ s !!! n) c <= 2 * periodiclen_ s ->
  0 <= data (r_ (wrap rt s) !!! n) c <= periodiclen_ s.
Proof.
  intros Hrt Hs Hn Hc Hx.
  destruct (wrap_atoms rt s n Hrt Hs Hn) as [E _].
  apply pair_proj in E as [-> _].
  pose proof (wrap_atom_component (periodiclen_ s) (r_ s !!! n) (r1_ s !!! n)
                c Hc) as W.
  pose proof (wrap_scalar_cases (periodiclen_ s) (data (r_ s !!! n) c)
                (data (r1_ s !!! n) c)) as K.
  destruct (wrap_scalar _ _ _) as [x' p'].
  apply pair_eq in W as [-> _].
  destruct K as (_ & _ & _ & _ & K). apply K, Hx.
Qed.

(** X8.  The periodic boundary treatment is idempotent on the positions it
    can bring back.  If every component x, y, z of every position lies
    between minus the box length and twice the box length, the loop at the
    end of [Move_Atoms] brings each of them into the closed interval from 0
    to the box length, and running the loop a second time, under any run
    time, changes nothing in the object. *)
Theorem X8_wrap_idempotent rt1 rt2 s :
  fair_runtime rt1 -> fair_runtime rt2 -> sized s ->
  (forall n c, (n < NumAtom_ s)%nat -> (c < 3)%nat ->
     - periodiclen_ s <= data (r_ s !!! n) c <= 2 * periodiclen_ s) ->
  (forall n c, (n < NumAtom_ s)%nat -> (c < 3)%nat ->
     0 <= data (r_ (wrap rt1 s) !!! n) c <= periodiclen_ s) /\
  wrap rt2 (wrap rt1 s) = wrap rt1 s.
Proof.
  intros H1 H2 Hs H.
  assert (B : forall n c, (n < NumAtom_ s)%nat -> (c < 3)%nat ->
            0 <= data (r_ (wrap rt1 s) !!! n) c <= periodiclen_ s).
  { intros n c Hn Hc. apply wrap_into_box; auto. }
  split; [exact B|].
  destruct (wrap_frame rt1 s) as (EN & EL & _).
  apply wrap_fixed; [assumption|apply wrap_sized; assumption|].
  rewrite EN, EL. exact B.
Qed.

Lemma fcc4_in_reach n c :
  (n < 4)%nat -> (c < 3)%nat -> -4 <= data (fcc4 !!! n) c <= 2 * 4.
Proof.
  intros Hn Hc.
  destruct n as [|[|[|[|n]]]]; [| | | |lia];
    destruct c as [|[|[|c]]]; try lia;
    unfold fcc4; cbn [lookup_total list_lookup_total data vx vy vz]; lra.
Qed.

Lemma X8_wrap_idempotent_witness :
  let s := four_atoms fcc4 fcc4_prior at_rest at_rest 2 4 0 in
  wrap backwards (wrap sequential s) = wrap sequential s.
Proof.
  exact (proj2
    (X8_wrap_idempotent sequential backwards
       (four_atoms fcc4 fcc4_prior at_rest at_rest 2 4 0)
       sequential_fair backwards_fair
       (sized_four_atoms fcc4 fcc4_prior at_rest at_rest 2 4 0
          eq_refl eq_refl eq_refl eq_refl)
       fcc4_in_reach)).
Defined.

(** ** What Move_Atoms leaves alone *)

Lemma before_wrap_constants rt s :
  lat_ (before_wrap rt s) = lat_ s /\ Nc_ (before_wrap rt s) = Nc_ s /\
  scale_ (before_wrap rt s) = scale_ s /\ Tg_ (before_wrap rt s) = Tg_ s /\
  F_dev_ (before_wrap rt s) = copy (F_ s) (F_dev_ s).
Proof.
  md_open s. repeat split; before_wrap_unfold;
  destruct (iter =? 1)%Z;
    match goal with
    | |- context [enqueue_1d_range_kernel ?a ?b ?c ?d] =>
        destruct (enqueue_1d_range_kernel a b c d) as [[r' r1'] V']
    end; md_proj_k; reflexivity.
Qed.

Lemma wrap_constants rt s :
  lat_ (wrap rt s) = lat_ s /\ Nc_ (wrap rt s) = Nc_ s /\
  scale_ (wrap rt s) = scale_ s /\ Tg_ (wrap rt s) = Tg_ s.
Proof.
  unfold wrap. destruct (parallel_for _ _ _ _ _) as [r' r1']. md_proj.
  repeat split; reflexivity.
Qed.

Lemma Move_Atoms_constants rt s :
  lat_ (Move_Atoms rt s) = lat_ s /\ Nc_ (Move_Atoms rt s) = Nc_ s /\
  scale_ (Move_Atoms rt s) = scale_ s /\ Tg_ (Move_Atoms rt s) = Tg_ s /\
  F_dev_ (Move_Atoms rt s) = copy (F_ s) (F_dev_ s).
Proof.
  rewrite Move_Atoms_split. unfold tick. md_proj.
  destruct (wrap_constants rt (before_wrap rt s)) as (E1 & E2 & E3 & E4).
  destruct (wrap_frame rt (before_wrap rt s))
    as (_ & _ & _ & _ & _ & _ & _ & _ & _ & _ & E5 & _).
  destruct (before_wrap_constants rt s) as (B1 & B2 & B3 & B4 & B5).
  repeat split; congruence.
Qed.

(** X9.  What [Move_Atoms] leaves alone.  Under any run time and on any
    object, [Move_Atoms] changes neither the forces [F_], the potential
    energy [Up_], the number of atoms, the box length, the lattice
    constant, the number of cells, the scale nor the target temperature
    [Tg_]; the only thing it does with the forces is to copy them to the
    device, so that on an object whose arrays have the length [NumAtom_]
    the device mirror [F_dev_] equals [F_] afterwards. *)
Theorem X9_Move_Atoms_frame rt s :
  F_ (Move_Atoms rt s) = F_ s /\ Up_ (Move_Atoms rt s) = Up_ s /\
  NumAtom_ (Move_Atoms rt s) = NumAtom_ s /\
  periodiclen_ (Move_Atoms rt s) = periodiclen_ s /\
  lat_ (Move_Atoms rt s) = lat_ s /\ Nc_ (Move_Atoms rt s) = Nc_ s /\
  scale_ (Move_Atoms rt s) = scale_ s /\ Tg_ (Move_Atoms rt s) = Tg_ s /\
  F_dev_ (Move_Atoms rt s) = copy (F_ s) (F_dev_ s) /\
  (sized s -> F_dev_ (Move_Atoms rt s) = F_ s).
Proof.
  destruct (Move_Atoms_frame rt s) as (E1 & E2 & _ & _ & E3 & E4 & _).
  destruct (Move_Atoms_constants rt s) as (K1 & K2 & K3 & K4 & K5).
  repeat split; try assumption.
  intros (HF & _ & _ & _ & HFd & _). rewrite K5.
  apply copy_same_length. congruence.
Qed.

Lemma X9_Move_Atoms_frame_witness :
  let s := four_atoms fcc4 fcc4_prior one_moving at_rest 2 4 0 in
  F_dev_ (Move_Atoms backwards s) = F_ s.
Proof.
  exact (proj2 (proj2 (proj2 (proj2 (proj2 (proj2 (proj2 (proj2 (proj2
    (X9_Move_Atoms_frame backwards
       (four_atoms fcc4 fcc4_prior one_moving at_rest 2 4 0))))))))))
    (sized_four_atoms fcc4 fcc4_prior one_moving at_rest 2 4 0
       eq_refl eq_refl eq_refl eq_refl)).
Defined.

(** ** The temperature that the first step divides by *)

Lemma Rsum_nonneg {A : Type} (g : A -> R) (l : list A) :
  (forall a, In a l -> 0 <= g a) -> 0 <= Rsum (map g l).
Proof.
  induction l as [|x l IH]; intros H; cbn [map].
  - unfold Rsum. cbn [fold_right]. lra.
  - rewrite Rsum_cons.
    assert (0 <= g x) by (apply H; left; reflexivity).
    assert (0 <= Rsum (map g l)) by (apply IH; intros a Ha; apply H; right;
                                     exact Ha).
    lra.
Qed.

Lemma Rsum_zero {A : Type} (g : A -> R) (l : list A) :
  (forall a, In a l -> 0 <= g a) ->
  Rsum (map g l) = 0 <-> (forall a, In a l -> g a = 0).
Proof.
  induction l as [|x l IH]; intros H; cbn [map].
  - split; [intros _ a []|reflexivity].
  - rewrite Rsum_cons.
    assert (Hx : 0 <= g x) by (apply H; left; reflexivity).
    assert (Hl : forall a, In a l -> 0 <= g a)
      by (intros a Ha; apply H; right; exact Ha).
    pose proof (Rsum_nonneg g l Hl) as Hs. specialize (IH Hl). split.
    + intros E a [<-|Ha]; [lra|]. apply IH; [lra|exact Ha].
    + intros E. rewrite (E x) by (left; reflexivity).
      rewrite (proj2 IH) by (intros a Ha; apply E; right; exact Ha). lra.
Qed.

Lemma speed2_nonneg v : 0 <= speed2 v.
Proof. unfold speed2, norm2. nra. Qed.

Lemma speed2_zero v :
  speed2 v = 0 <-> (forall c, (c < 3)%nat -> data v c = 0).
Proof.
  unfold speed2, norm2. split.
  - intros E c Hc.
    destruct c as [|[|[|c]]]; [nra|nra|nra|lia].
  - intros H. rewrite (H 0%nat), (H 1%nat), (H 2%nat) by lia. ring.
Qed.

Lemma kinetic_energy_nonneg N V : 0 <= kinetic_energy N V.
Proof.
  unfold kinetic_energy.
  pose proof (Rsum_nonneg (fun n => speed2 (V !!! n)) (seq 0 N)
                (fun n _ => speed2_nonneg (V !!! n))).
  lra.
Qed.

Lemma kinetic_energy_zero N V :
  kinetic_energy N V = 0 <->
  (forall n c, (n < N)%nat -> (c < 3)%nat -> data (V !!! n) c = 0).
Proof.
  unfold kinetic_energy.
  pose proof (Rsum_zero (fun n => speed2 (V !!! n)) (seq 0 N)
                (fun n _ => speed2_nonneg (V !!! n))) as Z.
  split.
  - intros E n c Hn Hc. apply speed2_zero; [|exact Hc].
    apply (proj1 Z); [lra|]. apply in_seq. lia.
  - intros H. rewrite (proj2 Z); [lra|].
    intros n Hn. apply in_seq in Hn. apply speed2_zero.
    intros c Hc. apply H; [lia|exact Hc].
Qed.

(** X10.  The kinetic energy and the temperature that [Move_Atoms]
    reports are never negative, and on an object with at least one atom
    the temperature [Tc_] is zero exactly when the components x, y and z of
    the velocity of every atom are zero at the entry of the call.  [Tc_] is
    the divisor of the scale factor of the first step: that division is a
    division by zero if and only if all the atoms are at rest. *)
Theorem X10_temperature_zero rt s :
  (0 < NumAtom_ s)%nat ->
  let s' := Move_Atoms rt s in
  0 <= Uk_ s' /\ 0 <= Tc_ s' /\
  (Tc_ s' = 0 <->
   forall n c, (n < NumAtom_ s)%nat -> (c < 3)%nat ->
     data (V_ s !!! n) c = 0).
Proof.
  intros HN s'.
  destruct (Move_Atoms_frame rt s)
    as (_ & _ & _ & _ & _ & _ & EUk & _ & ETc & _).
  unfold s'. rewrite EUk, ETc, kinetic_Uk, kinetic_Tc_energy.
  pose proof (kinetic_energy_nonneg (NumAtom_ s) (V_ s)) as K.
  assert (P : 0 < 1.5 * INR (NumAtom_ s)).
  { apply lt_0_INR in HN. lra. }
  assert (Q : 0 < / (1.5 * INR (NumAtom_ s))) by (apply Rinv_0_lt_compat, P).
  split; [exact K|]. split.
  - unfold Rdiv. nra.
  - rewrite <- kinetic_energy_zero. unfold Rdiv. split.
    + intros E. nra.
    + intros ->. ring.
Qed.

Lemma X10_temperature_zero_witness :
  let s := four_atoms fcc4 fcc4 one_moving at_rest 1 4 0 in
  0 <= Tc_ (Move_Atoms sequential s).
Proof.
  exact (proj1 (proj2
    (X10_temperature_zero sequential
       (four_atoms fcc4 fcc4 one_moving at_rest 1 4 0) ltac:(cbn; lia)))).
Defined.

(** ** The Lennard-Jones pair law of the kernels *)

Lemma Fr_of_factor r2 :
  0 < r2 ->
  Fr_of r2 =
  24 * / (r2 * r2 * r2) * / (r2 * r2 * r2) * / sqrt r2 * (2 - r2 * r2 * r2).
Proof.
  intros H. assert (0 < sqrt r2) by (apply sqrt_lt_R0, H).
  unfold Fr_of. cbv zeta.
  replace 1.0 with 1 by lra. replace 48.0 with 48 by lra.
  replace 24.0 with 24 by lra. field. split; lra.
Qed.

Lemma Fr_of_sign r2 :
  0 < r2 ->
  (0 < Fr_of r2 <-> r2 * r2 * r2 < 2) /\
  (Fr_of r2 = 0 <-> r2 * r2 * r2 = 2) /\
  (Fr_of r2 < 0 <-> 2 < r2 * r2 * r2).
Proof.
  intros H. rewrite (Fr_of_factor r2 H).
  assert (Hq : 0 < r2 * r2 * r2).
  { apply Rmult_lt_0_compat; [apply Rmult_lt_0_compat|]; assumption. }
  assert (Hs : 0 < sqrt r2) by (apply sqrt_lt_R0, H).
  assert (HC : 0 < 24 * / (r2 * r2 * r2) * / (r2 * r2 * r2) * / sqrt r2).
  { apply Rmult_lt_0_compat; [|apply Rinv_0_lt_compat, Hs].
    apply Rmult_lt_0_compat; [|apply Rinv_0_lt_compat, Hq].
    apply Rmult_lt_0_compat; [lra|apply Rinv_0_lt_compat, Hq]. }
  set (C := 24 * / (r2 * r2 * r2) * / (r2 * r2 * r2) * / sqrt r2) in *.
  set (q := r2 * r2 * r2) in *.
  repeat split; intros E; nra.
Qed.

Lemma pair_potential_cutoff : pair_potential rc2_ = 0.
Proof.
  assert (Hrc : rc_ <> 0) by (unfold rc_; lra).
  assert (E1 : 1.0 / (rc2_ * rc2_ * rc2_) = rcm6_).
  { unfold rc2_, rcm6_. replace 1.0 with 1 by lra. field. exact Hrc. }
  assert (E2 : rcm6_ * rcm6_ = rcm12_).
  { unfold rcm6_, rcm12_. field. exact Hrc. }
  unfold pair_potential, Vrc_. cbv zeta. rewrite E1, E2. lra.
Qed.

Lemma pair_potential_well r2 : -1 - Vrc_ <= pair_potential r2.
Proof.
  unfold pair_potential. cbv zeta.
  set (x := 1.0 / (r2 * r2 * r2)).
  pose proof (Rle_0_sqr (2 * x - 1)) as Q. unfold Rsqr in Q. nra.
Qed.

Lemma pair_force_direction d i :
  data (pair_force d) i =
  data d i * (Fr_of (dist2 d) / sqrt (dist2 d)).
Proof. unfold pair_force. data_norm. unfold Rdiv. ring. Qed.

(** X11.  The pair law of the kernels.  For a pair at the squared
    distance [r2 > 0] the factor [Fr] of the force kernel is positive, so
    that the atom is pushed away from its neighbour along [d], exactly
    when [r2^3 < 2], zero exactly when [r2^3 = 2] and negative, the atom
    being pulled towards the neighbour, exactly when [r2^3 > 2]; each
    component of the vector added to the force is the same component of
    [d] times [Fr / r].  The pair potential of the energy loop is never
    below [-1 - Vrc] and, by the shift [Vrc], it is zero for a pair at
    the cutoff distance. *)
Theorem X11_pair_law r2 :
  0 < r2 ->
  (0 < Fr_of r2 <-> r2 * r2 * r2 < 2) /\
  (Fr_of r2 = 0 <-> r2 * r2 * r2 = 2) /\
  (Fr_of r2 < 0 <-> 2 < r2 * r2 * r2) /\
  (forall d i,
     data (pair_force d) i = data d i * (Fr_of (dist2 d) / sqrt (dist2 d))) /\
  -1 - Vrc_ <= pair_potential r2 /\
  pair_potential (rc_ * rc_) = 0.
Proof.
  intros H. destruct (Fr_of_sign r2 H) as (S1 & S2 & S3).
  repeat split; try (apply S1 || apply S2 || apply S3).
  - apply pair_force_direction.
  - apply pair_potential_well.
  - apply pair_potential_cutoff.
Qed.

Lemma X11_pair_law_witness : 0 < Fr_of 1.
Proof.
  apply (proj1 (X11_pair_law 1 ltac:(lra))). lra.
Defined.

(** ** The lattice sites are distinct *)

Lemma basis_coord o c :
  In o fcc_basis -> coord c o = 0 \/ coord c o = 1 / 2.
Proof.
  unfold fcc_basis. intros [<-|[<-|[<-|[<-|[]]]]];
    destruct c as [|[|c]]; cbn [coord fst snd]; auto.
Qed.

Lemma half_integer i i' a a' :
  (a = 0 \/ a = 1 / 2) -> (a' = 0 \/ a' = 1 / 2) ->
  INR i + a = INR i' + a' -> i = i' /\ a = a'.
Proof.
  intros Ha Ha' E.
  assert (i = i') as <-.
  { destruct (Nat.lt_trichotomy i i') as [H|[H|H]]; [|exact H|].
    - apply Nat.le_succ_l, le_INR in H. rewrite S_INR in H. lra.
    - apply Nat.le_succ_l, le_INR in H. rewrite S_INR in H. lra. }
  split; [reflexivity|lra].
Qed.

Lemma site_unique lat i j k o i' j' k' o' :
  lat <> 0 -> In o fcc_basis -> In o' fcc_basis ->
  (lat * (INR i + coord 0 o), lat * (INR j + coord 1 o),
   lat * (INR k + coord 2 o)) =
  (lat * (INR i' + coord 0 o'), lat * (INR j' + coord 1 o'),
   lat * (INR k' + coord 2 o')) ->
  i = i' /\ j = j' /\ k = k' /\
  coord 0 o = coord 0 o' /\ coord 1 o = coord 1 o' /\ coord 2 o = coord 2 o'.
Proof.
  intros Hlat Ho Ho' E. apply triple_eq in E as (E0 & E1 & E2).
  apply Rmult_eq_reg_l in E0, E1, E2; try exact Hlat.
  destruct (half_integer _ _ _ _ (basis_coord o 0 Ho) (basis_coord o' 0 Ho')
              E0) as [-> ->].
  destruct (half_integer _ _ _ _ (basis_coord o 1 Ho) (basis_coord o' 1 Ho')
              E1) as [-> ->].
  destruct (half_integer _ _ _ _ (basis_coord o 2 Ho) (basis_coord o' 2 Ho')
              E2) as [-> ->].
  repeat split; reflexivity.
Qed.

Lemma cell_unique lat i j k i' j' k' p :
  lat <> 0 -> In p (fcc_cell lat i j k) -> In p (fcc_cell lat i' j' k') ->
  i = i' /\ j = j' /\ k = k'.
Proof.
  intros Hlat H H'. apply in_fcc_cell in H as (o & Ho & ->).
  apply in_fcc_cell in H' as (o' & Ho' & E).
  destruct (site_unique lat i j k o i' j' k' o' Hlat Ho Ho' E)
    as (-> & -> & -> & _).
  repeat split; reflexivity.
Qed.

Lemma NoDup_fcc_cell lat i j k : lat <> 0 -> NoDup (fcc_cell lat i j k).
Proof.
  intros Hlat. unfold fcc_cell. cbv zeta.
  set (sx := INR i * lat). set (sy := INR j * lat). set (sz := INR k * lat).
  repeat (apply NoDup_cons; split); try apply NoDup_nil_2;
    rewrite ?not_elem_of_cons; repeat split;
    try apply not_elem_of_nil;
    intros E; apply triple_eq in E as (E0 & E1 & E2); lra.
Qed.

Lemma NoDup_fcc_lattice lat Nc : lat <> 0 -> NoDup (fcc_lattice lat Nc).
Proof.
  intros Hlat. unfold fcc_lattice.
  apply NoDup_flat_map; [apply NoDup_seq| |].
  - intros i _. apply NoDup_flat_map; [apply NoDup_seq| |].
    + intros j _. apply NoDup_flat_map; [apply NoDup_seq| |].
      * intros k _. apply NoDup_fcc_cell, Hlat.
      * intros k k' p _ _ H H'.
        destruct (cell_unique lat i j k i j k' p Hlat H H') as (_ & _ & E).
        exact E.
    + intros j j' p _ _ H H'.
      apply in_flat_map in H as (k & _ & H).
      apply in_flat_map in H' as (k' & _ & H').
      destruct (cell_unique lat i j k i j' k' p Hlat H H') as (_ & E & _).
      exact E.
  - intros i i' p _ _ H H'.
    apply in_flat_map in H as (j & _ & H).
    apply in_flat_map in H as (k & _ & H).
    apply in_flat_map in H' as (j' & _ & H').
    apply in_flat_map in H' as (k' & _ & H').
    destruct (cell_unique lat i j k i' j' k' p Hlat H H') as (E & _).
    exact E.
Qed.

Lemma dist2_zero d : dist2 d = 0 -> vx d = 0 /\ vy d = 0 /\ vz d = 0.
Proof. unfold dist2. intros E. repeat split; nra. Qed.

Lemma sites_differ lat Nc n m :
  lat <> 0 -> (n < 4 * Nc ^ 3)%nat -> (m < 4 * Nc ^ 3)%nat -> n <> m ->
  fcc_lattice lat Nc !!! n <> fcc_lattice lat Nc !!! m.
Proof.
  intros Hlat Hn Hm Hnm E. apply Hnm.
  rewrite <- (length_fcc_lattice lat Nc) in Hn, Hm.
  apply (NoDup_lookup (fcc_lattice lat Nc) n m (fcc_lattice lat Nc !!! n)).
  - apply NoDup_fcc_lattice, Hlat.
  - apply list_lookup_lookup_total_lt, Hn.
  - rewrite E. apply list_lookup_lookup_total_lt, Hm.
Qed.

(** X12.  No two atoms coincide after [MD_initPos].  When the lattice
    constant is not zero the sites written by the loops over the cells are
    pairwise distinct, and so are the positions left in [r_] after the
    centre of mass has been moved to the origin: for two different atoms
    the squared distance of their positions is positive.  This is what the
    force kernel needs from the home cell, where it divides by the
    distance of every pair that passes its first test. *)
Theorem X12_atoms_apart s n m :
  length (r_ s) = (4 * Nc_ s ^ 3)%nat -> lat_ s <> 0 ->
  (n < 4 * Nc_ s ^ 3)%nat -> (m < 4 * Nc_ s ^ 3)%nat -> n <> m ->
  NoDup (fcc_lattice (lat_ s) (Nc_ s)) /\
  0 < dist2 (r_ (MD_initPos s) !!! n - r_ (MD_initPos s) !!! m)%v4.
Proof.
  intros Hr Hlat Hn Hm Hnm. split; [apply NoDup_fcc_lattice, Hlat|].
  destruct (MD_initPos_sites s Hr) as (_ & _ & P & _).
  destruct (Rle_lt_dec
              (dist2 (r_ (MD_initPos s) !!! n - r_ (MD_initPos s) !!! m)%v4) 0)
    as [Hle|Hlt]; [|exact Hlt].
  exfalso. apply (sites_differ (lat_ s) (Nc_ s) n m Hlat Hn Hm Hnm).
  pose proof (dist2_nonneg (r_ (MD_initPos s) !!! n
                            - r_ (MD_initPos s) !!! m)%v4) as H0.
  assert (Z : dist2 (r_ (MD_initPos s) !!! n - r_ (MD_initPos s) !!! m)%v4 = 0)
    by lra.
  apply dist2_zero in Z as (Zx & Zy & Zz).
  pose proof (P n 0%nat Hn ltac:(lia)) as N0.
  pose proof (P n 1%nat Hn ltac:(lia)) as N1.
  pose proof (P n 2%nat Hn ltac:(lia)) as N2.
  pose proof (P m 0%nat Hm ltac:(lia)) as M0.
  pose proof (P m 1%nat Hm ltac:(lia)) as M1.
  pose proof (P m 2%nat Hm ltac:(lia)) as M2.
  cbn [vsub vx vy vz data] in Zx, Zy, Zz, N0, N1, N2, M0, M1, M2.
  destruct (fcc_lattice (lat_ s) (Nc_ s) !!! n) as [[a b] c].
  destruct (fcc_lattice (lat_ s) (Nc_ s) !!! m) as [[a' b'] c'].
  cbn [coord fst snd] in N0, N1, N2, M0, M1, M2.
  assert (a = a') by lra. assert (b = b') by lra. assert (c = c') by lra.
  congruence.
Qed.

Lemma X12_atoms_apart_witness :
  let s := four_atoms at_rest at_rest at_rest at_rest 1 4 0 in
  0 < dist2 (r_ (MD_initPos s) !!! 0%nat - r_ (MD_initPos s) !!! 1%nat)%v4.
Proof.
  refine (proj2
    (X12_atoms_apart (four_atoms at_rest at_rest at_rest at_rest 1 4 0)
       0 1 eq_refl _ ltac:(cbn; lia) ltac:(cbn; lia) ltac:(lia))).
  cbn [lat_ four_atoms]. lra.
Defined.

(** ** Where the constructor puts the atoms *)

Lemma Rsum_bounds {A : Type} (g : A -> R) (a b : R) (l : list A) :
  (forall x, In x l -> a <= g x <= b) ->
  INR (length l) * a <= Rsum (map g l) <= INR (length l) * b.
Proof.
  induction l as [|x l IH]; intros H; cbn [map length].
  - unfold Rsum. cbn [fold_right INR]. lra.
  - rewrite Rsum_cons, S_INR.
    assert (a <= g x <= b) by (apply H; left; reflexivity).
    assert (INR (length l) * a <= Rsum (map g l) <= INR (length l) * b)
      by (apply IH; intros y Hy; apply H; right; exact Hy).
    lra.
Qed.

Lemma Rsum_pos {A : Type} (g : A -> R) (l : list A) x :
  (forall y, In y l -> 0 <= g y) -> In x l -> 0 < g x ->
  0 < Rsum (map g l).
Proof.
  induction l as [|y l IH]; intros H Hx Hg; [destruct Hx|].
  cbn [map]. rewrite Rsum_cons.
  assert (0 <= g y) by (apply H; left; reflexivity).
  assert (0 <= Rsum (map g l))
    by (apply Rsum_nonneg; intros z Hz; apply H; right; exact Hz).
  destruct Hx as [->|Hx]; [lra|].
  assert (0 < Rsum (map g l))
    by (apply IH; auto; intros z Hz; apply H; right; exact Hz).
  lra.
Qed.

Lemma site_in_box lat Nc p c :
  0 <= lat -> In p (fcc_lattice lat Nc) -> 0 <= coord c p <= lat * INR Nc.
Proof.
  intros Hlat H. apply in_fcc_lattice in H as (i & j & k & Hi & Hj & Hk & H).
  apply in_fcc_cell in H as (o & Ho & ->).
  apply Nat.le_succ_l, le_INR in Hi, Hj, Hk. rewrite S_INR in Hi, Hj, Hk.
  pose proof (pos_INR i). pose proof (pos_INR j). pose proof (pos_INR k).
  assert (B : forall a, 0 <= coord a o <= 1 / 2)
    by (intros a; destruct (basis_coord o a Ho) as [-> | ->]; lra).
  pose proof (B 0%nat). pose proof (B 1%nat). pose proof (B 2%nat).
  destruct c as [|[|c]]; cbn [coord fst snd] in *; split;
    solve [apply Rmult_le_pos; lra | apply Rmult_le_compat_l; lra].
Qed.

Lemma first_site lat Nc :
  (1 <= Nc)%nat -> fcc_lattice lat Nc !!! 0%nat = (0 * lat, 0 * lat, 0 * lat).
Proof.
  destruct Nc as [|Nc]; [lia|]. intros _.
  unfold fcc_lattice. cbn [seq flat_map]. unfold fcc_cell at 1.
  reflexivity.
Qed.

Lemma positive_site lat Nc c :
  (1 <= Nc)%nat -> 0 < lat ->
  exists p, In p (fcc_lattice lat Nc) /\ 0 < coord c p.
Proof.
  intros HNc Hlat.
  destruct c as [|[|c]].
  - exists (0.5 * lat + INR 0 * lat, 0.5 * lat + INR 0 * lat, INR 0 * lat).
    split.
    + apply in_fcc_lattice. exists 0%nat, 0%nat, 0%nat.
      repeat split; try lia. right. left. reflexivity.
    + cbn [coord fst snd INR]. lra.
  - exists (0.5 * lat + INR 0 * lat, 0.5 * lat + INR 0 * lat, INR 0 * lat).
    split.
    + apply in_fcc_lattice. exists 0%nat, 0%nat, 0%nat.
      repeat split; try lia. right. left. reflexivity.
    + cbn [coord fst snd INR]. lra.
  - exists (INR 0 * lat, 0.5 * lat + INR 0 * lat, 0.5 * lat + INR 0 * lat).
    split.
    + apply in_fcc_lattice. exists 0%nat, 0%nat, 0%nat.
      repeat split; try lia. right. right. left. reflexivity.
    + cbn [coord fst snd INR]. lra.
Qed.

Lemma MD_initPos_reach s n c :
  length (r_ s) = (4 * Nc_ s ^ 3)%nat -> 0 <= lat_ s ->
  (n < 4 * Nc_ s ^ 3)%nat -> (c < 3)%nat ->
  - (lat_ s * INR (Nc_ s)) <= data (r_ (MD_initPos s) !!! n) c
    <= lat_ s * INR (Nc_ s).
Proof.
  intros Hr Hlat Hn Hc.
  destruct (MD_initPos_sites s Hr) as (_ & _ & P & _).
  rewrite (P n c Hn Hc).
  pose proof (length_fcc_lattice (lat_ s) (Nc_ s)) as Len.
  assert (Hin : In (fcc_lattice (lat_ s) (Nc_ s) !!! n)
                  (fcc_lattice (lat_ s) (Nc_ s))).
  { apply list_elem_of_In, list_elem_of_lookup_total_2. rewrite Len.
    exact Hn. }
  pose proof (site_in_box (lat_ s) (Nc_ s) _ c Hlat Hin) as B.
  pose proof (Rsum_bounds (coord c) 0 (lat_ s * INR (Nc_ s))
                (fcc_lattice (lat_ s) (Nc_ s))
                (fun p Hp => site_in_box (lat_ s) (Nc_ s) p c Hlat Hp)) as S.
  rewrite Len in S.
  assert (HN : 0 < INR (4 * Nc_ s ^ 3)) by (apply lt_0_INR; lia).
  set (N := INR (4 * Nc_ s ^ 3)) in *.
  set (T := Rsum (map (coord c) (fcc_lattice (lat_ s) (Nc_ s)))) in *.
  set (L := lat_ s * INR (Nc_ s)) in *.
  assert (M : 0 <= T / N <= L).
  { assert (Q : 0 < / N) by (apply Rinv_0_lt_compat, HN).
    assert (E : T / N = T * / N) by reflexivity.
    assert (E1 : L = (N * L) * / N) by (field; lra).
    rewrite E. split; [nra|]. rewrite E1. apply Rmult_le_compat_r; lra. }
  lra.
Qed.

Lemma MD_initPos_first_atom s c :
  length (r_ s) = (4 * Nc_ s ^ 3)%nat -> 0 < lat_ s -> (1 <= Nc_ s)%nat ->
  (c < 3)%nat -> data (r_ (MD_initPos s) !!! 0%nat) c < 0.
Proof.
  intros Hr Hlat HNc Hc.
  destruct (MD_initPos_sites s Hr) as (_ & _ & P & _).
  assert (HN : (0 < 4 * Nc_ s ^ 3)%nat).
  { assert (1 <= Nc_ s ^ 3)%nat; [|lia].
    change 1%nat with (1 ^ 3)%nat. apply Nat.pow_le_mono_l, HNc. }
  rewrite (P 0%nat c HN Hc), (first_site _ _ HNc).
  destruct (positive_site (lat_ s) (Nc_ s) c HNc Hlat) as (p & Hp & Hpos).
  pose proof (Rsum_pos (coord c) (fcc_lattice (lat_ s) (Nc_ s)) p
                (fun q Hq => proj1 (site_in_box (lat_ s) (Nc_ s) q c
                                      (Rlt_le _ _ Hlat) Hq)) Hp Hpos) as S.
  apply lt_0_INR in HN.
  assert (Q : 0 < / INR (4 * Nc_ s ^ 3)) by (apply Rinv_0_lt_compat, HN).
  assert (0 < Rsum (map (coord c) (fcc_lattice (lat_ s) (Nc_ s)))
              / INR (4 * Nc_ s ^ 3)).
  { unfold Rdiv. apply Rmult_lt_0_compat; assumption. }
  destruct c as [|[|c]]; cbn [coord fst snd]; lra.
Qed.

Lemma set_periodiclen_value v s : periodiclen_ (set_periodiclen v s) = v.
Proof. destruct s. reflexivity. Qed.

Lemma construct_placement nc scale u mr :
  let s0 := members_initialised nc scale u in
  r_ (construct nc scale u mr) = r_ (MD_initPos s0) /\
  periodiclen_ (construct nc scale u mr) = lat_ s0 * INR (Nc_ s0) /\
  lat_ s0 = Rpower 2.0 (2.0 / 3.0) * scale /\ Nc_ s0 = nc /\
  length (r_ s0) = (4 * Nc_ s0 ^ 3)%nat.
Proof.
  cbv zeta. rewrite construct_unfold, set_periodiclen_value.
  set (s0 := members_initialised nc scale u).
  destruct (set_periodiclen_frame
              (lat_ (MD_initVel mr (MD_initPos s0))
               * INR (Nc_ (MD_initVel mr (MD_initPos s0))))
              (MD_initVel mr (MD_initPos s0)))
    as (_ & _ & _ & _ & -> & _).
  destruct (MD_initVel_frame mr (MD_initPos s0)) as (_ & -> & _ & -> & ->).
  destruct (MD_initPos_frame s0) as (_ & _ & _ & -> & ->).
  destruct (members_initialised_fields nc scale u)
    as (_ & ENc & _ & _ & Hr & _).
  fold s0 in ENc, Hr.
  repeat split; try reflexivity; try assumption; rewrite ENc; exact Hr.
Qed.

(** X13.  Where the constructor puts the atoms.  For a scale that is not
    negative, every component x, y, z of every position of the constructed
    object lies between minus the box length and the box length, within
    the reach of the single shift of the periodic boundary treatment.  The
    positions are centred on the origin, not on the box: for a positive
    scale and at least one cell the first atom has three negative
    coordinates, so the constructed positions are not all in the interval
    from 0 to the box length. *)
Theorem X13_constructed_positions nc scale u mr n c :
  0 <= scale -> (n < 4 * nc ^ 3)%nat -> (c < 3)%nat ->
  let s := construct nc scale u mr in
  periodiclen_ s = Rpower 2.0 (2.0 / 3.0) * scale * INR nc /\
  - periodiclen_ s <= data (r_ s !!! n) c <= periodiclen_ s /\
  (0 < scale -> data (r_ s !!! 0%nat) c < 0).
Proof.
  intros Hscale Hn Hc s.
  destruct (construct_placement nc scale u mr) as (Er & EL & Elat & ENc & Hr).
  fold s in Er, EL. rewrite Er, EL.
  set (s0 := members_initialised nc scale u) in *.
  assert (P : 0 < Rpower 2.0 (2.0 / 3.0)) by apply exp_pos.
  split; [rewrite Elat, ENc; reflexivity|]. split.
  - apply MD_initPos_reach; [exact Hr| |rewrite ENc; exact Hn|exact Hc].
    rewrite Elat. apply Rmult_le_pos; lra.
  - intros Hpos. apply MD_initPos_first_atom; [exact Hr| | |exact Hc].
    + rewrite Elat. apply Rmult_lt_0_compat; lra.
    + rewrite ENc. destruct nc; [cbn in Hn; lia|lia].
Qed.

Lemma X13_constructed_positions_witness :
  data (r_ (Ar_moleculardynamics (mkUninit (fun _ => splat 1) 1 1 1 1)
              (mkRand (fun _ => 1) 0)) !!! 0%nat) 0 < 0.
Proof.
  apply (proj2 (proj2
    (X13_constructed_positions FIRSTNC FIRSTSCALE
       (mkUninit (fun _ => splat 1) 1 1 1 1) (mkRand (fun _ => 1) 0) 0 0
       ltac:(unfold FIRSTSCALE; lra) ltac:(unfold FIRSTNC; cbn; lia)
       ltac:(lia)))).
  unfold FIRSTSCALE. lra.
Defined.

(** ** The forces depend on the relative positions only *)

Lemma translate_lookup t r n :
  (n < length r)%nat -> translate t r !!! n = (r !!! n + t)%v4.
Proof.
  unfold translate. revert n. induction r as [|v r IH]; intros n Hn.
  - cbn [length] in Hn. lia.
  - destruct n as [|n]; [reflexivity|].
    cbn [length] in Hn. exact (IH n ltac:(lia)).
Qed.

Lemma length_translate t r : length (translate t r) = length r.
Proof. apply length_map. Qed.

Lemma displacement_translate r t L n m i j k :
  (n < length r)%nat -> (m < length r)%nat ->
  displacement (translate t r) L n m i j k = displacement r L n m i j k.
Proof.
  intros Hn Hm. unfold displacement. rewrite !translate_lookup by assumption.
  apply Vector4_eq. intros c. data_norm. ring.
Qed.

Lemma force_pairs_translate r t N L rc2 n :
  length r = N -> (n < N)%nat ->
  force_pairs (translate t r) ncp_ N L rc2 n = force_pairs r ncp_ N L rc2 n.
Proof.
  intros Hr Hn. unfold force_pairs. apply List.filter_ext_in.
  intros [m [[i j] k]] Hin. apply in_images in Hin as (Hm & _).
  rewrite displacement_translate by lia. reflexivity.
Qed.

Lemma net_force_translate r t N L rc2 n :
  length r = N -> (n < N)%nat ->
  net_force (translate t r) ncp_ N L rc2 n = net_force r ncp_ N L rc2 n.
Proof.
  intros Hr Hn. unfold net_force.
  rewrite force_pairs_translate by assumption. f_equal.
  apply map_ext_in. intros [m [[i j] k]] Hin.
  apply in_force_pairs in Hin as ((Hm & _) & _).
  rewrite displacement_translate by lia. reflexivity.
Qed.

Lemma atom_energy_translate r t N L n :
  length r = N -> (n < N)%nat ->
  atom_energy (translate t r) N L n = atom_energy r N L n.
Proof.
  intros Hr Hn. unfold atom_energy.
  rewrite force_pairs_translate by assumption. f_equal.
  apply map_ext_in. intros [m [[i j] k]] Hin.
  apply in_force_pairs in Hin as ((Hm & _) & _).
  rewrite displacement_translate by lia. reflexivity.
Qed.

(** X14.  The forces and the potential energy depend on the relative
    positions only.  If the positions of one object are those of another
    one all moved by the same vector, the number of atoms and the box
    length being the same, [Calc_Forces] leaves the same force array and
    the same potential energy in both, under any two run times. *)
Theorem X14_translation_invariance rt1 rt2 s s' t :
  fair_runtime rt1 -> fair_runtime rt2 -> sized s -> sized s' ->
  NumAtom_ s' = NumAtom_ s -> periodiclen_ s' = periodiclen_ s ->
  r_ s' = translate t (r_ s) ->
  F_ (Calc_Forces rt2 s') = F_ (Calc_Forces rt1 s) /\
  Up_ (Calc_Forces rt2 s') = Up_ (Calc_Forces rt1 s).
Proof.
  intros H1 H2 Hs Hs' EN EL Er.
  assert (Hr : length (r_ s) = NumAtom_ s) by apply Hs.
  split.
  - pose proof (Calc_Forces_sized rt1 s H1 Hs) as (HF1 & _).
    pose proof (Calc_Forces_sized rt2 s' H2 Hs') as (HF2 & _).
    destruct (Calc_Forces_frame rt1 s) as (_ & _ & _ & _ & _ & _ & N1 & _).
    destruct (Calc_Forces_frame rt2 s') as (_ & _ & _ & _ & _ & _ & N2 & _).
    apply list_eq_slots with (NumAtom_ s); [congruence|congruence|].
    intros n Hn. rewrite (Calc_Forces_F rt1 s n H1 Hs Hn).
    rewrite (Calc_Forces_F rt2 s' n H2 Hs') by (rewrite EN; exact Hn).
    rewrite Er, EN, EL. apply net_force_translate; assumption.
  - rewrite (Calc_Forces_Up rt1 s H1), (Calc_Forces_Up rt2 s' H2).
    rewrite Er, EN, EL. apply Rsum_map_ext. intros n Hn.
    apply in_seq in Hn. apply atom_energy_translate; [assumption|lia].
Qed.

Lemma X14_translation_invariance_witness :
  F_ (Calc_Forces backwards
        (four_atoms (translate (mkV4 1 2 3 0) fcc4) fcc4 at_rest at_rest 1 4 0))
  = F_ (Calc_Forces sequential (four_atoms fcc4 fcc4 at_rest at_rest 1 4 0)).
Proof.
  exact (proj1
    (X14_translation_invariance sequential backwards
       (four_atoms fcc4 fcc4 at_rest at_rest 1 4 0)
       (four_atoms (translate (mkV4 1 2 3 0) fcc4) fcc4 at_rest at_rest 1 4 0)
       (mkV4 1 2 3 0) sequential_fair backwards_fair
       (sized_four_atoms fcc4 fcc4 at_rest at_rest 1 4 0
          eq_refl eq_refl eq_refl eq_refl)
       (sized_four_atoms (translate (mkV4 1 2 3 0) fcc4) fcc4 at_rest at_rest
          1 4 0 eq_refl eq_refl eq_refl eq_refl)
       eq_refl eq_refl eq_refl)).
Defined.

(** ** The velocity scaling of the first step *)

Lemma woodcock_square Tg Tc :
  0 < Tc -> 0 <= Tg + ALPHA * (Tc - Tg) ->
  woodcock Tg Tc * woodcock Tg Tc * Tc = Tg + ALPHA * (Tc - Tg).
Proof.
  intros HTc Hnum. unfold woodcock.
  assert (Q : 0 < / Tc) by (apply Rinv_0_lt_compat, HTc).
  rewrite sqrt_sqrt.
  - field. lra.
  - unfold Rdiv. apply Rmult_le_pos; lra.
Qed.

Lemma woodcock_at_target Tg : 0 < Tg -> woodcock Tg Tg = 1.
Proof.
  intros H. unfold woodcock.
  replace ((Tg + ALPHA * (Tg - Tg)) / Tg) with 1 by (field; lra).
  apply sqrt_1.
Qed.

Lemma kinetic_energy_scaled N (V V' : list Vector4) k :
  (forall n c, (n < N)%nat -> (c < 3)%nat ->
     data (V' !!! n) c = k * data (V !!! n) c) ->
  kinetic_energy N V' = k * k * kinetic_energy N V.
Proof.
  intros H. unfold kinetic_energy.
  rewrite (Rsum_map_ext (fun n => speed2 (V' !!! n))
             (fun n => k * k * speed2 (V !!! n))).
  - rewrite Rsum_scale. ring.
  - intros n Hn. apply in_seq in Hn. unfold speed2, norm2.
    rewrite !H by lia. ring.
Qed.

(** X15.  The velocity scaling of the first step.  The factor [s] is 1
    when the temperature of the entry equals a positive target, and for a
    positive temperature [Tc] and a target [Tg] that is not negative
    [s^2 Tc = Tg + 0.2 (Tc - Tg)].  On an object whose forces are all zero,
    as the constructor leaves them, the first call of [Move_Atoms]
    multiplies every velocity by [s], so that the temperature reported by
    the call that follows is [Tg + 0.2 (Tc - Tg)], where [Tc] is the
    temperature reported by the first call: the scaling takes the
    temperature four fifths of the way to the target. *)
Theorem X15_first_step_thermostat rt s :
  fair_runtime rt -> sized s -> MD_iter_ s = 1%Z ->
  (forall n c, (n < NumAtom_ s)%nat -> (c < 3)%nat ->
     data (F_ s !!! n) c = 0) ->
  (0 < NumAtom_ s)%nat ->
  0 < kinetic_energy (NumAtom_ s) (V_ s) -> 0 <= Tg_ s ->
  let s1 := Move_Atoms rt s in
  let s2 := Move_Atoms rt s1 in
  let sc := woodcock (Tg_ s) (Tc_ s1) in
  (forall Tg, 0 < Tg -> woodcock Tg Tg = 1) /\
  sc * sc * Tc_ s1 = Tg_ s + 0.2 * (Tc_ s1 - Tg_ s) /\
  (forall n c, (n < NumAtom_ s)%nat -> (c < 3)%nat ->
     data (V_ s1 !!! n) c = sc * data (V_ s !!! n) c) /\
  Tc_ s2 = Tg_ s + 0.2 * (Tc_ s1 - Tg_ s).
Proof.
  intros Hrt Hs Hi HF HN HK HTg s1 s2 sc.
  destruct (Move_Atoms_frame rt s)
    as (EN & _ & _ & _ & _ & _ & _ & _ & ETc & _).
  destruct (Move_Atoms_frame rt s1)
    as (_ & _ & _ & _ & _ & _ & _ & _ & ETc2 & _).
  fold s1 in EN, ETc. fold s2 in ETc2.
  rewrite kinetic_Tc_energy in ETc, ETc2. rewrite EN in ETc2.
  assert (P : 0 < 1.5 * INR (NumAtom_ s)).
  { apply lt_0_INR in HN. lra. }
  assert (Q : 0 < / (1.5 * INR (NumAtom_ s))) by (apply Rinv_0_lt_compat, P).
  assert (HTc : 0 < Tc_ s1).
  { rewrite ETc. unfold Rdiv. apply Rmult_lt_0_compat; assumption. }
  assert (W : sc * sc * Tc_ s1 = Tg_ s + 0.2 * (Tc_ s1 - Tg_ s)).
  { unfold sc. rewrite woodcock_square; unfold ALPHA; lra. }
  assert (S : forall n c, (n < NumAtom_ s)%nat -> (c < 3)%nat ->
            data (V_ s1 !!! n) c = sc * data (V_ s !!! n) c).
  { intros n c Hn Hc.
    destruct (Move_Atoms_first_atom rt s n c Hrt Hs Hn Hc Hi) as [E _].
    fold s1 in E. rewrite E, (HF n c Hn Hc).
    unfold sc. rewrite ETc, <- kinetic_Tc_energy. ring. }
  split; [exact woodcock_at_target|]. split; [exact W|].
  split; [exact S|].
  rewrite ETc2, (kinetic_energy_scaled _ (V_ s) (V_ s1) sc S), <- W, ETc.
  unfold Rdiv. ring.
Qed.

Lemma one_moving_energy : kinetic_energy 4 one_moving = 0.5.
Proof.
  unfold kinetic_energy, Rsum, speed2, norm2, one_moving.
  cbn [seq map fold_right lookup_total list_lookup_total data vx vy vz splat].
  lra.
Qed.

Lemma at_rest_zero n c : (n < 4)%nat -> data (at_rest !!! n) c = 0.
Proof.
  intros Hn. destruct n as [|[|[|[|n]]]]; [| | | |lia];
    destruct c as [|[|[|c]]]; reflexivity.
Qed.

Lemma Tg_nonneg : 0 <= FIRSTTEMP * KB / YPSILON.
Proof. unfold FIRSTTEMP, KB, YPSILON. lra. Qed.

Lemma X15_first_step_thermostat_witness :
  let s := four_atoms fcc4 fcc4 one_moving at_rest 1 4 0 in
  Tc_ (Move_Atoms sequential (Move_Atoms sequential s)) =
  Tg_ s + 0.2 * (Tc_ (Move_Atoms sequential s) - Tg_ s).
Proof.
  refine (proj2 (proj2 (proj2
    (X15_first_step_thermostat sequential
       (four_atoms fcc4 fcc4 one_moving at_rest 1 4 0) sequential_fair
       (sized_four_atoms fcc4 fcc4 one_moving at_rest 1 4 0
          eq_refl eq_refl eq_refl eq_refl)
       eq_refl (fun n c Hn _ => at_rest_zero n c Hn) ltac:(cbn; lia) _ _)))).
  - cbn [NumAtom_ V_ four_atoms]. rewrite one_moving_energy. lra.
  - exact Tg_nonneg.
Defined.

(** ** The temperature of the initial velocities *)

Lemma Rsum_centred_squares {A : Type} (g : A -> R) (m : R) (l : list A) :
  Rsum (map (fun a => (g a - m) * (g a - m)) l) =
  Rsum (map (fun a => g a * g a) l) - 2 * m * Rsum (map g l)
  + INR (length l) * (m * m).
Proof.
  induction l as [|x l IH]; cbn [map length].
  - unfold Rsum. cbn [fold_right INR]. ring.
  - rewrite !Rsum_cons, IH, S_INR. ring.
Qed.

Lemma Rsum_mean_squares (g : nat -> R) N :
  (0 < N)%nat ->
  let m := Rsum (map g (seq 0 N)) / INR N in
  Rsum (map (fun n => (g n - m) * (g n - m)) (seq 0 N)) =
  Rsum (map (fun n => g n * g n) (seq 0 N)) - INR N * (m * m).
Proof.
  intros HN m. rewrite Rsum_centred_squares, length_seq.
  apply lt_0_INR in HN.
  assert (E : Rsum (map g (seq 0 N)) = INR N * m)
    by (unfold m; field; lra).
  rewrite E. ring.
Qed.

Lemma Rsum_const {A : Type} (k : R) (l : list A) :
  Rsum (map (fun _ => k) l) = INR (length l) * k.
Proof.
  induction l as [|x l IH]; cbn [map length].
  - unfold Rsum. cbn [fold_right INR]. ring.
  - rewrite Rsum_cons, IH, S_INR. ring.
Qed.

Lemma Rsum_plus3 {A : Type} (a b f : A -> R) (l : list A) :
  Rsum (map (fun n => a n + b n + f n) l) =
  Rsum (map a l) + Rsum (map b l) + Rsum (map f l).
Proof.
  rewrite (Rsum_map_ext _ (fun n => 1 * a n + 1 * b n + 1 * f n))
    by (intros; ring).
  rewrite Rsum_linear3. ring.
Qed.

Lemma drawn_speed2 v p :
  0 <= v -> norm2 (coord 0 p) (coord 1 p) (coord 2 p) <> 0 ->
  speed2 (direction_velocity v p) = v * v.
Proof.
  intros Hv Hp. pose proof (direction_velocity_speed v p Hv Hp) as E.
  rewrite <- E at 2 3. symmetry. apply sqrt_sqrt, speed2_nonneg.
Qed.

(** The kinetic energy of velocities of equal speed after the mean
    velocity has been subtracted. *)
Lemma centred_kinetic_energy N (V0 V : list Vector4) (v2 : R) :
  (0 < N)%nat ->
  (forall n, (n < N)%nat -> speed2 (V0 !!! n) = v2) ->
  (forall n c, (n < N)%nat -> (c < 3)%nat ->
     data (V !!! n) c = data (V0 !!! n) c - total c N V0 / INR N) ->
  kinetic_energy N V =
  0.5 * INR N *
  (v2 - (total 0 N V0 / INR N * (total 0 N V0 / INR N)
         + total 1 N V0 / INR N * (total 1 N V0 / INR N)
         + total 2 N V0 / INR N * (total 2 N V0 / INR N))).
Proof.
  intros HN Hv HV. unfold kinetic_energy.
  rewrite (Rsum_map_ext (fun n => speed2 (V !!! n))
             (fun n =>
                (data (V0 !!! n) 0 - total 0 N V0 / INR N)
                * (data (V0 !!! n) 0 - total 0 N V0 / INR N)
                + (data (V0 !!! n) 1 - total 1 N V0 / INR N)
                  * (data (V0 !!! n) 1 - total 1 N V0 / INR N)
                + (data (V0 !!! n) 2 - total 2 N V0 / INR N)
                  * (data (V0 !!! n) 2 - total 2 N V0 / INR N))).
  2:{ intros n Hn. apply in_seq in Hn. unfold speed2, norm2.
      rewrite !HV by lia. reflexivity. }
  rewrite Rsum_plus3.
  pose proof (Rsum_mean_squares (fun n => data (V0 !!! n) 0) N HN) as E0.
  pose proof (Rsum_mean_squares (fun n => data (V0 !!! n) 1) N HN) as E1.
  pose proof (Rsum_mean_squares (fun n => data (V0 !!! n) 2) N HN) as E2.
  cbv zeta in E0, E1, E2. fold (total 0 N V0) in E0. fold (total 1 N V0) in E1.
  fold (total 2 N V0) in E2. rewrite E0, E1, E2.
  assert (S : Rsum (map (fun n => data (V0 !!! n) 0 * data (V0 !!! n) 0)
                      (seq 0 N))
              + Rsum (map (fun n => data (V0 !!! n) 1 * data (V0 !!! n) 1)
                        (seq 0 N))
              + Rsum (map (fun n => data (V0 !!! n) 2 * data (V0 !!! n) 2)
                        (seq 0 N)) = INR N * v2).
  { rewrite <- Rsum_plus3.
    rewrite (Rsum_map_ext _ (fun _ => v2)).
    - rewrite Rsum_const, length_seq. reflexivity.
    - intros n Hn. apply in_seq in Hn. rewrite <- (Hv n) by lia.
      unfold speed2, norm2. ring. }
  lra.
Qed.

(** X16.  The temperature of the initial velocities.  [MD_initVel] gives
    every atom the speed [sqrt (3 Tg)] and then subtracts the mean
    velocity, which takes energy away: when no atom has drawn three zeros
    and the target temperature is not negative, the temperature of the
    velocities it leaves, which is the one the first call of [Move_Atoms]
    reports, is [Tg] minus one third of the squared norm of the mean
    drawn velocity.  The initial temperature is therefore never above the
    target, and it is the target only if the drawn velocities already add
    up to zero. *)
Theorem X16_initial_temperature rt mr s :
  length (V_ s) = NumAtom_ s -> (0 < NumAtom_ s)%nat -> 0 <= Tg_ s ->
  (forall n, (n < NumAtom_ s)%nat ->
     norm2 (coord 0 (draw mr n)) (coord 1 (draw mr n)) (coord 2 (draw mr n))
       <> 0) ->
  let N := NumAtom_ s in
  let V0 := drawn_velocities mr s in
  let mean c := total c N V0 / INR N in
  let T0 := Tc_ (Move_Atoms rt (MD_initVel mr s)) in
  T0 = kinetic_energy N (V_ (MD_initVel mr s)) / (1.5 * INR N) /\
  T0 = Tg_ s - (mean 0%nat * mean 0%nat + mean 1%nat * mean 1%nat
                + mean 2%nat * mean 2%nat) / 3 /\
  T0 <= Tg_ s.
Proof.
  intros Hlen HN HTg Hdraw N V0 mean T0.
  destruct (MD_initVel_velocities mr s Hlen) as (Hd & Hc & _).
  fold N in Hd, Hc. fold V0 in Hd, Hc.
  destruct (Move_Atoms_frame rt (MD_initVel mr s))
    as (_ & _ & _ & _ & _ & _ & _ & _ & ETc & _).
  fold T0 in ETc. rewrite kinetic_Tc_energy in ETc.
  destruct (MD_initVel_frame mr s) as (_ & _ & EN & _).
  rewrite EN in ETc. fold N in ETc.
  assert (Hv : forall n, (n < N)%nat -> speed2 (V0 !!! n) = 3.0 * Tg_ s).
  { intros n Hn. rewrite (Hd n Hn), drawn_speed2.
    - apply sqrt_sqrt. lra.
    - apply sqrt_pos.
    - apply Hdraw, Hn. }
  pose proof (centred_kinetic_energy N V0 (V_ (MD_initVel mr s))
                (3.0 * Tg_ s) HN Hv Hc) as K.
  fold (mean 0%nat) in K. fold (mean 1%nat) in K. fold (mean 2%nat) in K.
  assert (P : 0 < INR N) by (apply lt_0_INR, HN).
  assert (E : T0 = Tg_ s - (mean 0%nat * mean 0%nat + mean 1%nat * mean 1%nat
                            + mean 2%nat * mean 2%nat) / 3).
  { rewrite ETc, K. replace 0.5 with (/ 2) by lra.
    replace 1.5 with (3 / 2) by lra. replace 3.0 with 3 by lra.
    field. lra. }
  split; [exact ETc|]. split; [exact E|].
  rewrite E.
  pose proof (Rle_0_sqr (mean 0%nat)) as Q0.
  pose proof (Rle_0_sqr (mean 1%nat)) as Q1.
  pose proof (Rle_0_sqr (mean 2%nat)) as Q2.
  unfold Rsqr in Q0, Q1, Q2. lra.
Qed.

Lemma X16_initial_temperature_witness :
  Tc_ (Move_Atoms sequential
         (MD_initVel (mkRand (fun _ => 1) 0)
            (four_atoms at_rest at_rest at_rest at_rest 1 4 0)))
  <= Tg_ (four_atoms at_rest at_rest at_rest at_rest 1 4 0).
Proof.
  refine (proj2 (proj2
    (X16_initial_temperature sequential (mkRand (fun _ => 1) 0)
       (four_atoms at_rest at_rest at_rest at_rest 1 4 0)
       eq_refl ltac:(cbn; lia) Tg_nonneg _))).
  intros n _. unfold draw, norm2. cbn [coord fst snd samples]. lra.
Defined.

(** ** The arrays along a run *)

Lemma run_NumAtom rt calls s : NumAtom_ (run rt calls s) = NumAtom_ s.
Proof.
  revert s. induction calls as [|c calls IH]; intros s; [reflexivity|].
  rewrite run_cons, IH. destruct c; cbn [do_call].
  - destruct (Calc_Forces_frame rt s) as (_ & _ & _ & _ & _ & _ & E & _).
    exact E.
  - apply Move_Atoms_NumAtom.
Qed.

(** X17.  No index leaves the arrays.  On the object built by the
    constructor for [nc] cells per axis, after any sequence of calls of
    [Calc_Forces] and [Move_Atoms], under any run time, the number of atoms
    is still [4 nc^3] and the four arrays of the host and their four
    device mirrors all have exactly that length, so that every index below
    [NumAtom_] used by a kernel or a loop is within each of them. *)
Theorem X17_arrays_sized rt calls nc scale u mr :
  fair_runtime rt ->
  let s := run rt calls (construct nc scale u mr) in
  NumAtom_ s = (4 * nc ^ 3)%nat /\
  length (F_ s) = NumAtom_ s /\ length (V_ s) = NumAtom_ s /\
  length (r_ s) = NumAtom_ s /\ length (r1_ s) = NumAtom_ s /\
  length (F_dev_ s) = NumAtom_ s /\ length (V_dev_ s) = NumAtom_ s /\
  length (r_dev_ s) = NumAtom_ s /\ length (r1_dev_ s) = NumAtom_ s.
Proof.
  intros Hrt s. split.
  - unfold s. rewrite run_NumAtom. apply construct_NumAtom.
  - apply run_from_sized; [exact Hrt|apply construct_sized].
Qed.

Lemma X17_arrays_sized_witness :
  NumAtom_
    (run backwards [CalcForces; MoveAtoms; CalcForces; MoveAtoms]
       (Ar_moleculardynamics (mkUninit (fun _ => splat 1) 1 1 1 1)
          (mkRand (fun _ => 1) 0))) = (4 * FIRSTNC ^ 3)%nat.
Proof.
  exact (proj1
    (X17_arrays_sized backwards [CalcForces; MoveAtoms; CalcForces; MoveAtoms]
       FIRSTNC FIRSTSCALE (mkUninit (fun _ => splat 1) 1 1 1 1)
       (mkRand (fun _ => 1) 0) backwards_fair)).
Defined.
(* ================================================================== *)
(** * The claims on states where every division is defined *)

(** ** The step counter *)

Lemma int32_wrap_id z :
  (-2147483648 <= z < 2147483648)%Z -> int32_wrap z = z.
Proof. intros H. unfold int32_wrap. rewrite Z.mod_small; lia. Qed.

Lemma Move_Atoms_iter rt s :
  (-2147483648 <= MD_iter_ s < 2147483647)%Z ->
  MD_iter_ (Move_Atoms rt s) = (MD_iter_ s + 1)%Z.
Proof.
  intros H. destruct (Move_Atoms_frame rt s) as (_ & _ & -> & _).
  apply int32_wrap_id. lia.
Qed.

(** The counter and the time along a run that does not overflow the
    counter. *)
Lemma run_counter rt calls :
  forall s k,
  MD_iter_ s = (1 + Z.of_nat k)%Z -> t_ s = INR k * DT ->
  (Z.of_nat (k + moves calls) <= 2147483646)%Z ->
  MD_iter_ (run rt calls s) = (1 + Z.of_nat (k + moves calls))%Z /\
  t_ (run rt calls s) = INR (k + moves calls) * DT.
Proof.
  induction calls as [|c calls IH]; intros s k Hi Ht Hb.
  - unfold moves. cbn [List.filter length]. rewrite Nat.add_0_r.
    split; assumption.
  - rewrite run_cons. destruct c; cbn [do_call].
    + rewrite moves_CalcForces in *. apply IH.
      * destruct (Calc_Forces_frame rt s) as (_ & _ & _ & -> & _).
        exact Hi.
      * destruct (Calc_Forces_frame rt s) as (_ & _ & _ & _ & -> & _).
        exact Ht.
      * exact Hb.
    + rewrite moves_MoveAtoms, Nat.add_succ_r in *. apply (IH _ (S k)).
      * rewrite Move_Atoms_iter by lia. rewrite Hi. lia.
      * destruct (Move_Atoms_frame rt s) as (_ & _ & _ & -> & _).
        rewrite Hi, plus_IZR, <- INR_IZR_INZ, S_INR. ring.
      * exact Hb.
Qed.

(** ** The displacement and the squared distance in components *)

Lemma displacement_component r L n m i j k c :
  data (displacement r L n m i j k) c =
  data (r !!! n) c -
  (data (r !!! m) c +
   match c with
   | O => IZR i * L
   | 1%nat => IZR j * L
   | 2%nat => IZR k * L
   | _ => 0
   end).
Proof.
  unfold displacement, image_shift. rewrite data_vsub, data_vadd.
  destruct c as [|[|[|c]]]; cbn [data vx vy vz vw]; lra.
Qed.

Lemma dist2_displacement r L n m i j k :
  dist2 (displacement r L n m i j k) =
  (data (r !!! n) 0 - (data (r !!! m) 0 + IZR i * L))
  * (data (r !!! n) 0 - (data (r !!! m) 0 + IZR i * L))
  + (data (r !!! n) 1 - (data (r !!! m) 1 + IZR j * L))
    * (data (r !!! n) 1 - (data (r !!! m) 1 + IZR j * L))
  + (data (r !!! n) 2 - (data (r !!! m) 2 + IZR k * L))
    * (data (r !!! n) 2 - (data (r !!! m) 2 + IZR k * L)).
Proof.
  change (dist2 (displacement r L n m i j k))
    with (data (displacement r L n m i j k) 0
          * data (displacement r L n m i j k) 0
          + data (displacement r L n m i j k) 1
            * data (displacement r L n m i j k) 1
          + data (displacement r L n m i j k) 2
            * data (displacement r L n m i j k) 2).
  rewrite !displacement_component. reflexivity.
Qed.

Lemma pair_force_component d c :
  0 < dist2 d ->
  data (pair_force d) c =
  data d c / sqrt (dist2 d)
  * (48 * / sqrt (dist2 d) ^ 13 - 24 * / sqrt (dist2 d) ^ 7).
Proof.
  intros H. rewrite (pair_force_powers d H). data_norm.
  replace 48.0 with 48 by lra. replace 24.0 with 24 by lra. reflexivity.
Qed.

Lemma no_coincidence_dist2 r N L n m i j k :
  no_coincidence r N L -> (n < N)%nat ->
  In (m, (i, j, k)) (images N ncp_) -> not_self n m i j k = true ->
  0 < dist2 (displacement r L n m i j k).
Proof.
  intros H Hn Hin Hself. apply in_images in Hin as (Hm & Hi & Hj & Hk).
  rewrite dist2_displacement. unfold ncp_ in *.
  apply H; try assumption; try lia. apply not_self_true, Hself.
Qed.

(** ** Two atoms at distance 1 in a box of edge 100 *)

Lemma apart_coords n c :
  (n < 4)%nat -> (c < 3)%nat -> 0 <= data (apart !!! n) c <= 50.
Proof.
  intros Hn Hc.
  destruct n as [|[|[|[|n]]]]; [| | | |lia];
    destruct c as [|[|[|c]]]; try lia;
    unfold apart; cbn [lookup_total list_lookup_total data vx vy vz]; lra.
Qed.

Lemma far_shift a b (z : Z) :
  0 <= a <= 50 -> 0 <= b <= 50 -> z <> 0%Z ->
  2500 <= (a - (b + IZR z * 100)) * (a - (b + IZR z * 100)).
Proof.
  intros Ha Hb Hz.
  destruct (Z_zero_or_far z) as [E|[E|E]]; [contradiction|nra|nra].
Qed.

Lemma apart_distinct n m :
  (n < 4)%nat -> (m < 4)%nat ->
  (forall c, (c < 3)%nat -> data (apart !!! n) c = data (apart !!! m) c) ->
  n = m.
Proof.
  intros Hn Hm H.
  pose proof (H 0%nat ltac:(lia)) as H0. pose proof (H 1%nat ltac:(lia)) as H1.
  pose proof (H 2%nat ltac:(lia)) as H2.
  destruct n as [|[|[|[|n]]]]; [| | | |lia];
    destruct m as [|[|[|[|m]]]]; try lia; try reflexivity; exfalso;
    unfold apart in H0, H1, H2;
    cbn [lookup_total list_lookup_total data vx vy vz] in H0, H1, H2; lra.
Qed.

Lemma apart_no_coincidence : no_coincidence apart 4 100.
Proof.
  intros n m i j k Hn Hm Hi Hj Hk Hself.
  pose proof (apart_coords n 0 Hn ltac:(lia)) as N0.
  pose proof (apart_coords n 1 Hn ltac:(lia)) as N1.
  pose proof (apart_coords n 2 Hn ltac:(lia)) as N2.
  pose proof (apart_coords m 0 Hm ltac:(lia)) as M0.
  pose proof (apart_coords m 1 Hm ltac:(lia)) as M1.
  pose proof (apart_coords m 2 Hm ltac:(lia)) as M2.
  set (dx := data (apart !!! n) 0 - (data (apart !!! m) 0 + IZR i * 100)).
  set (dy := data (apart !!! n) 1 - (data (apart !!! m) 1 + IZR j * 100)).
  set (dz := data (apart !!! n) 2 - (data (apart !!! m) 2 + IZR k * 100)).
  destruct (Rlt_le_dec 0 (dx * dx + dy * dy + dz * dz)) as [H|H];
    [exact H|exfalso].
  assert (Z : dx = 0 /\ dy = 0 /\ dz = 0) by (repeat split; nra).
  destruct Z as (Zx & Zy & Zz).
  assert (Ei : i = 0%Z).
  { destruct (Z.eq_dec i 0%Z) as [E|E]; [exact E|exfalso].
    pose proof (far_shift _ _ i N0 M0 E) as F. fold dx in F. nra. }
  assert (Ej : j = 0%Z).
  { destruct (Z.eq_dec j 0%Z) as [E|E]; [exact E|exfalso].
    pose proof (far_shift _ _ j N1 M1 E) as F. fold dy in F. nra. }
  assert (Ek : k = 0%Z).
  { destruct (Z.eq_dec k 0%Z) as [E|E]; [exact E|exfalso].
    pose proof (far_shift _ _ k N2 M2 E) as F. fold dz in F. nra. }
  subst i j k. apply Hself. split; [|auto].
  apply apart_distinct; try assumption.
  intros c Hc. unfold dx, dy, dz in Zx, Zy, Zz.
  destruct c as [|[|[|c]]]; [lra|lra|lra|lia].
Qed.

(** ** The force sum *)

(** C1. In [Calc_Forces], on a state in which no atom coincides with
    another atom or image of the range of the loops, the force of every
    atom [n] is the sum, started from the zero vector written by
    [init_force], of the vectors [(d / r) * Fr] over the pairs
    [(m, (i, j, k))] selected as follows: [m] ranges over all atoms and
    [(i, j, k)] over the cube [-3..3]^3, each pair once; a pair is skipped
    exactly when [n = m] and [i = j = k = 0]; a remaining pair contributes
    exactly when [r2 = dx^2 + dy^2 + dz^2 <= 2.5^2], where the component
    [c] of [d] is [r[n].c - (r[m].c + shift.c)] and the shift is
    [(i L, j L, k L, 0)]; the contribution to the component [c] of the
    force is [d.c / r * (48 r^-13 - 24 r^-7)] with [r = sqrt r2]. *)
Theorem C1_force_sum rt s n :
  fair_runtime rt -> sized s -> (n < NumAtom_ s)%nat ->
  let N := NumAtom_ s in
  let L := periodiclen_ s in
  let shift (i j k : Z) (c : nat) :=
    match c with
    | O => IZR i * L
    | 1%nat => IZR j * L
    | 2%nat => IZR k * L
    | _ => 0
    end in
  let d m i j k c :=
    data (r_ s !!! n) c - (data (r_ s !!! m) c + shift i j k c) in
  let r2 m i j k :=
    d m i j k 0%nat * d m i j k 0%nat + d m i j k 1%nat * d m i j k 1%nat
    + d m i j k 2%nat * d m i j k 2%nat in
  let term m i j k c :=
    d m i j k c / sqrt (r2 m i j k)
    * (48 * / sqrt (r2 m i j k) ^ 13 - 24 * / sqrt (r2 m i j k) ^ 7) in
  let selected := force_pairs (r_ s) ncp_ N L rc2_ n in
  (forall m i j k,
     (m < N)%nat -> (-3 <= i <= 3)%Z -> (-3 <= j <= 3)%Z -> (-3 <= k <= 3)%Z ->
     ~ (n = m /\ i = 0%Z /\ j = 0%Z /\ k = 0%Z) -> 0 < r2 m i j k) ->
  (forall c,
     data (F_dev_ (run_init_force rt (upload_r (upload_F s))) !!! n) c = 0) /\
  NoDup selected /\
  (forall m i j k,
     In (m, (i, j, k)) selected <->
     ((m < N)%nat /\ (-3 <= i <= 3)%Z /\ (-3 <= j <= 3)%Z /\
      (-3 <= k <= 3)%Z) /\
     ~ (n = m /\ i = 0%Z /\ j = 0%Z /\ k = 0%Z) /\
     r2 m i j k <= 2.5 * 2.5) /\
  F_ (Calc_Forces rt s) !!! n =
    fold_left vadd
      (map (fun '(m, (i, j, k)) =>
              pair_force (displacement (r_ s) L n m i j k)) selected)
      (splat 0.0) /\
  (forall m i j k c,
     In (m, (i, j, k)) selected ->
     data (pair_force (displacement (r_ s) L n m i j k)) c = term m i j k c) /\
  (forall c,
     data (F_ (Calc_Forces rt s) !!! n) c =
     Rsum (map (fun '(m, (i, j, k)) => term m i j k c) selected)).
Proof.
  intros Hrt Hs Hn N L shift d r2 term selected Hpos.
  assert (Ed : forall m i j k c,
            data (displacement (r_ s) L n m i j k) c = d m i j k c).
  { intros m i j k c. apply displacement_component. }
  assert (E2 : forall m i j k,
            dist2 (displacement (r_ s) L n m i j k) = r2 m i j k).
  { intros m i j k. apply dist2_displacement. }
  assert (Hin : forall m i j k,
            In (m, (i, j, k)) selected <->
            ((m < N)%nat /\ (-3 <= i <= 3)%Z /\ (-3 <= j <= 3)%Z /\
             (-3 <= k <= 3)%Z) /\
            ~ (n = m /\ i = 0%Z /\ j = 0%Z /\ k = 0%Z) /\
            r2 m i j k <= 2.5 * 2.5).
  { intros m i j k. unfold selected. rewrite in_force_pairs, E2.
    reflexivity. }
  assert (Ht : forall m i j k c,
            In (m, (i, j, k)) selected ->
            data (pair_force (displacement (r_ s) L n m i j k)) c =
            term m i j k c).
  { intros m i j k c H. apply Hin in H as ((Hm & Hi & Hj & Hk) & Hself & _).
    rewrite pair_force_component
      by (rewrite E2; apply Hpos; assumption).
    rewrite E2, Ed. reflexivity. }
  split; [|split; [|split; [|split; [|split]]]].
  - intros c. destruct Hrt as (Fi & _).
    destruct Hs as (HF & HV & Hr & Hr1 & HFd & HVd & Hrd & Hr1d).
    unfold run_init_force, upload_r, upload_F. md_proj.
    rewrite copy_same_length by congruence.
    destruct (init_force_launch _ _ _ _ Fi HF Hn) as [-> _].
    rewrite data_splat. lra.
  - apply NoDup_force_pairs.
  - exact Hin.
  - apply Calc_Forces_F; assumption.
  - exact Ht.
  - intros c. rewrite Calc_Forces_F by assumption.
    rewrite net_force_component. apply Rsum_map_ext.
    intros [m [[i j] k]] H. apply Ht, H.
Qed.

Lemma C1_force_sum_witness :
  let s := four_atoms apart apart at_rest at_rest 1 100 0 in
  data (F_ (Calc_Forces sequential s) !!! 0%nat) 0 = -24.
Proof.
  intros s.
  destruct (C1_force_sum sequential s 0%nat sequential_fair
              (sized_four_atoms apart apart at_rest at_rest 1 100 0
                 eq_refl eq_refl eq_refl eq_refl)
              ltac:(cbn; lia)) as (_ & _ & _ & E & _).
  - intros m i j k Hm Hi Hj Hk Hself.
    apply (apart_no_coincidence 0%nat m i j k); (assumption || (cbn; lia)).
  - rewrite E. apply apart_net_force_x.
Defined.

(** ** The first step *)

Lemma kinetic_energy_components N (V : list Vector4) :
  kinetic_energy N V =
  0.5 * Rsum (map (fun a => data (V !!! a) 0 * data (V !!! a) 0
                            + data (V !!! a) 1 * data (V !!! a) 1
                            + data (V !!! a) 2 * data (V !!! a) 2)
                (seq 0 N)).
Proof. reflexivity. Qed.

Lemma one_moving_squares :
  Rsum (map (fun a => data (one_moving !!! a) 0 * data (one_moving !!! a) 0
                      + data (one_moving !!! a) 1 * data (one_moving !!! a) 1
                      + data (one_moving !!! a) 2 * data (one_moving !!! a) 2)
          (seq 0 4)) = 1.
Proof.
  unfold Rsum, one_moving.
  cbn [seq map fold_right lookup_total list_lookup_total data vx vy vz splat].
  lra.
Qed.

(** C3. On the call of [Move_Atoms] with step counter 1, when the
    temperature [Tc = 0.5 sum (Vx^2 + Vy^2 + Vz^2) / (1.5 NumAtom)] of the
    velocities of the entry is positive and the target [Tg] is not
    negative, the factor [sc = sqrt ((Tg + 0.2 (Tc - Tg)) / Tc)] is the
    square root of a positive number; for every atom the prior position
    becomes the position of the entry, the velocity is multiplied by [sc],
    the position grows by [dt V + 0.5 dt^2 F] with the scaled velocity and
    the velocity by [dt F]; the call returns that velocity and the periodic
    boundary treatment of that position and prior position.  The counter
    is 1 after the construction, 2 after this call, and after any further
    sequence of calls that does not overflow the counter it is 2 plus the
    number of calls of [Move_Atoms] of the sequence, hence not 1. *)
Theorem C3_bootstrap_step rt s n :
  fair_runtime rt -> sized s -> (n < NumAtom_ s)%nat -> MD_iter_ s = 1%Z ->
  let Tc :=
    0.5 * Rsum (map (fun a => data (V_ s !!! a) 0 * data (V_ s !!! a) 0
                              + data (V_ s !!! a) 1 * data (V_ s !!! a) 1
                              + data (V_ s !!! a) 2 * data (V_ s !!! a) 2)
                  (seq 0 (NumAtom_ s)))
    / (1.5 * INR (NumAtom_ s)) in
  0 < Tc -> 0 <= Tg_ s ->
  let sc := sqrt ((Tg_ s + 0.2 * (Tc - Tg_ s)) / Tc) in
  let r := r_ s !!! n in
  let V := V_ s !!! n in
  let F := F_ s !!! n in
  let new_r := r_ (before_wrap rt s) !!! n in
  let new_V := V_ (before_wrap rt s) !!! n in
  Tc_ (Move_Atoms rt s) = Tc /\
  0 < (Tg_ s + 0.2 * (Tc - Tg_ s)) / Tc /\
  r1_ (before_wrap rt s) !!! n = r /\
  (forall i, data new_r i =
     data r i + (DT * (data V i * sc) + 0.5 * data F i * (DT * DT))) /\
  (forall i, data new_V i = data V i * sc + DT * data F i) /\
  V_ (Move_Atoms rt s) !!! n = new_V /\
  (r_ (Move_Atoms rt s) !!! n, r1_ (Move_Atoms rt s) !!! n) =
    wrap_atom (periodiclen_ s) (new_r, r) /\
  (forall nc scale u mr, MD_iter_ (construct nc scale u mr) = 1%Z) /\
  MD_iter_ (Move_Atoms rt s) = 2%Z /\
  (forall calls, (Z.of_nat (moves calls) <= 2147483645)%Z ->
     MD_iter_ (run rt calls (Move_Atoms rt s)) =
       (2 + Z.of_nat (moves calls))%Z /\
     MD_iter_ (run rt calls (Move_Atoms rt s)) <> 1%Z).
Proof.
  intros Hrt Hs Hn Hiter Tc HTc HTg sc r V F new_r new_V.
  destruct (before_wrap_first rt s n Hrt Hs Hn Hiter) as [E Hsz].
  rewrite kinetic_Tc_energy, kinetic_energy_components in E. fold Tc in E.
  unfold euler_atom, woodcock, ALPHA in E. fold sc in E.
  apply triple_eq in E as (Er & Er1 & EV).
  fold r V F in Er, Er1, EV. fold new_r in Er. fold new_V in EV.
  destruct (Move_Atoms_frame rt s)
    as (_ & _ & _ & Et & _ & _ & _ & _ & ETc & EVm).
  assert (Ei : MD_iter_ (Move_Atoms rt s) = 2%Z).
  { rewrite Move_Atoms_iter by lia. rewrite Hiter. reflexivity. }
  split; [|split; [|split; [|split; [|split; [|split; [|split;
    [|split; [|split]]]]]]]].
  - rewrite ETc, kinetic_Tc_energy, kinetic_energy_components. reflexivity.
  - assert (Q : 0 < / Tc) by (apply Rinv_0_lt_compat, HTc).
    unfold Rdiv. apply Rmult_lt_0_compat; lra.
  - exact Er1.
  - intros i. rewrite Er. data_norm. reflexivity.
  - intros i. rewrite EV. data_norm. reflexivity.
  - rewrite EVm. reflexivity.
  - destruct (Move_Atoms_atoms rt s n Hrt Hsz Hn) as [Ew _].
    rewrite Ew, Er1. reflexivity.
  - apply construct_iter.
  - exact Ei.
  - intros calls Hb.
    destruct (run_counter rt calls (Move_Atoms rt s) 1) as [Hc _].
    + rewrite Ei. reflexivity.
    + rewrite Et, Hiter. cbn [INR]. reflexivity.
    + lia.
    + rewrite Hc. split; lia.
Qed.

Lemma C3_bootstrap_step_witness :
  let s := four_atoms fcc4 fcc4 one_moving at_rest 1 4 0 in
  Tc_ (Move_Atoms sequential s) = 1 / 12 /\
  MD_iter_ (run sequential [CalcForces; MoveAtoms] (Move_Atoms sequential s))
  = 3%Z.
Proof.
  intros s.
  assert (T : 0.5 * Rsum (map (fun a =>
                data (V_ s !!! a) 0 * data (V_ s !!! a) 0
                + data (V_ s !!! a) 1 * data (V_ s !!! a) 1
                + data (V_ s !!! a) 2 * data (V_ s !!! a) 2)
                (seq 0 (NumAtom_ s))) / (1.5 * INR (NumAtom_ s)) = 1 / 12).
  { change (V_ s) with one_moving. change (NumAtom_ s) with 4%nat.
    rewrite one_moving_squares. cbn [INR]. lra. }
  destruct (C3_bootstrap_step sequential s 0%nat sequential_fair
              (sized_four_atoms fcc4 fcc4 one_moving at_rest 1 4 0
                 eq_refl eq_refl eq_refl eq_refl)
              ltac:(cbn; lia) eq_refl)
    as (ETc & _ & _ & _ & _ & _ & _ & _ & _ & Hrun).
  - rewrite T. lra.
  - exact Tg_nonneg.
  - split.
    + rewrite ETc. exact T.
    + destruct (Hrun [CalcForces; MoveAtoms]) as [E _]; [cbn; lia|].
      rewrite E. reflexivity.
Defined.

(** ** The diagnostics *)

(** C7, as amended. A call of [Move_Atoms] on an object with at least one
    atom and a step counter below 2147483647 computes [Uk], [Utot] and
    [Tc] from the velocities of its entry, before any position or velocity
    is written: [Uk = 0.5 sum (Vx^2 + Vy^2 + Vz^2)], [Utot = Uk + Up] with
    [Up] unchanged, [Tc = Uk / (1.5 NumAtom)]; it sets the time to the step
    counter of the entry times [dt] and then increments the counter by
    one. *)
Theorem C7_diagnostics rt s :
  (0 < NumAtom_ s)%nat -> (-2147483648 <= MD_iter_ s < 2147483647)%Z ->
  let s' := Move_Atoms rt s in
  Uk_ s' =
    0.5 * Rsum (map (fun n => data (V_ s !!! n) 0 * data (V_ s !!! n) 0
                              + data (V_ s !!! n) 1 * data (V_ s !!! n) 1
                              + data (V_ s !!! n) 2 * data (V_ s !!! n) 2)
                  (seq 0 (NumAtom_ s)))
  /\ Utot_ s' = Uk_ s' + Up_ s /\ Up_ s' = Up_ s
  /\ Tc_ s' = Uk_ s' / (1.5 * INR (NumAtom_ s))
  /\ MD_iter_ s' = (MD_iter_ s + 1)%Z
  /\ t_ s' = IZR (MD_iter_ s) * DT
  /\ NumAtom_ s' = NumAtom_ s.
Proof.
  intros HN Hi s'. subst s'.
  destruct (Move_Atoms_frame rt s)
    as (EN & _ & _ & Et & EUp & _ & EUk & EUtot & ETc & _).
  rewrite (Move_Atoms_iter rt s Hi).
  rewrite EUk, EUtot, ETc, EUp, Et, EN.
  rewrite kinetic_Utot, kinetic_Tc_energy, kinetic_Uk,
    kinetic_energy_components.
  repeat split; reflexivity.
Qed.

Lemma C7_diagnostics_witness :
  let s' := Move_Atoms sequential
              (four_atoms fcc4 fcc4 one_moving at_rest 2 4 0) in
  Uk_ s' = 0.5 /\ Tc_ s' = 1 / 12 /\ MD_iter_ s' = 3%Z /\ t_ s' = 2 * DT.
Proof.
  intros s'.
  destruct (C7_diagnostics sequential
              (four_atoms fcc4 fcc4 one_moving at_rest 2 4 0)
              ltac:(cbn; lia) ltac:(cbn; lia))
    as (EUk & _ & _ & ETc & Ei & Et & _).
  fold s' in EUk, ETc, Ei, Et.
  change (V_ (four_atoms fcc4 fcc4 one_moving at_rest 2 4 0))
    with one_moving in EUk.
  change (NumAtom_ (four_atoms fcc4 fcc4 one_moving at_rest 2 4 0))
    with 4%nat in EUk, ETc.
  rewrite one_moving_squares in EUk.
  repeat split.
  - rewrite EUk. lra.
  - rewrite ETc, EUk. cbn [INR]. lra.
  - exact Ei.
  - exact Et.
Defined.

(** ** The initial velocities *)

Lemma norm2_components x y z : norm2 x y z = x * x + y * y + z * z.
Proof. reflexivity. Qed.

Lemma direction_velocity_component v p c :
  (c < 3)%nat ->
  data (direction_velocity v p) c =
  v * (coord c p *
       (1.0 / sqrt (coord 0 p * coord 0 p + coord 1 p * coord 1 p
                    + coord 2 p * coord 2 p))).
Proof.
  intros Hc. unfold direction_velocity, Vector4_xyz. rewrite norm2_components.
  destruct c as [|[|[|c]]]; try lia; reflexivity.
Qed.

Lemma axes_draws n :
  (n < 4)%nat ->
  coord 0 (draw axes n) * coord 0 (draw axes n)
  + coord 1 (draw axes n) * coord 1 (draw axes n)
  + coord 2 (draw axes n) * coord 2 (draw axes n) = 1.
Proof.
  intros Hn. destruct n as [|[|[|[|n]]]]; [| | | |lia];
    unfold draw, axes; cbn [coord fst snd samples drawn Nat.add Nat.mul];
    lra.
Qed.

(** C9. When no atom draws three zeros and the target temperature [Tg]
    is not negative, [MD_initVel] gives atom [n] the velocity [v d / |d|]
    with [v = sqrt (3 Tg)], where [d] holds the three scalars drawn for
    the atom and [|d|^2 = dx^2 + dy^2 + dz^2]; its squared speed is
    [3 Tg], its speed [v].  It then subtracts from every velocity the mean
    of each component over the atoms, after which each of the three
    components adds up to zero over the atoms, also in the constructed
    object, for every number of cells [Nc >= 1]. *)
Theorem C9_zero_momentum mr s :
  length (V_ s) = NumAtom_ s -> (0 < NumAtom_ s)%nat -> 0 <= Tg_ s ->
  (forall n, (n < NumAtom_ s)%nat ->
     coord 0 (draw mr n) * coord 0 (draw mr n)
     + coord 1 (draw mr n) * coord 1 (draw mr n)
     + coord 2 (draw mr n) * coord 2 (draw mr n) <> 0) ->
  let N := NumAtom_ s in
  let v := sqrt (3.0 * Tg_ s) in
  let V0 := drawn_velocities mr s in
  (forall n, draw mr n =
     (samples mr (drawn mr + 3 * n), samples mr (drawn mr + 3 * n + 1),
      samples mr (drawn mr + 3 * n + 2))%nat) /\
  (forall n c, (n < N)%nat -> (c < 3)%nat ->
     data (V0 !!! n) c =
     v * (coord c (draw mr n) *
          (1.0 / sqrt (coord 0 (draw mr n) * coord 0 (draw mr n)
                       + coord 1 (draw mr n) * coord 1 (draw mr n)
                       + coord 2 (draw mr n) * coord 2 (draw mr n))))) /\
  (forall n, (n < N)%nat ->
     data (V0 !!! n) 0 * data (V0 !!! n) 0
     + data (V0 !!! n) 1 * data (V0 !!! n) 1
     + data (V0 !!! n) 2 * data (V0 !!! n) 2 = 3.0 * Tg_ s /\
     sqrt (data (V0 !!! n) 0 * data (V0 !!! n) 0
           + data (V0 !!! n) 1 * data (V0 !!! n) 1
           + data (V0 !!! n) 2 * data (V0 !!! n) 2) = v) /\
  (forall n c, (n < N)%nat -> (c < 3)%nat ->
     data (V_ (MD_initVel mr s) !!! n) c =
     data (V0 !!! n) c - total c N V0 / INR N) /\
  (forall c, (c < 3)%nat -> total c N (V_ (MD_initVel mr s)) = 0) /\
  (forall nc scale u c, (1 <= nc)%nat -> (c < 3)%nat ->
     (forall n, (n < 4 * nc ^ 3)%nat ->
        coord 0 (draw mr n) * coord 0 (draw mr n)
        + coord 1 (draw mr n) * coord 1 (draw mr n)
        + coord 2 (draw mr n) * coord 2 (draw mr n) <> 0) ->
     total c (NumAtom_ (construct nc scale u mr))
       (V_ (construct nc scale u mr)) = 0).
Proof.
  intros Hlen HN HTg Hdraw N v V0.
  destruct (MD_initVel_velocities mr s Hlen) as (Hd & Hc & Hz).
  fold N in Hd, Hc, Hz. fold V0 in Hd, Hc. fold v in Hd.
  assert (Hs : forall n, (n < N)%nat ->
            data (V0 !!! n) 0 * data (V0 !!! n) 0
            + data (V0 !!! n) 1 * data (V0 !!! n) 1
            + data (V0 !!! n) 2 * data (V0 !!! n) 2 = 3.0 * Tg_ s).
  { intros n Hn.
    change (speed2 (V0 !!! n) = 3.0 * Tg_ s).
    rewrite (Hd n Hn), drawn_speed2.
    - apply sqrt_sqrt. lra.
    - apply sqrt_pos.
    - rewrite norm2_components. apply Hdraw, Hn. }
  split; [reflexivity|]. split; [|split; [|split; [|split]]].
  - intros n c Hn Hc'. rewrite (Hd n Hn).
    apply direction_velocity_component, Hc'.
  - intros n Hn. split; [apply Hs, Hn|]. rewrite (Hs n Hn). reflexivity.
  - exact Hc.
  - exact Hz.
  - intros nc scale u c _ Hc' _. apply construct_velocities, Hc'.
Qed.

Lemma C9_zero_momentum_witness :
  let s := four_atoms at_rest at_rest at_rest at_rest 1 4 0 in
  total 0 4 (V_ (MD_initVel axes s)) = 0 /\
  data (drawn_velocities axes s !!! 1%nat) 0
  * data (drawn_velocities axes s !!! 1%nat) 0
  + data (drawn_velocities axes s !!! 1%nat) 1
    * data (drawn_velocities axes s !!! 1%nat) 1
  + data (drawn_velocities axes s !!! 1%nat) 2
    * data (drawn_velocities axes s !!! 1%nat) 2 = 3.0 * Tg_ s.
Proof.
  intros s.
  destruct (C9_zero_momentum axes s eq_refl ltac:(cbn; lia) Tg_nonneg)
    as (_ & _ & Hs & _ & Hz & _).
  - intros n Hn. rewrite (axes_draws n Hn). lra.
  - split.
    + apply (Hz 0%nat). lia.
    + apply (Hs 1%nat). cbn. lia.
Defined.

(** ** One path for the forces *)

Lemma Calc_Forces_F_schedule rt1 rt2 s :
  fair_runtime rt1 -> fair_runtime rt2 -> sized s ->
  F_ (Calc_Forces rt1 s) = F_ (Calc_Forces rt2 s).
Proof.
  intros H1 H2 Hs.
  pose proof (Calc_Forces_sized rt1 s H1 Hs) as (HF1 & _).
  pose proof (Calc_Forces_sized rt2 s H2 Hs) as (HF2 & _).
  destruct (Calc_Forces_frame rt1 s) as (_ & _ & _ & _ & _ & _ & N1 & _).
  destruct (Calc_Forces_frame rt2 s) as (_ & _ & _ & _ & _ & _ & N2 & _).
  apply list_eq_slots with (NumAtom_ s); [congruence|congruence|].
  intros n Hn. rewrite !Calc_Forces_F by assumption. reflexivity.
Qed.

(** C5, as amended. [Calc_Forces] is one path, not two backends: the force
    array is computed on the device only, by the launch of [init_force] and
    of [force] with one work-item per atom, and copied back; the host loop
    over the atoms, with its sequential inner loops over [m] and the
    images, visits the same pairs with the same two tests but accumulates
    the potential energy only and leaves the force array as it was.  On a
    state in which no atom coincides with another atom or image, so that
    no division is by zero: the potential energy is, in exact arithmetic,
    the sum over the atoms of the terms of their pairs; the force array
    does not depend on the order of the work-items; and the three used
    components of the device forces are, in exact arithmetic, those that
    the CPU accumulation of the specification would give. *)
Theorem C5_one_hybrid_path rt s n c :
  fair_runtime rt -> sized s -> (n < NumAtom_ s)%nat -> (c < 3)%nat ->
  no_coincidence (r_ s) (NumAtom_ s) (periodiclen_ s) ->
  let N := NumAtom_ s in
  let L := periodiclen_ s in
  let dev := run_force rt (run_init_force rt (upload_r (upload_F s))) in
  F_dev_ dev =
    enqueue_1d_range_kernel (order_force rt)
      (force (r_ s) ncp_ N L rc2_) N
      (enqueue_1d_range_kernel (order_init_force rt) init_force N (F_ s)) /\
  F_ (host_energy rt dev) = F_ s /\
  F_dev_ (host_energy rt dev) = F_dev_ dev /\
  F_ (Calc_Forces rt s) = F_dev_ dev /\
  Up_ (Calc_Forces rt s) =
    Rsum (map (fun n =>
      Rsum (map (fun '(m, (i, j, k)) =>
                   pair_energy (dist2 (displacement (r_ s) L n m i j k)))
              (force_pairs (r_ s) ncp_ N L rc2_ n))) (seq 0 N)) /\
  (forall rt', fair_runtime rt' ->
     F_ (Calc_Forces rt' s) = F_ (Calc_Forces rt s)) /\
  (forall sigma, fair sigma ->
     data (F_ (Calc_Forces rt s) !!! n) c =
     data (spec_cpu_forces sigma s !!! n) c).
Proof.
  intros Hrt Hs Hn Hc Hapart N L dev.
  split; [apply device_forces, Hs|].
  split; [rewrite (proj1 (host_energy_forces rt dev));
          apply device_host_forces|].
  split; [apply host_energy_forces|].
  split; [apply (Calc_Forces_download rt s n); assumption|].
  split; [apply Calc_Forces_Up, Hrt|].
  split.
  - intros rt' Hrt'. apply Calc_Forces_F_schedule; assumption.
  - intros sigma Hsig. rewrite Calc_Forces_F by assumption.
    symmetry. apply spec_cpu_forces_atom; try assumption. apply Hs.
Qed.

Lemma C5_one_hybrid_path_witness :
  let s := four_atoms apart apart at_rest at_rest 1 100 0 in
  F_ (Calc_Forces sequential s) =
  F_dev_ (run_force sequential
            (run_init_force sequential (upload_r (upload_F s)))) /\
  data (spec_cpu_forces in_order s !!! 0%nat) 0 = -24.
Proof.
  intros s.
  destruct (C5_one_hybrid_path sequential s 0%nat 0%nat sequential_fair
              (sized_four_atoms apart apart at_rest at_rest 1 100 0
                 eq_refl eq_refl eq_refl eq_refl)
              ltac:(cbn; lia) ltac:(lia) apart_no_coincidence)
    as (_ & _ & _ & E & _ & _ & Hspec).
  split; [exact E|].
  rewrite <- (Hspec in_order in_order_fair).
  rewrite (Calc_Forces_F sequential s 0%nat sequential_fair
             (sized_four_atoms apart apart at_rest at_rest 1 100 0
                eq_refl eq_refl eq_refl eq_refl) ltac:(cbn; lia)).
  apply apart_net_force_x.
Defined.

(** ** The potential energy *)

Lemma representative_explicit n m i j k :
  representative (n, (m, (i, j, k))) = true <->
  ((n < m)%nat \/
   (n = m /\ ((0 < i)%Z \/ (i = 0%Z /\ ((0 < j)%Z \/ (j = 0%Z /\ (0 < k)%Z)))))).
Proof.
  unfold representative, lex_pos.
  rewrite !orb_true_iff, !andb_true_iff, !orb_true_iff, !andb_true_iff,
    !orb_true_iff, !andb_true_iff.
  rewrite Nat.ltb_lt, Nat.eqb_eq, !Z.ltb_lt, !Z.eqb_eq. tauto.
Qed.

Lemma in_unordered_explicit r N L n m i j k :
  In (n, (m, (i, j, k))) (unordered_pairs r N L) <->
  (n < N)%nat /\ (m < N)%nat /\
  (-3 <= i <= 3)%Z /\ (-3 <= j <= 3)%Z /\ (-3 <= k <= 3)%Z /\
  ((n < m)%nat \/
   (n = m /\ ((0 < i)%Z \/ (i = 0%Z /\ ((0 < j)%Z \/ (j = 0%Z /\ (0 < k)%Z)))))) /\
  dist2 (displacement r L n m i j k) <= 2.5 * 2.5.
Proof.
  rewrite in_unordered_pairs, in_all_pairs, representative_explicit.
  unfold interacting, pair_r2. rewrite andb_true_iff, not_self_true,
    in_cutoff_true. unfold ncp_, rc2_, rc_. split.
  - intros ((Hn & Hm & Hi & Hj & Hk) & Hrep & _ & Hr).
    repeat split; try assumption; lia.
  - intros (Hn & Hm & Hi & Hj & Hk & Hrep & Hr).
    repeat split; try assumption; try lia.
Qed.

Lemma NoDup_unordered_pairs r N L : NoDup (unordered_pairs r N L).
Proof. apply NoDup_bfilter, NoDup_all_pairs. Qed.

Lemma pair_energy_explicit r2 :
  0 < r2 ->
  pair_energy r2 =
  0.5 * (4 * (/ sqrt r2 ^ 12 - / sqrt r2 ^ 6) - 4 * (/ 2.5 ^ 12 - / 2.5 ^ 6)).
Proof.
  intros H. rewrite (pair_energy_powers r2 H).
  unfold Vrc_, rcm12_, rcm6_, rc_. lra.
Qed.

Lemma pair_potential_explicit r2 :
  0 < r2 ->
  pair_potential r2 =
  4 * (/ sqrt r2 ^ 12 - / sqrt r2 ^ 6) - 4 * (/ 2.5 ^ 12 - / 2.5 ^ 6).
Proof.
  intros H. rewrite (pair_potential_powers r2 H).
  unfold Vrc_, rcm12_, rcm6_, rc_. lra.
Qed.

Lemma apart_interacting n m i j k :
  (n < 4)%nat -> (m < 4)%nat ->
  interacting apart 100 rc2_ (n, (m, (i, j, k))) = true ->
  i = 0%Z /\ j = 0%Z /\ k = 0%Z /\
  ((n = 0 /\ m = 1) \/ (n = 1 /\ m = 0))%nat.
Proof.
  intros Hn Hm H. unfold interacting, pair_r2 in H.
  apply andb_true_iff in H as [Hself Hr].
  apply not_self_true in Hself. apply in_cutoff_true in Hr.
  rewrite dist2_displacement in Hr. unfold rc2_, rc_ in Hr.
  pose proof (apart_coords n 0 Hn ltac:(lia)) as N0.
  pose proof (apart_coords n 1 Hn ltac:(lia)) as N1.
  pose proof (apart_coords n 2 Hn ltac:(lia)) as N2.
  pose proof (apart_coords m 0 Hm ltac:(lia)) as M0.
  pose proof (apart_coords m 1 Hm ltac:(lia)) as M1.
  pose proof (apart_coords m 2 Hm ltac:(lia)) as M2.
  set (dx := data (apart !!! n) 0 - (data (apart !!! m) 0 + IZR i * 100))
    in *.
  set (dy := data (apart !!! n) 1 - (data (apart !!! m) 1 + IZR j * 100))
    in *.
  set (dz := data (apart !!! n) 2 - (data (apart !!! m) 2 + IZR k * 100))
    in *.
  assert (Ei : i = 0%Z).
  { destruct (Z.eq_dec i 0%Z) as [E|E]; [exact E|exfalso].
    pose proof (far_shift _ _ i N0 M0 E) as F. fold dx in F. nra. }
  assert (Ej : j = 0%Z).
  { destruct (Z.eq_dec j 0%Z) as [E|E]; [exact E|exfalso].
    pose proof (far_shift _ _ j N1 M1 E) as F. fold dy in F. nra. }
  assert (Ek : k = 0%Z).
  { destruct (Z.eq_dec k 0%Z) as [E|E]; [exact E|exfalso].
    pose proof (far_shift _ _ k N2 M2 E) as F. fold dz in F. nra. }
  subst i j k. repeat split; try reflexivity.
  unfold dx, dy, dz in Hr. clear dx dy dz N0 N1 N2 M0 M1 M2.
  destruct n as [|[|[|[|n]]]]; [| | | |lia];
    destruct m as [|[|[|[|m]]]]; try lia;
    try (exfalso; apply Hself; repeat split; reflexivity);
    try (left; split; reflexivity); try (right; split; reflexivity);
    exfalso; unfold apart in Hr;
    cbn [lookup_total list_lookup_total data vx vy vz] in Hr; lra.
Qed.

Lemma apart_unordered :
  unordered_pairs apart 4 100 = [(0%nat, (1%nat, (0, 0, 0)%Z))].
Proof.
  apply singleton_of_NoDup; [apply NoDup_unordered_pairs|].
  intros [n [m [[i j] k]]]. rewrite in_unordered_pairs. split.
  - intros (Hin & Hrep & Hint).
    apply in_all_pairs in Hin as (Hn & Hm & _).
    destruct (apart_interacting n m i j k Hn Hm Hint)
      as (-> & -> & -> & [[-> ->]|[-> ->]]); [reflexivity|].
    discriminate Hrep.
  - intros E. inversion E; subst. split; [|split].
    + apply in_all_pairs. unfold ncp_. lia.
    + reflexivity.
    + unfold interacting, pair_r2. apply andb_true_iff. split;
        [reflexivity|]. apply in_cutoff_true. rewrite dist2_displacement.
      unfold rc2_, rc_, apart.
      cbn [lookup_total list_lookup_total data vx vy vz]. lra.
Qed.

Lemma mirror_unordered r N L n m i j k :
  In (m, (i, j, k)) (force_pairs r ncp_ N L rc2_ n) -> (n < N)%nat ->
  (In (n, (m, (i, j, k))) (unordered_pairs r N L) <->
   ~ In (m, (n, ((- i)%Z, (- j)%Z, (- k)%Z))) (unordered_pairs r N L)).
Proof.
  intros H Hn. apply in_force_pairs in H as (Hr & Hself & Hc).
  apply (unordered_one_of_two r N L (n, (m, (i, j, k)))).
  - apply in_all_pairs. tauto.
  - unfold interacting, pair_r2. apply andb_true_iff. split.
    + apply not_self_true, Hself.
    + apply in_cutoff_true, Hc.
Qed.

(** C6. On a state in which no atom coincides with another atom or image
    of the range of the loops, for every order of the iterations and every
    assignment of the iterations to worker threads: the pairs selected for
    atom [n] are the [(m, (i, j, k))] with [m] an atom, [(i, j, k)] in the
    cube [-3..3]^3, not the self pair, and
    [r2 = dx^2 + dy^2 + dz^2 <= 2.5^2]; the accumulator of every worker
    holds the sum, over its iterations [n] and the pairs selected for [n],
    of [0.5 (4 (r^-12 - r^-6) - Vrc)] with [r = sqrt r2] and
    [Vrc = 4 (2.5^-12 - 2.5^-6)]; [Calc_Forces] leaves in [Up_] the
    combination of the accumulators, which in exact arithmetic is that sum
    over all atoms, and is the sum of [4 (r^-12 - r^-6) - Vrc] over the
    unordered pairs within the cutoff, each present once through one
    representative of the pair and its mirror image. *)
Theorem C6_potential_energy rt s :
  fair_runtime rt ->
  let N := NumAtom_ s in
  let L := periodiclen_ s in
  let r := r_ s in
  let r2 n m (i j k : Z) :=
    (data (r !!! n) 0 - (data (r !!! m) 0 + IZR i * L))
    * (data (r !!! n) 0 - (data (r !!! m) 0 + IZR i * L))
    + (data (r !!! n) 1 - (data (r !!! m) 1 + IZR j * L))
      * (data (r !!! n) 1 - (data (r !!! m) 1 + IZR j * L))
    + (data (r !!! n) 2 - (data (r !!! m) 2 + IZR k * L))
      * (data (r !!! n) 2 - (data (r !!! m) 2 + IZR k * L)) in
  let lj x :=
    4 * (/ sqrt x ^ 12 - / sqrt x ^ 6) - 4 * (/ 2.5 ^ 12 - / 2.5 ^ 6) in
  (forall n m i j k,
     (n < N)%nat -> (m < N)%nat ->
     (-3 <= i <= 3)%Z -> (-3 <= j <= 3)%Z -> (-3 <= k <= 3)%Z ->
     ~ (n = m /\ i = 0%Z /\ j = 0%Z /\ k = 0%Z) -> 0 < r2 n m i j k) ->
  (forall n m i j k,
     In (m, (i, j, k)) (force_pairs r ncp_ N L rc2_ n) <->
     ((m < N)%nat /\ (-3 <= i <= 3)%Z /\ (-3 <= j <= 3)%Z /\
      (-3 <= k <= 3)%Z) /\
     ~ (n = m /\ i = 0%Z /\ j = 0%Z /\ k = 0%Z) /\
     r2 n m i j k <= 2.5 * 2.5) /\
  (forall w,
     energy_accumulators rt s !!! w =
     Rsum (map (fun n =>
             if decide (w = worker_of rt n)
             then Rsum (map (fun '(m, (i, j, k)) => 0.5 * lj (r2 n m i j k))
                          (force_pairs r ncp_ N L rc2_ n))
             else 0) (seq 0 N))) /\
  Up_ (Calc_Forces rt s) = combine_plus (energy_accumulators rt s) /\
  Up_ (Calc_Forces rt s) =
    Rsum (map (fun n =>
            Rsum (map (fun '(m, (i, j, k)) => 0.5 * lj (r2 n m i j k))
                    (force_pairs r ncp_ N L rc2_ n))) (seq 0 N)) /\
  NoDup (unordered_pairs r N L) /\
  (forall n m i j k,
     In (n, (m, (i, j, k))) (unordered_pairs r N L) <->
     (n < N)%nat /\ (m < N)%nat /\
     (-3 <= i <= 3)%Z /\ (-3 <= j <= 3)%Z /\ (-3 <= k <= 3)%Z /\
     ((n < m)%nat \/
      (n = m /\
       ((0 < i)%Z \/ (i = 0%Z /\ ((0 < j)%Z \/ (j = 0%Z /\ (0 < k)%Z)))))) /\
     r2 n m i j k <= 2.5 * 2.5) /\
  Up_ (Calc_Forces rt s) =
    Rsum (map (fun '(n, (m, (i, j, k))) => lj (r2 n m i j k))
            (unordered_pairs r N L)) /\
  (forall n m i j k,
     (n < N)%nat -> In (m, (i, j, k)) (force_pairs r ncp_ N L rc2_ n) ->
     r2 m n (- i)%Z (- j)%Z (- k)%Z = r2 n m i j k /\
     (In (n, (m, (i, j, k))) (unordered_pairs r N L) <->
      ~ In (m, (n, ((- i)%Z, (- j)%Z, (- k)%Z))) (unordered_pairs r N L))).
Proof.
  intros Hrt N L r r2 lj Hpos.
  assert (E2 : forall n m i j k,
            dist2 (displacement r L n m i j k) = r2 n m i j k).
  { intros n m i j k. apply dist2_displacement. }
  assert (Hin : forall n m i j k,
            In (m, (i, j, k)) (force_pairs r ncp_ N L rc2_ n) <->
            ((m < N)%nat /\ (-3 <= i <= 3)%Z /\ (-3 <= j <= 3)%Z /\
             (-3 <= k <= 3)%Z) /\
            ~ (n = m /\ i = 0%Z /\ j = 0%Z /\ k = 0%Z) /\
            r2 n m i j k <= 2.5 * 2.5).
  { intros n m i j k. rewrite in_force_pairs, E2. reflexivity. }
  assert (Ha : forall n, (n < N)%nat ->
            atom_energy r N L n =
            Rsum (map (fun '(m, (i, j, k)) => 0.5 * lj (r2 n m i j k))
                    (force_pairs r ncp_ N L rc2_ n))).
  { intros n Hn. unfold atom_energy. apply Rsum_map_ext.
    intros [m [[i j] k]] H. apply Hin in H as ((Hm & Hi & Hj & Hk) & Hs & _).
    rewrite E2. apply pair_energy_explicit, Hpos; assumption. }
  assert (Hup : Up_ (Calc_Forces rt s) =
                Rsum (map (fun n =>
                  Rsum (map (fun '(m, (i, j, k)) => 0.5 * lj (r2 n m i j k))
                          (force_pairs r ncp_ N L rc2_ n))) (seq 0 N))).
  { rewrite Calc_Forces_Up by exact Hrt. apply Rsum_map_ext.
    intros n Hn. apply in_seq in Hn. apply Ha. lia. }
  assert (Hun : forall n m i j k,
            In (n, (m, (i, j, k))) (unordered_pairs r N L) <->
            (n < N)%nat /\ (m < N)%nat /\
            (-3 <= i <= 3)%Z /\ (-3 <= j <= 3)%Z /\ (-3 <= k <= 3)%Z /\
            ((n < m)%nat \/
             (n = m /\
              ((0 < i)%Z \/
               (i = 0%Z /\ ((0 < j)%Z \/ (j = 0%Z /\ (0 < k)%Z)))))) /\
            r2 n m i j k <= 2.5 * 2.5).
  { intros n m i j k. rewrite in_unordered_explicit, E2. reflexivity. }
  split; [exact Hin|]. split; [|split; [|split; [|split; [|split;
    [|split]]]]].
  - intros w. rewrite energy_accumulators_slot by exact Hrt.
    apply Rsum_map_ext. intros n Hn. apply in_seq in Hn.
    destruct (decide (w = worker_of rt n)); [|reflexivity].
    apply Ha. lia.
  - subst N L r. md_open s. reflexivity.
  - exact Hup.
  - apply NoDup_unordered_pairs.
  - exact Hun.
  - rewrite Calc_Forces_Up by exact Hrt.
    rewrite atom_energy_pairs, ordered_twice. apply Rsum_map_ext.
    intros [n [m [[i j] k]]] H. unfold pair_r2. rewrite E2.
    apply Hun in H as (Hn & Hm & Hi & Hj & Hk & Hrep & _).
    apply pair_potential_explicit, Hpos; try assumption. lia.
  - intros n m i j k Hn H. split.
    + rewrite <- !E2. apply (mirror_r2 r L (n, (m, (i, j, k)))).
    + apply mirror_unordered; assumption.
Qed.

Lemma C6_potential_energy_witness :
  let s := four_atoms apart apart at_rest at_rest 1 100 0 in
  Up_ (Calc_Forces sequential s) = - (4 * (/ 2.5 ^ 12 - / 2.5 ^ 6)).
Proof.
  intros s.
  destruct (C6_potential_energy sequential s sequential_fair)
    as (_ & _ & _ & _ & _ & _ & E & _).
  - exact apart_no_coincidence.
  - rewrite E.
    change (unordered_pairs (r_ s) (NumAtom_ s) (periodiclen_ s))
      with (unordered_pairs apart 4 100).
    rewrite apart_unordered. cbn [map]. rewrite Rsum_cons.
    change (r_ s) with apart. change (periodiclen_ s) with 100.
    unfold apart. cbn [lookup_total list_lookup_total data vx vy vz].
    replace ((0 - (1 + 0 * 100)) * (0 - (1 + 0 * 100))
             + (0 - (0 + 0 * 100)) * (0 - (0 + 0 * 100))
             + (0 - (0 + 0 * 100)) * (0 - (0 + 0 * 100))) with 1 by lra.
    rewrite sqrt_1, !pow1, Rinv_1. unfold Rsum. cbn [fold_right]. lra.
Defined.

(* ================================================================== *)
(** * Further properties on states where every division is defined *)

(** ** What does not depend on the schedule *)

Lemma forget_host_energy rt v s :
  set_Up v (download_F (host_energy rt s)) = set_Up v (download_F s).
Proof. destruct s. reflexivity. Qed.

Lemma Calc_Forces_but_Up rt1 rt2 s :
  fair_runtime rt1 -> fair_runtime rt2 -> sized s ->
  set_Up 0 (Calc_Forces rt1 s) = set_Up 0 (Calc_Forces rt2 s).
Proof.
  intros H1 H2 Hs. rewrite !Calc_Forces_split.
  rewrite (run_init_force_schedule rt1 rt2)
    by (auto using uploaded_forces_length).
  rewrite (run_force_schedule rt1 rt2) by (auto using zeroed_forces_length).
  rewrite !forget_host_energy. reflexivity.
Qed.

Lemma but_energy_Up v s : but_energy (set_Up v s) = but_energy s.
Proof. destruct s. reflexivity. Qed.

Lemma but_energy_idem s : but_energy (but_energy s) = but_energy s.
Proof. destruct s. reflexivity. Qed.

Lemma but_energy_sized s : sized (but_energy s) <-> sized s.
Proof. destruct s. reflexivity. Qed.

Lemma but_energy_Calc_Forces rt s :
  but_energy (Calc_Forces rt s) = but_energy (Calc_Forces rt (but_energy s)).
Proof. destruct s. reflexivity. Qed.

Lemma but_energy_tick s : but_energy (tick s) = tick (but_energy s).
Proof. destruct s. reflexivity. Qed.

Lemma but_energy_wrap rt s :
  but_energy (wrap rt s) = wrap rt (but_energy s).
Proof.
  destruct s as [lat Nc F Fd iter N L scale t Tc Tg Uk Up Utot V Vd r rd
                 r1 r1d].
  unfold wrap, but_energy. md_proj.
  destruct (parallel_for (order_wrap rt) 0 N (wrap_body L) (r, r1))
    as [r' r1'].
  reflexivity.
Qed.

Lemma but_energy_before_wrap rt s :
  but_energy (before_wrap rt s) =
  but_energy (before_wrap rt (but_energy s)).
Proof.
  destruct s as [lat Nc F Fd iter N L scale t Tc Tg Uk Up Utot V Vd r rd
                 r1 r1d].
  unfold but_energy, before_wrap, advance. md_proj. md_proj_k. md_proj.
  destruct (iter =? 1)%Z;
    match goal with
    | |- context [enqueue_1d_range_kernel ?a ?b ?c ?d] =>
        destruct (enqueue_1d_range_kernel a b c d) as [[r' r1'] V']
    end; reflexivity.
Qed.

Lemma but_energy_Move_Atoms rt s :
  but_energy (Move_Atoms rt s) = but_energy (Move_Atoms rt (but_energy s)).
Proof.
  rewrite !Move_Atoms_split, !but_energy_tick, !but_energy_wrap.
  rewrite but_energy_before_wrap. reflexivity.
Qed.

Lemma do_call_but_energy rt1 rt2 c s1 s2 :
  fair_runtime rt1 -> fair_runtime rt2 -> sized s1 -> sized s2 ->
  but_energy s1 = but_energy s2 ->
  but_energy (do_call rt1 c s1) = but_energy (do_call rt2 c s2).
Proof.
  intros H1 H2 Hs1 Hs2 E. destruct c; cbn [do_call].
  - rewrite (but_energy_Calc_Forces rt1 s1), E,
      <- (but_energy_Calc_Forces rt1 s2).
    rewrite <- (but_energy_Up 0 (Calc_Forces rt1 s2)),
      (Calc_Forces_but_Up rt1 rt2 s2 H1 H2 Hs2).
    apply but_energy_Up.
  - rewrite (but_energy_Move_Atoms rt1 s1), E,
      <- (but_energy_Move_Atoms rt1 s2).
    rewrite (Move_Atoms_schedule rt1 rt2 s2 H1 H2 Hs2). reflexivity.
Qed.

Lemma run_but_energy rt1 rt2 calls :
  fair_runtime rt1 -> fair_runtime rt2 ->
  forall s1 s2, sized s1 -> sized s2 -> but_energy s1 = but_energy s2 ->
  but_energy (run rt1 calls s1) = but_energy (run rt2 calls s2).
Proof.
  intros H1 H2. induction calls as [|c calls IH]; intros s1 s2 Hs1 Hs2 E.
  - exact E.
  - rewrite !run_cons. apply IH; try (apply do_call_sized; assumption).
    apply do_call_but_energy; assumption.
Qed.

(** X1.  What the schedule cannot change.  For any two run times that
    execute every index of a range exactly once, whatever the order of the
    work-items of each kernel launch, the order of the iterations of each
    [parallel_for] and the worker thread of each iteration: [Move_Atoms]
    leaves the same object state; [Calc_Forces] leaves the same object
    state except for [Up_], the only member that is accumulated across
    iterations; and any sequence of calls leaves the same state except for
    [Up_] and [Utot_].  Every work-item and every iteration of the other
    loops writes only the entries of its own atom, with the same operations
    on the same operands under both run times, a division by zero
    included. *)
Theorem X1_schedule_independence rt1 rt2 calls s :
  fair_runtime rt1 -> fair_runtime rt2 -> sized s ->
  Move_Atoms rt1 s = Move_Atoms rt2 s /\
  set_Up 0 (Calc_Forces rt1 s) = set_Up 0 (Calc_Forces rt2 s) /\
  but_energy (run rt1 calls s) = but_energy (run rt2 calls s).
Proof.
  intros H1 H2 Hs. split; [|split].
  - apply Move_Atoms_schedule; assumption.
  - apply Calc_Forces_but_Up; assumption.
  - apply run_but_energy; auto.
Qed.

Lemma X1_schedule_independence_witness :
  let s := four_atoms apart fcc4_prior one_moving at_rest 1 100 0 in
  but_energy (run sequential [CalcForces; MoveAtoms; CalcForces; MoveAtoms] s)
  = but_energy (run backwards [CalcForces; MoveAtoms; CalcForces; MoveAtoms] s).
Proof.
  exact (proj2 (proj2
    (X1_schedule_independence sequential backwards
       [CalcForces; MoveAtoms; CalcForces; MoveAtoms]
       (four_atoms apart fcc4_prior one_moving at_rest 1 100 0)
       sequential_fair backwards_fair
       (sized_four_atoms apart fcc4_prior one_moving at_rest 1 100 0
          eq_refl eq_refl eq_refl eq_refl)))).
Defined.

(** ** Calc_Forces called twice *)

Lemma Calc_Forces_accumulators rt s :
  Up_ (Calc_Forces rt s) = combine_plus (energy_accumulators rt s).
Proof. destruct s. reflexivity. Qed.

Lemma energy_accumulators_positions rt s s' :
  r_ s' = r_ s -> NumAtom_ s' = NumAtom_ s ->
  periodiclen_ s' = periodiclen_ s ->
  energy_accumulators rt s' = energy_accumulators rt s.
Proof.
  intros Er EN EL. unfold energy_accumulators. rewrite Er, EN, EL.
  reflexivity.
Qed.

Lemma Calc_Forces_F_positions rt1 rt2 s1 s2 :
  fair_runtime rt1 -> fair_runtime rt2 -> sized s1 -> sized s2 ->
  r_ s1 = r_ s2 -> NumAtom_ s1 = NumAtom_ s2 ->
  periodiclen_ s1 = periodiclen_ s2 ->
  F_ (Calc_Forces rt1 s1) = F_ (Calc_Forces rt2 s2).
Proof.
  intros H1 H2 Hs1 Hs2 Er EN EL.
  pose proof (Calc_Forces_sized rt1 s1 H1 Hs1) as (HF1 & _).
  pose proof (Calc_Forces_sized rt2 s2 H2 Hs2) as (HF2 & _).
  destruct (Calc_Forces_frame rt1 s1) as (_ & _ & _ & _ & _ & _ & N1 & _).
  destruct (Calc_Forces_frame rt2 s2) as (_ & _ & _ & _ & _ & _ & N2 & _).
  apply list_eq_slots with (NumAtom_ s1); [congruence|congruence|].
  intros n Hn. rewrite (Calc_Forces_F rt1 s1 n H1 Hs1 Hn).
  rewrite (Calc_Forces_F rt2 s2 n H2 Hs2) by (rewrite <- EN; exact Hn).
  rewrite Er, EN, EL. reflexivity.
Qed.

Lemma Calc_Forces_twice rt s :
  fair_runtime rt -> sized s ->
  Calc_Forces rt (Calc_Forces rt s) = Calc_Forces rt s.
Proof.
  intros H Hs. pose proof (Calc_Forces_sized rt s H Hs) as Hs'.
  destruct (Calc_Forces_frame rt s)
    as (Er & Er1 & EV & Ei & Et & EUk & EN & EUt & ETc & ETg & Elat & ENc
        & Esc & EL & EVd & Er1d).
  destruct (Calc_Forces_frame rt (Calc_Forces rt s))
    as (Er' & Er1' & EV' & Ei' & Et' & EUk' & EN' & EUt' & ETc' & ETg'
        & Elat' & ENc' & Esc' & EL' & EVd' & Er1d').
  pose proof (Calc_Forces_F_positions rt rt (Calc_Forces rt s) s H H Hs' Hs
                Er EN EL) as EF.
  apply MD_ext; try assumption.
  - rewrite <- (Calc_Forces_F_list rt _ H Hs'),
      <- (Calc_Forces_F_list rt _ H Hs). exact EF.
  - rewrite !Calc_Forces_accumulators.
    rewrite (energy_accumulators_positions rt s (Calc_Forces rt s) Er EN EL).
    reflexivity.
  - rewrite (Calc_Forces_r_dev rt _ Hs'), (Calc_Forces_r_dev rt _ Hs).
    exact Er.
Qed.

(** X2.  [Calc_Forces] is idempotent, and its forces are a function of the
    positions.  A second call that makes the same scheduling decisions
    leaves the object exactly as the first call left it, and a second call
    under any other run time leaves it so except for [Up_]: the device
    forces are set to zero again before they are accumulated, so no force
    is counted twice.  Two objects with the same positions, atom count and
    box length get the same force array, whatever their force arrays held
    before and whatever the run times. *)
Theorem X2_Calc_Forces_idempotent rt1 rt2 s :
  fair_runtime rt1 -> fair_runtime rt2 -> sized s ->
  Calc_Forces rt1 (Calc_Forces rt1 s) = Calc_Forces rt1 s /\
  set_Up 0 (Calc_Forces rt2 (Calc_Forces rt1 s)) =
    set_Up 0 (Calc_Forces rt1 s) /\
  (forall s', sized s' -> r_ s' = r_ s -> NumAtom_ s' = NumAtom_ s ->
     periodiclen_ s' = periodiclen_ s ->
     F_ (Calc_Forces rt2 s') = F_ (Calc_Forces rt1 s)).
Proof.
  intros H1 H2 Hs. split; [|split].
  - apply Calc_Forces_twice; assumption.
  - rewrite (Calc_Forces_but_Up rt2 rt1)
      by (auto using Calc_Forces_sized).
    rewrite Calc_Forces_twice by assumption. reflexivity.
  - intros s' Hs' Er EN EL. apply Calc_Forces_F_positions; assumption.
Qed.

Lemma X2_Calc_Forces_idempotent_witness :
  let s := four_atoms apart fcc4_prior one_moving at_rest 1 100 0 in
  Calc_Forces sequential (Calc_Forces sequential s) = Calc_Forces sequential s
  /\ set_Up 0 (Calc_Forces backwards (Calc_Forces sequential s)) =
     set_Up 0 (Calc_Forces sequential s).
Proof.
  intros s.
  destruct (X2_Calc_Forces_idempotent sequential backwards s
              sequential_fair backwards_fair
              (sized_four_atoms apart fcc4_prior one_moving at_rest 1 100 0
                 eq_refl eq_refl eq_refl eq_refl)) as (E1 & E2 & _).
  split; assumption.
Defined.

(** ** Action and reaction *)

(** X3.  Action and reaction.  On a state in which no atom coincides with
    another atom or image of the range of the loops, so that the force
    kernel divides by no zero, and in exact arithmetic: the pair made of
    atom [n] and the image [(i, j, k)] of atom [m] and the pair made of
    atom [m] and the image [(-i, -j, -k)] of atom [n] contribute opposite
    vectors when their distance is not zero, and both pass or both fail
    the two tests of the loop.  Hence the forces that [Calc_Forces] leaves
    in [F_] add up to zero over the atoms, in each of the four components,
    for every run time. *)
Theorem X3_forces_sum_to_zero rt s c :
  fair_runtime rt -> sized s ->
  no_coincidence (r_ s) (NumAtom_ s) (periodiclen_ s) ->
  (forall p i,
     0 < pair_r2 (r_ s) (periodiclen_ s) p ->
     data (pair_force (pair_displacement (r_ s) (periodiclen_ s) (mirror p))) i
     = - data (pair_force (pair_displacement (r_ s) (periodiclen_ s) p)) i) /\
  (forall p,
     interacting (r_ s) (periodiclen_ s) rc2_ (mirror p) =
     interacting (r_ s) (periodiclen_ s) rc2_ p) /\
  total c (NumAtom_ s) (F_ (Calc_Forces rt s)) = 0.
Proof.
  intros Hrt Hs _. split; [|split].
  - intros p i _. apply mirror_pair_force.
  - intros p. apply mirror_interacting.
  - apply Calc_Forces_total; assumption.
Qed.

Lemma X3_forces_sum_to_zero_witness :
  let s := four_atoms apart apart at_rest at_rest 1 100 0 in
  total 0 (NumAtom_ s) (F_ (Calc_Forces backwards s)) = 0 /\
  data (F_ (Calc_Forces backwards s) !!! 0%nat) 0 = -24.
Proof.
  intros s. split.
  - exact (proj2 (proj2
      (X3_forces_sum_to_zero backwards s 0
         backwards_fair
         (sized_four_atoms apart apart at_rest at_rest 1 100 0
            eq_refl eq_refl eq_refl eq_refl)
         apart_no_coincidence))).
  - rewrite (Calc_Forces_F backwards s 0%nat backwards_fair
               (sized_four_atoms apart apart at_rest at_rest 1 100 0
                  eq_refl eq_refl eq_refl eq_refl) ltac:(cbn; lia)).
    apply apart_net_force_x.
Defined.

(** ** The displacement of the centre of mass *)

(** X4.  One step of [Calc_Forces] followed by [Move_Atoms], once the
    first step is over ([MD_iter_] is not 1), on a state in which no atom
    coincides with another atom or image of the range of the loops, and in
    exact arithmetic, conserves the displacement of the centre of mass:
    the sum over the atoms of [r_[n] - r1_[n]] is the same after the step
    as before, in each of the components x, y and z, the atoms wrapped to
    the other side of the box included (the periodic boundary treatment
    shifts [r_[n]] and [r1_[n]] together); and the sum of the new
    velocities is that sum divided by [DT]. *)
Theorem X4_step_conserves_drift rt s c :
  fair_runtime rt -> sized s -> (c < 3)%nat -> MD_iter_ s <> 1%Z ->
  no_coincidence (r_ s) (NumAtom_ s) (periodiclen_ s) ->
  let s' := Move_Atoms rt (Calc_Forces rt s) in
  (forall n, (n < NumAtom_ s)%nat ->
     data (r_ s' !!! n) c - data (r1_ s' !!! n) c =
     data (r_ (before_wrap rt (Calc_Forces rt s)) !!! n) c -
     data (r1_ (before_wrap rt (Calc_Forces rt s)) !!! n) c) /\
  drift c s' = drift c s /\
  total c (NumAtom_ s) (V_ s') = drift c s / DT.
Proof.
  intros Hrt Hs Hc Hi _ s'.
  pose proof (Calc_Forces_sized rt s Hrt Hs) as Hs1.
  destruct (Calc_Forces_frame rt s)
    as (_ & _ & _ & Ei & _ & _ & EN & _).
  assert (Hi1 : MD_iter_ (Calc_Forces rt s) <> 1%Z) by congruence.
  destruct (Move_Atoms_steady_totals rt (Calc_Forces rt s) c Hrt Hs1 Hc Hi1)
    as [D T].
  rewrite EN, Calc_Forces_total, Calc_Forces_drift in D, T by assumption.
  split; [|split].
  - intros n Hn. apply Move_Atoms_difference;
      [assumption | assumption | rewrite EN; exact Hn | assumption].
  - unfold s'. rewrite D. ring.
  - unfold s'. rewrite T. unfold Rdiv. ring.
Qed.

Lemma X4_step_conserves_drift_witness :
  let s := four_atoms apart fcc4_prior one_moving at_rest 2 100 0 in
  drift 0 (Move_Atoms backwards (Calc_Forces backwards s)) = drift 0 s.
Proof.
  exact (proj1 (proj2
    (X4_step_conserves_drift backwards
       (four_atoms apart fcc4_prior one_moving at_rest 2 100 0) 0
       backwards_fair
       (sized_four_atoms apart fcc4_prior one_moving at_rest 2 100 0
          eq_refl eq_refl eq_refl eq_refl)
       ltac:(lia)
       ltac:(discriminate)
       apart_no_coincidence))).
Defined.

(** ** The constructed object *)

Lemma site_below_box lat Nc p c :
  0 <= lat -> In p (fcc_lattice lat Nc) ->
  0 <= coord c p <= lat * INR Nc - lat / 2.
Proof.
  intros Hlat H. apply in_fcc_lattice in H as (i & j & k & Hi & Hj & Hk & H).
  apply in_fcc_cell in H as (o & Ho & ->).
  apply Nat.le_succ_l, le_INR in Hi, Hj, Hk. rewrite S_INR in Hi, Hj, Hk.
  pose proof (pos_INR i). pose proof (pos_INR j). pose proof (pos_INR k).
  assert (B : forall a, 0 <= coord a o <= 1 / 2)
    by (intros a; destruct (basis_coord o a Ho) as [-> | ->]; lra).
  pose proof (B 0%nat). pose proof (B 1%nat). pose proof (B 2%nat).
  replace (lat * INR Nc - lat / 2) with (lat * (INR Nc - 1 / 2)) by lra.
  destruct c as [|[|c]]; cbn [coord fst snd] in *; split;
    solve [apply Rmult_le_pos; lra | apply Rmult_le_compat_l; lra].
Qed.

Lemma near_shift a b lat L (z : Z) :
  0 < lat -> lat <= L ->
  0 <= a <= L - lat / 2 -> 0 <= b <= L - lat / 2 ->
  a - b - IZR z * L = 0 -> z = 0%Z.
Proof.
  intros Hlat HL Ha Hb E.
  destruct (Z_zero_or_far z) as [Z|[Z|Z]]; [exact Z|exfalso|exfalso].
  - assert (IZR z * L <= - L) by nra. lra.
  - assert (L <= IZR z * L) by nra. lra.
Qed.

(** The atoms placed by [MD_initPos] coincide with no other atom and no
    image: two sites differ, and they differ by less than the length of
    the box along every axis. *)
Lemma lattice_no_coincidence s :
  length (r_ s) = (4 * Nc_ s ^ 3)%nat -> 0 < lat_ s ->
  no_coincidence (r_ (MD_initPos s)) (4 * Nc_ s ^ 3)
    (lat_ s * INR (Nc_ s)).
Proof.
  intros Hr Hlat n m i j k Hn Hm Hi Hj Hk Hself.
  destruct (MD_initPos_sites s Hr) as (_ & _ & P & _).
  rewrite (P n 0%nat Hn ltac:(lia)), (P n 1%nat Hn ltac:(lia)),
    (P n 2%nat Hn ltac:(lia)), (P m 0%nat Hm ltac:(lia)),
    (P m 1%nat Hm ltac:(lia)), (P m 2%nat Hm ltac:(lia)).
  pose proof (length_fcc_lattice (lat_ s) (Nc_ s)) as Len.
  assert (In_n : In (fcc_lattice (lat_ s) (Nc_ s) !!! n)
                   (fcc_lattice (lat_ s) (Nc_ s))).
  { apply list_elem_of_In, list_elem_of_lookup_total_2. rewrite Len.
    exact Hn. }
  assert (In_m : In (fcc_lattice (lat_ s) (Nc_ s) !!! m)
                   (fcc_lattice (lat_ s) (Nc_ s))).
  { apply list_elem_of_In, list_elem_of_lookup_total_2. rewrite Len.
    exact Hm. }
  assert (HNc : (1 <= Nc_ s)%nat).
  { destruct (Nc_ s); [cbn in Hn; lia|lia]. }
  apply le_INR in HNc. cbn [INR] in HNc.
  assert (HL : lat_ s <= lat_ s * INR (Nc_ s)) by nra.
  pose proof (fun c => site_below_box (lat_ s) (Nc_ s) _ c
                         (Rlt_le _ _ Hlat) In_n) as Bn.
  pose proof (fun c => site_below_box (lat_ s) (Nc_ s) _ c
                         (Rlt_le _ _ Hlat) In_m) as Bm.
  pose proof (sites_differ (lat_ s) (Nc_ s) n m
                ltac:(lra) Hn Hm) as Hdiff.
  set (L := lat_ s * INR (Nc_ s)) in *.
  set (p := fcc_lattice (lat_ s) (Nc_ s) !!! n) in *.
  set (q := fcc_lattice (lat_ s) (Nc_ s) !!! m) in *.
  set (M0 := Rsum (map (coord 0) (fcc_lattice (lat_ s) (Nc_ s)))
             / INR (4 * Nc_ s ^ 3)).
  set (M1 := Rsum (map (coord 1) (fcc_lattice (lat_ s) (Nc_ s)))
             / INR (4 * Nc_ s ^ 3)).
  set (M2 := Rsum (map (coord 2) (fcc_lattice (lat_ s) (Nc_ s)))
             / INR (4 * Nc_ s ^ 3)).
  set (dx := coord 0 p - M0 - (coord 0 q - M0 + IZR i * L)).
  set (dy := coord 1 p - M1 - (coord 1 q - M1 + IZR j * L)).
  set (dz := coord 2 p - M2 - (coord 2 q - M2 + IZR k * L)).
  destruct (Rlt_le_dec 0 (dx * dx + dy * dy + dz * dz)) as [H|H];
    [exact H|exfalso].
  assert (Z : dx = 0 /\ dy = 0 /\ dz = 0) by (repeat split; nra).
  destruct Z as (Zx & Zy & Zz). unfold dx, dy, dz in Zx, Zy, Zz.
  assert (Ei : i = 0%Z).
  { apply (near_shift (coord 0 p) (coord 0 q) (lat_ s) L);
      [assumption|assumption|apply Bn|apply Bm|lra]. }
  assert (Ej : j = 0%Z).
  { apply (near_shift (coord 1 p) (coord 1 q) (lat_ s) L);
      [assumption|assumption|apply Bn|apply Bm|lra]. }
  assert (Ek : k = 0%Z).
  { apply (near_shift (coord 2 p) (coord 2 q) (lat_ s) L);
      [assumption|assumption|apply Bn|apply Bm|lra]. }
  subst i j k.
  destruct (Nat.eq_dec n m) as [E|E]; [apply Hself; auto|].
  apply (Hdiff E).
  destruct p as [[a b] c], q as [[a' b'] c'].
  cbn [coord fst snd] in Zx, Zy, Zz.
  assert (a = a') by lra. assert (b = b') by lra. assert (c = c') by lra.
  congruence.
Qed.

Lemma construct_no_coincidence nc scale u mr :
  0 < scale ->
  no_coincidence (r_ (construct nc scale u mr))
    (NumAtom_ (construct nc scale u mr))
    (periodiclen_ (construct nc scale u mr)).
Proof.
  intros Hscale.
  destruct (construct_placement nc scale u mr) as (Er & EL & Elat & ENc & Hr).
  rewrite Er, EL, construct_NumAtom.
  set (s0 := members_initialised nc scale u) in *.
  replace (4 * nc ^ 3)%nat with (4 * Nc_ s0 ^ 3)%nat
    by (rewrite ENc; reflexivity).
  apply lattice_no_coincidence; [exact Hr|].
  rewrite Elat. apply Rmult_lt_0_compat; [|exact Hscale].
  unfold Rpower. apply exp_pos.
Qed.

Lemma construct_V nc scale u mr :
  let s1 := MD_initPos (members_initialised nc scale u) in
  V_ (construct nc scale u mr) = V_ (MD_initVel mr s1) /\
  length (V_ s1) = NumAtom_ s1 /\ NumAtom_ s1 = (4 * nc ^ 3)%nat /\
  Tg_ s1 = FIRSTTEMP * KB / YPSILON.
Proof.
  intros s1. rewrite construct_unfold.
  destruct (set_periodiclen_frame
              (lat_ (MD_initVel mr
                       (MD_initPos (members_initialised nc scale u)))
               * INR (Nc_ (MD_initVel mr
                             (MD_initPos (members_initialised nc scale u)))))
              (MD_initVel mr (MD_initPos (members_initialised nc scale u))))
    as (_ & _ & _ & PV & _).
  rewrite PV. clear PV. fold s1.
  destruct (members_initialised_fields nc scale u)
    as (_ & ENc & _ & HV & Hr & _).
  assert (E : length (V_ s1) = NumAtom_ s1).
  { apply MD_initPos_V_length; rewrite ENc; assumption. }
  split; [reflexivity|]. split; [exact E|]. split.
  - unfold s1.
    rewrite (proj1 (MD_initPos_sites _ ltac:(rewrite ENc; exact Hr))).
    rewrite ENc. reflexivity.
  - unfold s1.
    destruct (MD_initPos_frame (members_initialised nc scale u))
      as (_ & _ & -> & _).
    reflexivity.
Qed.

(** With the directions of [axes] the constructed atoms are not at rest:
    the first atom draws the first axis and the second one the second
    axis, so that their velocities differ after the mean is subtracted. *)
Lemma axes_kinetic_energy u :
  0 < kinetic_energy 4 (V_ (construct 1 1 u axes)).
Proof.
  destruct (construct_V 1 1 u axes) as (EV & Hlen & EN & ETg).
  set (s1 := MD_initPos (members_initialised 1 1 u)) in *.
  change (4 * 1 ^ 3)%nat with 4%nat in EN.
  destruct (MD_initVel_velocities axes s1 Hlen) as (Hd & Hc & _).
  rewrite EN in Hd, Hc. rewrite EV.
  pose proof (kinetic_energy_nonneg 4 (V_ (MD_initVel axes s1))) as K0.
  destruct (Rle_lt_or_eq_dec _ _ K0) as [K|K]; [exact K|exfalso].
  symmetry in K. rewrite kinetic_energy_zero in K.
  pose proof (K 0%nat 0%nat ltac:(lia) ltac:(lia)) as A.
  pose proof (K 1%nat 0%nat ltac:(lia) ltac:(lia)) as B.
  rewrite Hc in A, B by lia.
  rewrite (Hd 0%nat ltac:(lia)) in A. rewrite (Hd 1%nat ltac:(lia)) in B.
  rewrite direction_velocity_component in A, B by lia.
  rewrite (axes_draws 0 ltac:(lia)) in A.
  rewrite (axes_draws 1 ltac:(lia)) in B.
  unfold draw, axes in A, B.
  cbn [coord fst snd samples drawn Nat.add Nat.mul] in A, B.
  rewrite sqrt_1 in A, B. rewrite ETg in A, B.
  assert (P : 0 < sqrt (3.0 * (FIRSTTEMP * KB / YPSILON))).
  { apply sqrt_lt_R0. unfold FIRSTTEMP, KB, YPSILON. lra. }
  set (v := sqrt (3.0 * (FIRSTTEMP * KB / YPSILON))) in *.
  lra.
Qed.

(** ** The total momentum along a run *)

(** X5.  The total momentum stays zero.  On the object built by the
    constructor with directions none of which is three zeros, after any
    sequence of calls of [Calc_Forces] and [Move_Atoms] none of which
    divides by zero (no atom on another atom or image at a call of
    [Calc_Forces]; at least one atom and, on the first step, a temperature
    above zero at a call of [Move_Atoms]), under any run time and in exact
    arithmetic, the velocities add up to zero over the atoms in each of
    the components x, y and z, and so do the forces; once [Move_Atoms] has
    been called, the displacements [r_[n] - r1_[n]] of the last step add
    up to zero as well.  Neither the velocity scaling of the first step
    nor the periodic boundary treatment sets the centre of mass in
    motion. *)
Theorem X5_momentum_stays_zero rt calls nc scale u mr c :
  fair_runtime rt -> (c < 3)%nat ->
  (forall n, (n < 4 * nc ^ 3)%nat ->
     coord 0 (draw mr n) * coord 0 (draw mr n)
     + coord 1 (draw mr n) * coord 1 (draw mr n)
     + coord 2 (draw mr n) * coord 2 (draw mr n) <> 0) ->
  run_defined rt calls (construct nc scale u mr) ->
  let s := run rt calls (construct nc scale u mr) in
  total c (NumAtom_ s) (V_ s) = 0 /\
  total c (NumAtom_ s) (F_ s) = 0 /\
  (MD_iter_ s <> 1%Z -> drift c s = 0).
Proof.
  intros Hrt Hc _ _ s.
  destruct (run_balanced rt calls (construct nc scale u mr) c Hrt Hc
              (construct_balanced nc scale u mr c Hc))
    as (_ & HF & HV & HD).
  repeat split; assumption.
Qed.

Lemma X5_momentum_stays_zero_witness :
  let s := run backwards [CalcForces; MoveAtoms] (construct 1 1 junk axes) in
  total 0 (NumAtom_ s) (V_ s) = 0 /\
  0 < kinetic_energy 4 (V_ (construct 1 1 junk axes)).
Proof.
  intros s. split; [|apply axes_kinetic_energy].
  refine (proj1
    (X5_momentum_stays_zero backwards [CalcForces; MoveAtoms] 1 1
       junk axes 0 backwards_fair ltac:(lia) _ _)).
  - intros n Hn. rewrite (axes_draws n Hn). lra.
  - cbn [run_defined call_defined do_call]. split; [|split; [|exact I]].
    + apply construct_no_coincidence. lra.
    + destruct (Calc_Forces_frame backwards (construct 1 1 junk axes))
        as (_ & _ & EV & _ & _ & _ & EN & _).
      rewrite EN, EV, construct_NumAtom.
      split; [cbn; lia|]. intros _. apply axes_kinetic_energy.
Defined.

(** ** The clock of a run *)

(** X6.  The clock of a run.  After the construction and any sequence of
    calls in which [Move_Atoms] is called at most 2147483646 times, so
    that the 32-bit step counter does not overflow, under any run time,
    the step counter [MD_iter_] is one more than the number of calls of
    [Move_Atoms] made so far and the time [t_] is that number times [DT];
    calls of [Calc_Forces] do not advance either of them. *)
Theorem X6_clock rt calls nc scale u mr :
  (Z.of_nat (moves calls) <= 2147483646)%Z ->
  let s := run rt calls (construct nc scale u mr) in
  MD_iter_ s = (1 + Z.of_nat (moves calls))%Z /\
  t_ s = INR (moves calls) * DT /\
  MD_iter_ (Calc_Forces rt s) = MD_iter_ s /\
  t_ (Calc_Forces rt s) = t_ s.
Proof.
  intros Hb s.
  destruct (run_counter rt calls (construct nc scale u mr) 0) as [Hi Ht].
  - rewrite construct_iter. reflexivity.
  - rewrite construct_t. cbn [INR]. lra.
  - cbn [Nat.add]. exact Hb.
  - cbn [Nat.add] in Hi, Ht.
    destruct (Calc_Forces_frame rt s) as (_ & _ & _ & Ei & Et & _).
    repeat split; assumption.
Qed.

Lemma X6_clock_witness :
  let s := run sequential [CalcForces; MoveAtoms; CalcForces; MoveAtoms]
             (construct 1 1 junk axes) in
  MD_iter_ s = 3%Z /\ t_ s = 2 * DT.
Proof.
  intros s.
  destruct (X6_clock sequential [CalcForces; MoveAtoms; CalcForces; MoveAtoms]
              1 1 junk axes ltac:(cbn; lia)) as (Hi & Ht & _).
  split; [exact Hi|]. fold s in Ht. rewrite Ht.
  cbn [moves List.filter length INR]. lra.
Defined.
